(** * Link prediction with a two-layer graph convolutional network

    A shallow embedding of the notebook
    [Graph_Convolutional_Prediction_of_Protein_Interactions.ipynb]:
    the utility functions ([preprocess_graph], [mask_test_edges],
    [get_roc_score], [weight_variable_glorot]), the decoder layer, the
    optimizer's cost and the training loop, followed by the properties
    proved about them.

    Conventions of the embedding.
    - Integers that index nodes and edges are [nat]; matrix entries that the
      edge splitter inspects are [Z]; what the notebook computes in
      float32/float64 is computed here over the real numbers [R].  The
      initial weights are rounded as IEEE 754 prescribes; everywhere else
      the arithmetic is exact.
    - A scipy sparse matrix is its shape together with the value it holds at
      every index (zero where nothing is stored).  Every sparse matrix of
      the notebook is square, [N] by [N] for the [N] nodes of the graph.
    - A Python exception is identified by its class name.
    - [np.random] is represented by the values it is going to hand out. *)

From Stdlib Require Import String.
From Stdlib Require Import List Arith ZArith Bool Lia Permutation.
From Stdlib Require Import QArith Reals Lra.
Import ListNotations.

Local Open Scope string_scope.
Local Open Scope list_scope.
Local Open Scope nat_scope.

(** ** Outcomes of Python computations *)

Inductive outcome (A : Type) : Type :=
| Returns (a : A)
| Raises (exn : string)
| OutOfFuel.

Arguments Returns {A} a.
Arguments Raises {A} exn.
Arguments OutOfFuel {A}.

Definition bind {A B : Type} (c : outcome A) (k : A -> outcome B) : outcome B :=
  match c with
  | Returns a => k a
  | Raises e => Raises e
  | OutOfFuel => OutOfFuel
  end.

Declare Scope py_scope.
Delimit Scope py_scope with py.
Notation "x <- c ;; k" := (bind c (fun x => k))
  (at level 61, c at next level, right associativity) : py_scope.
Notation "' p <- c ;; k" := (bind c (fun p => k))
  (at level 61, p pattern, c at next level, right associativity) : py_scope.
Local Open Scope py_scope.

(** ** Sparse matrices *)

Record spmatrix (V : Type) : Type := {
  order : nat;
  coeff : nat -> nat -> V
}.

Arguments order {V} _.
Arguments coeff {V} _ _ _.

Definition shape {V : Type} (m : spmatrix V) : nat * nat :=
  (order m, order m).

Definition edge : Type := (nat * nat)%type.

Definition edge_eqb (a b : edge) : bool :=
  (fst a =? fst b) && (snd a =? snd b).

(** [sparse_mx.tocoo()] of a matrix in canonical format lists the stored
    entries row by row; after [eliminate_zeros] the stored entries are the
    nonzero ones. *)
Definition coords (m : spmatrix Z) : list edge :=
  flat_map
    (fun i =>
       flat_map (fun j => if (coeff m i j =? 0)%Z then [] else [(i, j)])
                (seq 0 (order m)))
    (seq 0 (order m)).

(** [sparse_to_tuple] on a matrix in canonical format that stores no
    zero, as are the matrices that the notebook passes to it
    ([sparse_to_tuple_coo] below is the function on whatever a COO matrix
    stores). *)
Definition sparse_to_tuple (sparse_mx : spmatrix Z)
  : list edge * list Z * (nat * nat) :=
  let coords := coords sparse_mx in
  let values := map (fun e => coeff sparse_mx (fst e) (snd e)) coords in
  (coords, values, shape sparse_mx).

(** [adj - sp.dia_matrix((adj.diagonal()[np.newaxis, :], [0]), shape=adj.shape)] *)
Definition remove_diagonal (adj : spmatrix Z) : spmatrix Z :=
  {| order := order adj;
     coeff := fun i j =>
       (coeff adj i j - (if (i =? j)%nat then coeff adj i i else 0))%Z |}.

(** [sp.triu(adj)] *)
Definition triu (adj : spmatrix Z) : spmatrix Z :=
  {| order := order adj;
     coeff := fun i j => if i <=? j then coeff adj i j else 0%Z |}.

Definition zsum (l : list nat) (f : nat -> Z) : Z :=
  fold_right Z.add 0%Z (map f l).

(** [adj.sum()] *)
Definition matrix_sum (adj : spmatrix Z) : Z :=
  zsum (seq 0 (order adj))
       (fun i => zsum (seq 0 (order adj)) (fun j => coeff adj i j)).

(** ** The pieces of NumPy that the edge splitter calls *)

(** [np.delete] changed in NumPy 1.19: an index array that is not of integer
    type, and an index out of bounds, were accepted with a deprecation
    warning before and raise [IndexError] since.  The notebook records
    NumPy 2.0.2, which is [Strict]. *)
Inductive numpy_release : Type := Legacy | Strict.

Inductive dtype : Type := int64 | float64.

Definition null {A : Type} (l : list A) : bool :=
  match l with [] => true | _ => false end.

(** [np.hstack([a, b])] of two Python lists of integers: an empty list
    becomes an empty float64 array, which promotes the result. *)
Definition hstack (a b : list nat) : dtype * list nat :=
  (if null a || null b then float64 else int64, a ++ b).

(** [arr[idx]] with a list of row numbers. *)
Fixpoint take_rows {A : Type} (arr : list A) (idx : list nat)
  : outcome (list A) :=
  match idx with
  | [] => Returns []
  | k :: idx' =>
      match nth_error arr k with
      | None => Raises "IndexError"
      | Some row => rows <- take_rows arr idx' ;; Returns (row :: rows)
      end
  end.

(** The rows that [keep = ones(N); keep[obj] = False; arr[keep]] retains. *)
Definition delete_rows {A : Type} (arr : list A) (obj : list nat) : list A :=
  map snd
      (filter (fun kr => negb (existsb (Nat.eqb (fst kr)) obj))
              (combine (seq 0 (length arr)) arr)).

Definition np_delete {A : Type} (np : numpy_release) (arr : list A)
           (obj : dtype * list nat) : outcome (list A) :=
  match np with
  | Legacy => Returns (delete_rows arr (snd obj))
  | Strict =>
      match fst obj with
      | float64 => Raises "IndexError"
      | int64 =>
          if forallb (fun k => k <? length arr) (snd obj)
          then Returns (delete_rows arr (snd obj))
          else Raises "IndexError"
      end
  end.

(** [l[a:b]] *)
Definition slice {A : Type} (a b : nat) (l : list A) : list A :=
  skipn a (firstn b l).

(** The global generator [np.random]: the order in which
    [np.random.shuffle] leaves [list(range(E))], and the integers that the
    successive calls of [np.random.randint] are built from. *)
Record RandomState : Type := {
  shuffled : list nat;
  stream : nat -> nat;
  cursor : nat
}.

Definition advance (rs : RandomState) (k : nat) : RandomState :=
  {| shuffled := shuffled rs; stream := stream rs; cursor := cursor rs + k |}.

(** [np.random.randint(low, high, size=size)] *)
Definition randint (rs : RandomState) (low high size : nat)
  : outcome (list nat * RandomState) :=
  if high <=? low then Raises "ValueError"
  else Returns (map (fun k => low + stream rs (cursor rs + k) mod (high - low))
                    (seq 0 size),
                advance rs size).

(** ** [mask_test_edges] *)

Definition ismember (a : edge) (b : list edge) : bool :=
  existsb (fun row => edge_eqb a row) b.

(** The tests that make the test-negative loop [continue]. *)
Definition test_rejects (edges_all : list edge) (test_edges_false : list edge)
           (idx_i idx_j : nat) : bool :=
  if idx_i =? idx_j then true
  else if ismember (idx_i, idx_j) edges_all then true
  else if negb (null test_edges_false) then
    if ismember (idx_j, idx_i) test_edges_false then true
    else if ismember (idx_i, idx_j) test_edges_false then true
    else false
  else false.

(** The tests that make the validation-negative loop [continue]. *)
Definition val_rejects (train_edges val_edges : list edge)
           (val_edges_false : list edge) (idx_i idx_j : nat) : bool :=
  if idx_i =? idx_j then true
  else if ismember (idx_i, idx_j) train_edges then true
  else if ismember (idx_j, idx_i) train_edges then true
  else if ismember (idx_i, idx_j) val_edges then true
  else if ismember (idx_j, idx_i) val_edges then true
  else if negb (null val_edges_false) then
    if ismember (idx_j, idx_i) val_edges_false then true
    else if ismember (idx_i, idx_j) val_edges_false then true
    else false
  else false.

Section NegativeSampling.

(** The two sampling loops of [mask_test_edges] are the same text up to the
    rejection tests, which are the parameter here. *)
Variable rejects : list edge -> nat -> nat -> bool.

(** One turn of [for i in range(n_rnd)]. *)
Definition for_body (idxs_i idxs_j : list nat) (edges_false : list edge)
           (i : nat) : list edge :=
  let idx_i := nth i idxs_i 0 in
  let idx_j := nth i idxs_j 0 in
  if rejects edges_false idx_i idx_j then edges_false
  else edges_false ++ [(idx_i, idx_j)].

(** [while len(edges_false) < len(edges_pos): ...] *)
Fixpoint sample_false (fuel : nat) (n : nat) (edges_pos : list edge)
         (rs : RandomState) (edges_false : list edge)
  : outcome (list edge * RandomState) :=
  if length edges_false <? length edges_pos then
    match fuel with
    | 0 => OutOfFuel
    | S fuel' =>
        let n_rnd := length edges_pos - length edges_false in
        ' (rnd, rs') <- randint rs 0 n (2 * n_rnd) ;;
        let idxs_i := firstn n_rnd rnd in
        let idxs_j := skipn n_rnd rnd in
        sample_false fuel' n edges_pos rs'
                     (fold_left (for_body idxs_i idxs_j) (seq 0 n_rnd)
                                edges_false)
    end
  else Returns (edges_false, rs).

End NegativeSampling.

Fixpoint count_edge (e : edge) (l : list edge) : Z :=
  match l with
  | [] => 0%Z
  | e' :: l' => ((if edge_eqb e e' then 1 else 0) + count_edge e l')%Z
  end.

(** [sp.csr_matrix((np.ones(k), (rows, cols)), shape=shape)]: entries given
    twice are added up. *)
Definition csr_matrix_ones (es : list edge) (shp : nat * nat) : spmatrix Z :=
  {| order := fst shp; coeff := fun i j => count_edge (i, j) es |}.

Definition transpose_sp {V : Type} (m : spmatrix V) : spmatrix V :=
  {| order := order m; coeff := fun i j => coeff m j i |}.

(** [a + b], entry by entry; the operands have the same shape at every
    call. *)
Definition zip_sp {V : Type} (op : V -> V -> V) (a b : spmatrix V)
  : spmatrix V :=
  {| order := order a;
     coeff := fun i j => op (coeff a i j) (coeff b i j) |}.

Definition add_sp : spmatrix Z -> spmatrix Z -> spmatrix Z := zip_sp Z.add.

Record split : Type := {
  adj_train : spmatrix Z;
  train_edges : list edge;
  val_edges : list edge;
  val_edges_false : list edge;
  test_edges : list edge;
  test_edges_false : list edge
}.

Definition mask_test_edges (np : numpy_release) (adj : spmatrix Z)
           (rs : RandomState) (fuel : nat) : outcome split :=
  let adj := remove_diagonal adj in
  let adj_triu := triu adj in
  let adj_tuple := sparse_to_tuple adj_triu in
  let edges := fst (fst adj_tuple) in
  let edges_all := fst (fst (sparse_to_tuple adj)) in
  let num_test := length edges / 50 in
  let num_val := length edges / 50 in
  let all_edge_idx := shuffled rs in
  let val_edge_idx := slice 0 num_val all_edge_idx in
  let test_edge_idx := slice num_val (num_val + num_test) all_edge_idx in
  test_edges <- take_rows edges test_edge_idx ;;
  val_edges <- take_rows edges val_edge_idx ;;
  train_edges <- np_delete np edges (hstack test_edge_idx val_edge_idx) ;;
  ' (test_edges_false, rs) <-
    sample_false (test_rejects edges_all) fuel (fst (shape adj)) test_edges
                 rs [] ;;
  ' (val_edges_false, rs) <-
    sample_false (val_rejects train_edges val_edges) fuel (fst (shape adj))
                 val_edges rs [] ;;
  let adj_train := csr_matrix_ones train_edges (shape adj) in
  let adj_train := add_sp adj_train (transpose_sp adj_train) in
  Returns {| adj_train := adj_train;
             train_edges := train_edges;
             val_edges := val_edges;
             val_edges_false := val_edges_false;
             test_edges := test_edges;
             test_edges_false := test_edges_false |}.

(** [edges] of [mask_test_edges]: the unique undirected edges of the graph. *)
Definition unique_edges (adj : spmatrix Z) : list edge :=
  fst (fst (sparse_to_tuple (triu (remove_diagonal adj)))).

(** [edges_all] of [mask_test_edges]. *)
Definition all_entries (adj : spmatrix Z) : list edge :=
  fst (fst (sparse_to_tuple (remove_diagonal adj))).

(** *** Sample inputs *)

Definition tape (l : list nat) : nat -> nat := fun k => nth k l 0.

(** A path on 51 proteins, [0 - 1 - ... - 50]: 50 interactions. *)
Definition path51 : spmatrix Z :=
  {| order := 51;
     coeff := fun i j => if (j =? i + 1) || (i =? j + 1) then 1%Z else 0%Z |}.

(** The shuffle leaves the edges in place; [randint] then hands out
    [0, 2] to the test loop and [1, 2] to the validation loop. *)
Definition rs_path51 : RandomState :=
  {| shuffled := seq 0 50; stream := tape [0; 2; 1; 2]; cursor := 0 |}.

Definition empty_split : split :=
  {| adj_train := csr_matrix_ones [] (0, 0);
     train_edges := []; val_edges := []; val_edges_false := [];
     test_edges := []; test_edges_false := [] |}.

Definition split_path51 : split :=
  match mask_test_edges Strict path51 rs_path51 1 with
  | Returns s => s
  | _ => empty_split
  end.

(** Two proteins and their one interaction. *)
Definition one_edge : spmatrix Z :=
  {| order := 2;
     coeff := fun i j => if (i + j =? 1) then 1%Z else 0%Z |}.

(** Two proteins without interaction. *)
Definition no_edge : spmatrix Z :=
  {| order := 2; coeff := fun _ _ => 0%Z |}.

Definition rs_small : RandomState :=
  {| shuffled := [0]; stream := tape []; cursor := 0 |}.

Definition rs_none : RandomState :=
  {| shuffled := []; stream := tape []; cursor := 0 |}.

(** ** [preprocess_graph] *)

Definition sum_upto (n : nat) (f : nat -> R) : R :=
  fold_right Rplus 0%R (map f (seq 0 n)).

(** [sp.eye(n)] *)
Definition eye (n : nat) : spmatrix R :=
  {| order := n;
     coeff := fun i j => if i =? j then 1%R else 0%R |}.

(** [sp.diags(v)] *)
Definition diags (n : nat) (v : nat -> R) : spmatrix R :=
  {| order := n;
     coeff := fun i j => if i =? j then v i else 0%R |}.

(** [a.dot(b)] *)
Definition dot_sp (a b : spmatrix R) : spmatrix R :=
  {| order := order a;
     coeff := fun i j =>
       sum_upto (order a) (fun k => (coeff a i k * coeff b k j)%R) |}.

(** [np.array(m.sum(1))] *)
Definition row_sums (m : spmatrix R) : nat -> R :=
  fun i => sum_upto (order m) (coeff m i).

(** [np.power(x, -0.5)] at a positive [x]. *)
Definition power_minus_half (x : R) : R := Rpower x (- (1 / 2)).

(** The matrix that [preprocess_graph] hands to [sparse_to_tuple], which
    only changes its representation. *)
Definition preprocess_graph (adj : spmatrix R) : spmatrix R :=
  let adj_ := zip_sp Rplus adj (eye (fst (shape adj))) in
  let rowsum := row_sums adj_ in
  let degree_mat_inv_sqrt :=
    diags (fst (shape adj)) (fun i => power_minus_half (rowsum i)) in
  dot_sp (transpose_sp (dot_sp adj_ degree_mat_inv_sqrt)) degree_mat_inv_sqrt.

(** The properties of an adjacency matrix speak of the entries inside its
    shape. *)
Definition symmetric (adj : spmatrix R) : Prop :=
  forall i j, i < order adj -> j < order adj ->
              coeff adj i j = coeff adj j i.

Definition unweighted (adj : spmatrix R) : Prop :=
  forall i j, i < order adj -> j < order adj ->
              coeff adj i j = 0%R \/ coeff adj i j = 1%R.

Definition zero_diagonal (adj : spmatrix R) : Prop :=
  forall i, i < order adj -> coeff adj i i = 0%R.

Definition nonnegative (adj : spmatrix R) : Prop :=
  forall i j, i < order adj -> j < order adj -> (0 <= coeff adj i j)%R.

(** Node [i] has no neighbour. *)
Definition isolated (adj : spmatrix R) (i : nat) : Prop :=
  forall j, j < order adj -> coeff adj i j = 0%R.

(** The float matrix that holds the integers of [m]. *)
Definition as_float (m : spmatrix Z) : spmatrix R :=
  {| order := order m; coeff := fun i j => IZR (coeff m i j) |}.

(** ** Dense tensors *)

(** A dense matrix of floats: a TensorFlow tensor of rank 2 or a NumPy
    array. *)
Record tensor : Type := {
  nrows : nat;
  ncols : nat;
  entry : nat -> nat -> R
}.

(** [tf.transpose(m)], [m.T] *)
Definition transpose (m : tensor) : tensor :=
  {| nrows := ncols m; ncols := nrows m; entry := fun i j => entry m j i |}.

(** [tf.matmul(a, b)], [np.dot(a, b)] *)
Definition matmul (a b : tensor) : tensor :=
  {| nrows := nrows a;
     ncols := ncols b;
     entry := fun i j =>
       sum_upto (ncols a) (fun k => (entry a i k * entry b k j)%R) |}.

(** [tf.reshape(x, [-1])]: the rows one after the other. *)
Definition flatten (m : tensor) : list R :=
  flat_map (fun i => map (fun j => entry m i j) (seq 0 (ncols m)))
           (seq 0 (nrows m)).

(** [tf.nn.dropout(x, keep_prob)]: nothing happens at [keep_prob = 1];
    otherwise the entry at [(i, j)] survives, scaled by [1 / keep_prob], when
    its uniform draw [noise i j] is at least [1 - keep_prob]. *)
Definition dropout (x : tensor) (keep_prob : R) (noise : nat -> nat -> R)
  : tensor :=
  if Req_dec_T keep_prob 1 then x
  else
    {| nrows := nrows x;
       ncols := ncols x;
       entry := fun i j =>
         if Rle_dec (1 - keep_prob) (noise i j)
         then (entry x i j * (1 / keep_prob))%R else 0%R |}.

(** [tf.nn.sigmoid] and the [sigmoid] of [get_roc_score], over the real
    numbers: strictly between 0 and 1, where the float32 result reaches
    both ends. *)
Definition sigmoid (x : R) : R := (1 / (1 + exp (- x)))%R.

(** ** Floating-point numbers *)

(** A binary floating-point format of IEEE 754: the number of significant
    bits and the exponent of the smallest positive (subnormal) number. *)
Record float_format : Type := {
  prec : Z;
  emin : Z
}.

(** [np.float32] and [tf.float32] *)
Definition binary32 : float_format := {| prec := 24; emin := -149 |}.

(** Python's [float] and [np.float64] *)
Definition binary64 : float_format := {| prec := 53; emin := -1074 |}.

Definition bpow (e : Z) : R := powerRZ 2 e.

(** The exponent [e] with [2^e <= |x| < 2^(e+1)], for [x] other than zero. *)
Definition mag (x : R) : Z := Int_part (ln (Rabs x) / ln 2)%R.

(** The exponent of the last bit of the floats around [x]. *)
Definition cexp (fmt : float_format) (x : R) : Z :=
  Z.max (mag x - prec fmt + 1) (emin fmt).

(** The integer nearest to [y], the even one of the two when [y] lies
    halfway. *)
Definition nearest_even (y : R) : Z :=
  let n := Int_part y in
  let f := (y - IZR n)%R in
  if Rlt_dec f (1 / 2) then n
  else if Rlt_dec (1 / 2)%R f then (n + 1)%Z
  else if Z.even n then n else (n + 1)%Z.

(** The float of the format [fmt] nearest to the real number [x], ties to
    even: the result of an arithmetic operation or of a conversion whose
    exact value is [x].  Overflow to infinity is not represented; the
    numbers rounded below are at most [2 * sqrt 6] in magnitude. *)
Definition round (fmt : float_format) (x : R) : R :=
  (IZR (nearest_even (x * bpow (- cexp fmt x))) * bpow (cexp fmt x))%R.

(** The real numbers that are floats of the format [fmt]. *)
Definition representable (fmt : float_format) (x : R) : Prop :=
  exists m e : Z,
    x = (IZR m * bpow e)%R /\ (Z.abs m < 2 ^ prec fmt)%Z /\ (emin fmt <= e)%Z.

(** ** [weight_variable_glorot] *)

(** [tf.random_uniform([rows, cols], minval, maxval, dtype=tf.float32)]:
    [minval] and [maxval] are converted to float32 and the entry at [(i, j)]
    is [rnd * (maxval - minval) + minval], computed in float32, for the draw
    [rnd = noise i j] of the generator on [[0, 1)]. *)
Definition random_uniform (rows cols : nat) (minval maxval : R)
           (noise : nat -> nat -> R) : tensor :=
  let minval := round binary32 minval in
  let maxval := round binary32 maxval in
  {| nrows := rows;
     ncols := cols;
     entry := fun i j =>
       round binary32
             (round binary32 (noise i j * round binary32 (maxval - minval))
              + minval)%R |}.

(** The integers from which Python's conversion to [float] raises
    [OverflowError]: they round to [2^1024]. *)
Definition max_float_int : Z := (2 ^ 1024 - 2 ^ 970)%Z.

(** [np.sqrt(6.0 / (input_dim + output_dim))], in double precision: the
    sum is converted to [float], the quotient and the square root are
    rounded. *)
Definition init_range (input_dim output_dim : nat) : R :=
  round binary64
        (sqrt (round binary64
                     (6 / round binary64 (INR (input_dim + output_dim))))).

Definition weight_variable_glorot (input_dim output_dim : nat)
           (noise : nat -> nat -> R) : outcome tensor :=
  if input_dim + output_dim =? 0 then Raises "ZeroDivisionError"
  else if (max_float_int <=? Z.of_nat (input_dim + output_dim))%Z
       then Raises "OverflowError"
  else
    let init_range := init_range input_dim output_dim in
    Returns (random_uniform input_dim output_dim (- init_range) init_range
                            noise).

Definition unit_interval (noise : nat -> nat -> R) : Prop :=
  forall i j, (0 <= noise i j < 1)%R.

(** ** The decoder layer and the model *)

Record InnerProductDecoder : Type := {
  decoder_dropout : R;
  decoder_act : R -> R
}.

(** [InnerProductDecoder(input_dim, name, dropout=0., act=tf.nn.sigmoid)] *)
Definition new_InnerProductDecoder (dropout : option R)
           (act : option (R -> R)) : InnerProductDecoder :=
  {| decoder_dropout := match dropout with Some d => d | None => 0%R end;
     decoder_act := match act with Some f => f | None => sigmoid end |}.

(** [InnerProductDecoder.__call__] *)
Definition decoder_call (self : InnerProductDecoder) (inputs : tensor)
           (noise : nat -> nat -> R) : list R :=
  let inputs := dropout inputs (1 - decoder_dropout self) noise in
  let x := transpose inputs in
  let x := matmul inputs x in
  let x := flatten x in
  map (decoder_act self) x.

(** [self.reconstructions] of [GCNModel.build]. *)
Definition reconstructions (embeddings : tensor) (noise : nat -> nat -> R)
  : list R :=
  decoder_call (new_InnerProductDecoder None (Some (fun x => x)))
               embeddings noise.

(** The weights that the two layers of [GCNModel.build] create:
    [gcn_sparse_layer] from [input_dim] to [FLAGS.hidden1] and
    [gcn_dense_layer] from [FLAGS.hidden1] to [FLAGS.hidden2]. *)
Definition layer_weights (input_dim hidden1 hidden2 : nat)
           (noise1 noise2 : nat -> nat -> R) : outcome (tensor * tensor) :=
  w1 <- weight_variable_glorot input_dim hidden1 noise1 ;;
  w2 <- weight_variable_glorot hidden1 hidden2 noise2 ;;
  Returns (w1, w2).

(** The inner product of rows [i] and [j] of [m]. *)
Definition gram (m : tensor) (i j : nat) : R :=
  sum_upto (ncols m) (fun k => (entry m i k * entry m j k)%R).

(** ** The optimizer's cost *)

(** [tf.nn.weighted_cross_entropy_with_logits], entry by entry:
    [targets * -log(sigmoid(logits)) * pos_weight
     + (1 - targets) * -log(1 - sigmoid(logits))]. *)
Definition weighted_cross_entropy_with_logits (logits targets : list R)
           (pos_weight : R) : list R :=
  map (fun xz =>
         (snd xz * - ln (sigmoid (fst xz)) * pos_weight
          + (1 - snd xz) * - ln (1 - sigmoid (fst xz)))%R)
      (combine logits targets).

(** [tf.reduce_mean] *)
Definition reduce_mean (l : list R) : R :=
  (fold_right Rplus 0 l / INR (length l))%R.

Definition squared (num_nodes : nat) : Z := (Z.of_nat num_nodes ^ 2)%Z.

(** [float(num_nodes**2 - num_edges) / num_edges] *)
Definition pos_weight (num_nodes : nat) (num_edges : Z) : R :=
  (IZR (squared num_nodes - num_edges) / IZR num_edges)%R.

(** [num_nodes**2 / float((num_nodes**2 - num_edges) * 2)] *)
Definition norm (num_nodes : nat) (num_edges : Z) : R :=
  (IZR (squared num_nodes) / IZR ((squared num_nodes - num_edges) * 2))%R.

(** [self.cost] of [Optimizer.__init__] *)
Definition Optimizer_cost (preds labels : list R) (num_nodes : nat)
           (num_edges : Z) : R :=
  let pos_weight := pos_weight num_nodes num_edges in
  let norm := norm num_nodes num_edges in
  let preds_sub := preds in
  let labels_sub := labels in
  (norm * reduce_mean
            (weighted_cross_entropy_with_logits preds_sub labels_sub
                                                pos_weight))%R.

(** ** The cells that load the graph and create the optimizer *)

(** [sp.eye(n)] with its entries as integers. *)
Definition eyeZ (n : nat) : spmatrix Z :=
  {| order := n;
     coeff := fun i j => if i =? j then 1%Z else 0%Z |}.

(** [tf.reshape(tf.sparse_tensor_to_dense(m), [-1])] *)
Definition to_dense_flat (m : spmatrix Z) : list R :=
  flat_map (fun i => map (fun j => IZR (coeff m i j)) (seq 0 (order m)))
           (seq 0 (order m)).

Definition num_nodes (adj : spmatrix Z) : nat := fst (shape adj).

(** [num_edges = adj.sum()], taken before the split. *)
Definition num_edges (adj : spmatrix Z) : Z := matrix_sum adj.

(** [adj_label = adj_train + sp.eye(adj_train.shape[0])] *)
Definition adj_label (s : split) : spmatrix Z :=
  add_sp (adj_train s) (eyeZ (fst (shape (adj_train s)))).

(** The number of entries set in the training label matrix. *)
Definition label_entries (s : split) : Z :=
  Z.of_nat (length (coords (adj_label s))).

(** [opt.cost] as the notebook builds it: [adj] is the matrix that
    [load_data] returned, [s] the result of [mask_test_edges(adj)], [preds]
    the value of [model.reconstructions]. *)
Definition opt_cost (adj : spmatrix Z) (s : split) (preds : list R) : R :=
  Optimizer_cost preds (to_dense_flat (adj_label s)) (num_nodes adj)
                 (num_edges adj).

(** ** [get_roc_score] *)

(** [m[i, j]] on a dense array. *)
Definition item (m : tensor) (i j : nat) : outcome R :=
  if (i <? nrows m) && (j <? ncols m)
  then Returns (entry m i j) else Raises "IndexError".

(** [m[i, j]] on a sparse matrix. *)
Definition item_sp (m : spmatrix Z) (i j : nat) : outcome Z :=
  if (i <? order m) && (j <? order m)
  then Returns (coeff m i j) else Raises "IndexError".

(** [for e in edges: preds.append(sigmoid(adj_rec[e[0], e[1]]));
                     pos.append(adj_orig[e[0], e[1]])] *)
Fixpoint score_edges (adj_rec : tensor) (adj_orig : spmatrix Z)
         (edges : list edge) : outcome (list R * list Z) :=
  match edges with
  | [] => Returns ([], [])
  | e :: edges' =>
      x <- item adj_rec (fst e) (snd e) ;;
      a <- item_sp adj_orig (fst e) (snd e) ;;
      ' (preds, pos) <- score_edges adj_rec adj_orig edges' ;;
      Returns (sigmoid x :: preds, a :: pos)
  end.

Section Evaluator.

(** What [roc_auc_score] and [average_precision_score] compute once the
    two vectors have passed scikit-learn's length check. *)
Variable roc_auc_score average_precision_score
  : list R -> list R -> outcome R.

(** A metric of scikit-learn starts with [check_consistent_length]. *)
Definition checked (metric : list R -> list R -> outcome R)
           (y_true y_score : list R) : outcome R :=
  if length y_true =? length y_score then metric y_true y_score
  else Raises "ValueError".

(** The score vector and the label vector that [get_roc_score] builds,
    up to the point where it calls the metrics. *)
Definition preds_and_labels (emb : tensor) (adj_orig : spmatrix Z)
           (edges_pos edges_neg : list edge)
  : outcome (list R * list R) :=
  let adj_rec := matmul emb (transpose emb) in
  ' (preds, pos) <- score_edges adj_rec adj_orig edges_pos ;;
  ' (preds_neg, neg) <- score_edges adj_rec adj_orig edges_neg ;;
  let preds_all := preds ++ preds_neg in
  let labels_all :=
    repeat 1%R (length preds) ++ repeat 0%R (length preds) in
  Returns (preds_all, labels_all).

Definition get_roc_score (emb : tensor) (adj_orig : spmatrix Z)
           (edges_pos edges_neg : list edge)
  : outcome (R * R * list R * list R) :=
  ' (preds_all, labels_all) <-
    preds_and_labels emb adj_orig edges_pos edges_neg ;;
  roc_score <- checked roc_auc_score labels_all preds_all ;;
  ap_score <- checked average_precision_score labels_all preds_all ;;
  Returns (roc_score, ap_score, labels_all, preds_all).

End Evaluator.

(** ** The training loop *)

Section Training.

(** The TensorFlow session with the model's variables. *)
Variable session : Type.

(** [sess.run([opt.opt_op, opt.cost], feed_dict)]: one Adam step; the
    second component is [avg_cost].  A finite loss is a rational. *)
Variable sess_run : session -> session * Q.

(** [get_roc_score(val_edges, val_edges_false)] of the epoch: it may
    raise, and what it returns is only printed. *)
Variable validate : session -> outcome unit.

Variable epochs : Z.

Record loop_state : Type := {
  sess : session;
  epoch : Z;
  temp_train_loss : Q;
  printed : list (Z * Q)
}.

Definition initial (sess0 : session) : loop_state :=
  {| sess := sess0; epoch := 0; temp_train_loss := 1; printed := [] |}.

(** [(epoch < FLAGS.epochs) and (temp_train_loss > 0.001)] *)
Definition loop_test (st : loop_state) : bool :=
  (epoch st <? epochs)%Z && negb (Qle_bool (temp_train_loss st) (1 # 1000)).

Definition loop_body (st : loop_state) : outcome loop_state :=
  let (sess', avg_cost) := sess_run (sess st) in
  _ <- validate sess' ;;
  Returns {| sess := sess';
             epoch := epoch st + 1;
             temp_train_loss := avg_cost;
             printed := printed st ++ [((epoch st + 1)%Z, avg_cost)] |}.

Fixpoint train (fuel : nat) (st : loop_state) : outcome loop_state :=
  if loop_test st then
    match fuel with
    | 0 => OutOfFuel
    | S fuel' => st' <- loop_body st ;; train fuel' st'
    end
  else Returns st.

(** The state after [k] completed epochs, when none of them raised. *)
Fixpoint after (k : nat) (st : loop_state) : outcome loop_state :=
  match k with
  | 0 => Returns st
  | S k' => st' <- after k' st ;; loop_body st'
  end.

End Training.

Arguments sess {session} _.
Arguments epoch {session} _.
Arguments temp_train_loss {session} _.
Arguments printed {session} _.
Arguments initial {session} _.
Arguments loop_test {session} _ _.
Arguments loop_body {session} _ _ _.
Arguments train {session} _ _ _ _ _.
Arguments after {session} _ _ _ _.


(** [adj_ = adj + sp.eye(adj.shape[0])] of [preprocess_graph]. *)
Definition self_looped (adj : spmatrix R) : spmatrix R :=
  zip_sp Rplus adj (eye (fst (shape adj))).

Definition symmetricZ (adj : spmatrix Z) : Prop :=
  forall i j, i < order adj -> j < order adj ->
              coeff adj i j = coeff adj j i.

(** Proteins 0 and 1 interact, protein 2 is on its own. *)
Definition pair_and_single : spmatrix R :=
  {| order := 3;
     coeff := fun i j => if i + j =? 1 then 1%R else 0%R |}.


(** Every entry of [w] lies in [[-r, r]]. *)
Definition within (w : tensor) (r : R) : Prop :=
  forall i j, i < nrows w -> j < ncols w -> (- r <= entry w i j <= r)%R.

(** [sqrt(6 / (fan_in + fan_out))] *)
Definition glorot_bound (fan_in fan_out : nat) : R :=
  sqrt (6 / INR (fan_in + fan_out)).

(** Every uniform draw is one half. *)
Definition half_noise : nat -> nat -> R := fun _ _ => (1 / 2)%R.

(** The bound of [weight_variable_glorot] as the code holds it: computed in
    double precision and converted to float32. *)
Definition glorot_bound32 (fan_in fan_out : nat) : R :=
  round binary32 (init_range fan_in fan_out).

(** Draws that alternate between zero and three quarters. *)
Definition checkered_noise : nat -> nat -> R :=
  fun i j => if Nat.even (i + j) then 0%R else (3 / 4)%R.

(** Every uniform draw is zero. *)
Definition zero_noise : nat -> nat -> R := fun _ _ => 0%R.



(** A session that counts its Adam steps: the first reports the loss
    [1/2], the following ones [1/2000]. *)
Definition counting_run (steps : nat) : nat * Q :=
  (S steps, if steps =? 0 then 1 # 2 else 1 # 2000).

Definition quiet (steps : nat) : outcome unit := Returns tt.

Definition counting_final : loop_state nat :=
  {| sess := 2; epoch := 2; temp_train_loss := 1 # 2000;
     printed := [(1%Z, 1 # 2); (2%Z, 1 # 2000)] |}.

(** Metrics that are not looked at. *)
Definition no_metric (y_true y_score : list R) : outcome R := Returns 0%R.

Definition adj3 : spmatrix Z :=
  {| order := 3;
     coeff := fun i j => if (i + j =? 1) then 1%Z else 0%Z |}.

(** Three nodes embedded in three dimensions. *)
Definition emb33 : tensor :=
  {| nrows := 3; ncols := 3;
     entry := fun i j => if i =? j then 1%R else 0%R |}.


(** An undirected graph without weights and without self-loops. *)
Definition simple_graph (adj : spmatrix Z) : Prop :=
  symmetricZ adj
  /\ (forall i j, i < order adj -> j < order adj ->
                  coeff adj i j = 0%Z \/ coeff adj i j = 1%Z)
  /\ (forall i, i < order adj -> coeff adj i i = 0%Z).

(** The degree of node [i] after the self-loops is at least 1, and
    [np.power] takes the reciprocal of a square root that is not zero. *)
Definition degree_defined (adj : spmatrix R) (i : nat) : Prop :=
  let rowsum := row_sums (self_looped adj) in
  (1 <= rowsum i)%R
  /\ (0 < rowsum i)%R
  /\ sqrt (rowsum i) <> 0%R
  /\ power_minus_half (rowsum i) = (/ sqrt (rowsum i))%R.


(** A pair of two different nodes of a graph with [n] nodes. *)
Definition node_pair (n : nat) (e : edge) : Prop :=
  fst e <> snd e /\ fst e < n /\ snd e < n.

(** No pair occurs twice in the list, in either orientation. *)
Definition distinct_pairs (l : list edge) : Prop :=
  NoDup l /\ forall i j, In (i, j) l -> ~ In (j, i) l.


(** ** Sparse tensors, sparse dropout and the convolution layers *)

(** A [tf.SparseTensor] of floats: what a [tf.sparse_placeholder] holds
    once a triple [(coords, values, shape)] is fed to it. *)
Record SparseTensor : Type := {
  indices : list edge;
  values : list R;
  dense_shape : nat * nat
}.

(** Feeding the triple that [sparse_to_tuple] returned. *)
Definition feed (t : list edge * list Z * (nat * nat)) : SparseTensor :=
  {| indices := fst (fst t);
     values := map IZR (snd (fst t));
     dense_shape := snd t |}.

(** [features = sparse_to_tuple(sp.identity(num_nodes))] *)
Definition features (num_nodes : nat) : list edge * list Z * (nat * nat) :=
  sparse_to_tuple (eyeZ num_nodes).

(** [num_features = features[2][1]] *)
Definition num_features (num_nodes : nat) : nat :=
  snd (snd (features num_nodes)).

(** [features_nonzero = features[1].shape[0]] *)
Definition features_nonzero (num_nodes : nat) : nat :=
  length (snd (fst (features num_nodes))).


(** The elements of [l] at the positions where [mask] is true. *)
Definition retained {A : Type} (mask : list bool) (l : list A) : list A :=
  map snd (filter (fun bv => fst bv) (combine mask l)).

(** [tf.where(mask)] of a vector, reshaped to a vector: the positions at
    which the mask is true. *)
Definition where_true (mask : list bool) : list nat :=
  map fst (filter snd (combine (seq 0 (length mask)) mask)).

(** [tf.gather(params, ids)] on the CPU: the rows of [params] at the
    positions [ids]; a position past the last row is refused. *)
Fixpoint gather {A : Type} (params : list A) (ids : list nat)
  : outcome (list A) :=
  match ids with
  | [] => Returns []
  | k :: ids' =>
      match nth_error params k with
      | Some a => rest <- gather params ids' ;; Returns (a :: rest)
      | None => Raises "InvalidArgumentError"
      end
  end.

(** [tf.sparse_retain(sp_input, to_retain)].  The values of a fed sparse
    placeholder have no length known in advance, so the length of the mask
    is compared with nothing: the entries at the true positions are
    gathered. *)
Definition sparse_retain (sp_input : SparseTensor) (to_retain : list bool)
  : outcome SparseTensor :=
  let where_true := where_true to_retain in
  new_indices <- gather (indices sp_input) where_true ;;
  new_values <- gather (values sp_input) where_true ;;
  Returns {| indices := new_indices;
             values := new_values;
             dense_shape := dense_shape sp_input |}.

(** [sp * c] *)
Definition scale_sp (sp : SparseTensor) (c : R) : SparseTensor :=
  {| indices := indices sp;
     values := map (fun v => (v * c)%R) (values sp);
     dense_shape := dense_shape sp |}.

(** [dropout_sparse]: [noise k] is the [k]-th draw of
    [tf.random_uniform(noise_shape)]; [tf.floor] is the integer part and
    the cast to [tf.bool] tests it against zero. *)
Definition dropout_sparse (x : SparseTensor) (keep_prob : R)
           (num_nonzero_elems : nat) (noise : nat -> R)
  : outcome SparseTensor :=
  let noise_shape := num_nonzero_elems in
  let random_tensor :=
    map (fun k => (keep_prob + noise k)%R) (seq 0 noise_shape) in
  let dropout_mask :=
    map (fun r => negb (Int_part r =? 0)%Z) random_tensor in
  pre_out <- sparse_retain x dropout_mask ;;
  Returns (scale_sp pre_out (1 / keep_prob)).

(** The mask that keeps the entries whose draw is at least
    [1 - keep_prob]. *)
Definition threshold_mask (keep_prob : R) (n : nat) (noise : nat -> R)
  : list bool :=
  map (fun k => if Rle_dec (1 - keep_prob) (noise k) then true else false)
      (seq 0 n).

Definition unit_draws (noise : nat -> R) : Prop :=
  forall k, (0 <= noise k < 1)%R.

(** The product of a sparse and a dense matrix: every stored entry
    [(i, k, v)] adds [v * b[k][j]] to the entry [(i, j)] of the result. *)
Definition sparse_dense_product (sp_a : SparseTensor) (b : tensor) : tensor :=
  {| nrows := fst (dense_shape sp_a);
     ncols := ncols b;
     entry := fun i j =>
       fold_right Rplus 0%R
         (map (fun cv => if fst (fst cv) =? i
                         then (snd cv * entry b (snd (fst cv)) j)%R
                         else 0%R)
              (combine (indices sp_a) (values sp_a))) |}.

(** The index [e] lies inside the shape [shp]. *)
Definition inside (shp : nat * nat) (e : edge) : bool :=
  (fst e <? fst shp) && (snd e <? snd shp).

(** What the kernel of [tf.sparse_tensor_dense_matmul] checks when it runs:
    one value per index, as many columns of [sp_a] as rows of [b], and
    every index inside the shape of [sp_a]. *)
Definition multipliable (sp_a : SparseTensor) (b : tensor) : bool :=
  (length (indices sp_a) =? length (values sp_a))
  && (snd (dense_shape sp_a) =? nrows b)
  && forallb (inside (dense_shape sp_a)) (indices sp_a).

(** [tf.sparse_tensor_dense_matmul(sp_a, b)] on the CPU. *)
Definition sparse_tensor_dense_matmul (sp_a : SparseTensor) (b : tensor)
  : outcome tensor :=
  if multipliable sp_a b then Returns (sparse_dense_product sp_a b)
  else Raises "InvalidArgumentError".

(** [tf.matmul(a, b)] of two tensors of a graph.  The number of columns of
    [a] and the shape of [b] are known when the graph is built, and the
    product of matrices that do not fit is refused there. *)
Definition tf_matmul (a b : tensor) : outcome tensor :=
  if ncols a =? nrows b then Returns (matmul a b) else Raises "ValueError".

(** An activation applied to every entry. *)
Definition map_tensor (act : R -> R) (x : tensor) : tensor :=
  {| nrows := nrows x; ncols := ncols x;
     entry := fun i j => act (entry x i j) |}.

(** [tf.nn.relu] *)
Definition relu (x : R) : R := Rmax x 0.

(** A layer with its variable [weights], of shape
    [[input_dim, output_dim]], at its current value. *)
Record GraphConvolution : Type := {
  gc_input_dim : nat;
  gc_output_dim : nat;
  gc_weights : nat -> nat -> R;
  gc_dropout : R;
  gc_adj : SparseTensor;
  gc_act : R -> R
}.

(** [self.vars['weights']] *)
Definition variable (input_dim output_dim : nat) (value : nat -> nat -> R)
  : tensor :=
  {| nrows := input_dim; ncols := output_dim; entry := value |}.

(** [GraphConvolution.__call__] *)
Definition GraphConvolution_call (self : GraphConvolution) (inputs : tensor)
           (noise : nat -> nat -> R) : outcome tensor :=
  let weights :=
    variable (gc_input_dim self) (gc_output_dim self) (gc_weights self) in
  let x := inputs in
  let x := dropout x (1 - gc_dropout self) noise in
  x <- tf_matmul x weights ;;
  x <- sparse_tensor_dense_matmul (gc_adj self) x ;;
  Returns (map_tensor (gc_act self) x).

Record GraphConvolutionSparse : Type := {
  gcs_input_dim : nat;
  gcs_output_dim : nat;
  gcs_weights : nat -> nat -> R;
  gcs_dropout : R;
  gcs_adj : SparseTensor;
  gcs_act : R -> R;
  gcs_features_nonzero : nat
}.

(** [GraphConvolutionSparse.__call__] *)
Definition GraphConvolutionSparse_call (self : GraphConvolutionSparse)
           (inputs : SparseTensor) (noise : nat -> R) : outcome tensor :=
  let weights :=
    variable (gcs_input_dim self) (gcs_output_dim self) (gcs_weights self) in
  let x := inputs in
  x <- dropout_sparse x (1 - gcs_dropout self) (gcs_features_nonzero self)
                      noise ;;
  x <- sparse_tensor_dense_matmul x weights ;;
  x <- sparse_tensor_dense_matmul (gcs_adj self) x ;;
  Returns (map_tensor (gcs_act self) x).

Record GCNModel : Type := {
  model_hidden1 : tensor;
  model_embeddings : tensor;
  model_reconstructions : list R
}.

(** What [GCNModel.build] computes from the fed placeholders [inputs],
    [adj] and [dropout], for the sizes [hidden1] and [hidden2] of
    [FLAGS] and the current values [w1] and [w2] of the weights of the two
    layers. *)
Definition GCNModel_build (inputs adj : SparseTensor) (dropout : R)
           (num_features features_nonzero hidden1 hidden2 : nat)
           (w1 w2 : nat -> nat -> R)
           (noise1 : nat -> R) (noise2 noise3 : nat -> nat -> R)
  : outcome GCNModel :=
  hidden1_out <-
    GraphConvolutionSparse_call
      {| gcs_input_dim := num_features; gcs_output_dim := hidden1;
         gcs_weights := w1; gcs_dropout := dropout; gcs_adj := adj;
         gcs_act := relu; gcs_features_nonzero := features_nonzero |}
      inputs noise1 ;;
  embeddings <-
    GraphConvolution_call
      {| gc_input_dim := hidden1; gc_output_dim := hidden2;
         gc_weights := w2; gc_dropout := dropout; gc_adj := adj;
         gc_act := fun x => x |}
      hidden1_out noise2 ;;
  Returns {| model_hidden1 := hidden1_out;
             model_embeddings := embeddings;
             model_reconstructions := reconstructions embeddings noise3 |}.

(** A sparse tensor as a fed placeholder holds it: one value per index,
    every index inside the shape. *)
Definition well_formed (sp : SparseTensor) : Prop :=
  length (indices sp) = length (values sp)
  /\ Forall (fun e => inside (dense_shape sp) e = true) (indices sp).

(** ** Matrices in COO format *)

(** What a scipy matrix in COO format stores: the arrays [row], [col] and
    [data], one element of each per stored entry, and the shape.  A stored
    value may be zero and the entries are in no particular order. *)
Record coo_matrix : Type := {
  coo_row : list nat;
  coo_col : list nat;
  coo_data : list Z;
  coo_shape : nat * nat
}.

(** [sparse_to_tuple] on a matrix that is in COO format already: the
    arrays as they are stored. *)
Definition sparse_to_tuple_coo (sparse_mx : coo_matrix)
  : list edge * list Z * (nat * nat) :=
  let coords := combine (coo_row sparse_mx) (coo_col sparse_mx) in
  let values := coo_data sparse_mx in
  let shape := coo_shape sparse_mx in
  (coords, values, shape).

(** [m.tocoo()] of a matrix without stored zeros, row by row. *)
Definition tocoo (m : spmatrix Z) : coo_matrix :=
  {| coo_row := map fst (coords m);
     coo_col := map snd (coords m);
     coo_data := map (fun e => coeff m (fst e) (snd e)) (coords m);
     coo_shape := shape m |}.



(** The second draw is below one half, the others above. *)
Definition second_low : nat -> R :=
  fun k => if k =? 1 then (1 / 4)%R else (3 / 4)%R.

(** ** What the evaluator reads *)

(** The pair [e] indexes an entry of [adj_rec] and of [adj_orig]. *)
Definition in_bounds (emb : tensor) (adj_orig : spmatrix Z) (e : edge)
  : bool :=
  ((fst e <? nrows emb) && (snd e <? nrows emb))
  && ((fst e <? order adj_orig) && (snd e <? order adj_orig)).

(** The score of the pair [e]: the sigmoid of the inner product of the
    embeddings of its two nodes. *)
Definition score (emb : tensor) (e : edge) : R :=
  sigmoid (gram emb (fst e) (snd e)).

Definition swap (e : edge) : edge := (snd e, fst e).


(** A validation that raises once the session has made two steps. *)
Definition failing_validate (steps : nat) : outcome unit :=
  if steps =? 2 then Raises "ValueError" else Returns tt.

Definition counting_once : loop_state nat :=
  {| sess := 1; epoch := 1; temp_train_loss := 1 # 2;
     printed := [(1%Z, 1 # 2)] |}.

(** * Properties *)

(** ** Outcomes *)

Lemma bind_returns {A B : Type} (c : outcome A) (k : A -> outcome B) (b : B) :
  bind c k = Returns b -> exists a, c = Returns a /\ k a = Returns b.
Proof.
  destruct c as [a | e |]; simpl; intros H; try discriminate.
  exists a; split; [reflexivity | exact H].
Qed.

Ltac invert_bind H :=
  let a := fresh "a" in
  let Ha := fresh "Ha" in
  apply bind_returns in H; destruct H as [a [Ha H]].

(** ** Indexing and deleting rows *)

Lemma take_rows_length {A : Type} (arr : list A) (idx : list nat) :
  forall rows, take_rows arr idx = Returns rows -> length rows = length idx.
Proof.
  induction idx as [| k idx IH]; simpl; intros rows H.
  - injection H as <-. reflexivity.
  - destruct (nth_error arr k) as [row |]; [| discriminate].
    invert_bind H. injection H as <-. simpl. f_equal. apply IH. exact Ha.
Qed.

Lemma take_rows_in_range {A : Type} (arr : list A) (idx : list nat) :
  forall rows, take_rows arr idx = Returns rows ->
               Forall (fun k => k < length arr) idx.
Proof.
  induction idx as [| k idx IH]; simpl; intros rows H.
  - constructor.
  - destruct (nth_error arr k) as [row |] eqn:Hk; [| discriminate].
    invert_bind H. constructor.
    + apply nth_error_Some. rewrite Hk. discriminate.
    + eapply IH. exact Ha.
Qed.

Lemma take_rows_In {A : Type} (arr : list A) (idx : list nat) :
  forall rows, take_rows arr idx = Returns rows ->
               forall r, In r rows -> In r arr.
Proof.
  induction idx as [| k idx IH]; simpl; intros rows H r Hr.
  - injection H as <-. destruct Hr.
  - destruct (nth_error arr k) as [row |] eqn:Hk; [| discriminate].
    invert_bind H. injection H as <-. destruct Hr as [<- | Hr].
    + eapply nth_error_In. exact Hk.
    + eapply IH; eassumption.
Qed.

Lemma filter_combine_length {A : Type} (f : nat -> bool) :
  forall (ks : list nat) (arr : list A),
    length ks = length arr ->
    length (filter (fun kr => f (fst kr)) (combine ks arr))
    = length (filter f ks).
Proof.
  induction ks as [| k ks IH]; intros [| a arr] Hlen; simpl in *;
    try discriminate; try reflexivity.
  destruct (f k); simpl; rewrite IH by lia; reflexivity.
Qed.

Lemma delete_rows_length {A : Type} (arr : list A) (obj : list nat) :
  length (delete_rows arr obj)
  = length (filter (fun k => negb (existsb (Nat.eqb k) obj))
                   (seq 0 (length arr))).
Proof.
  unfold delete_rows. rewrite length_map.
  apply (filter_combine_length
           (fun k => negb (existsb (Nat.eqb k) obj))).
  apply length_seq.
Qed.

Lemma delete_rows_In {A : Type} (arr : list A) (obj : list nat) (r : A) :
  In r (delete_rows arr obj) -> In r arr.
Proof.
  unfold delete_rows. intros H. apply in_map_iff in H.
  destruct H as [[k r'] [Heq H]]. simpl in Heq. subst r'.
  apply filter_In in H. destruct H as [H _].
  eapply in_combine_r. exact H.
Qed.

Lemma filter_remove_one (a : nat) :
  forall m, NoDup m -> In a m ->
            S (length (filter (fun k => negb (k =? a)) m)) = length m.
Proof.
  induction m as [| b m IH]; intros Hnd Hin; [destruct Hin |].
  inversion Hnd as [| ? ? Hb Hm]; subst. simpl.
  destruct (Nat.eqb_spec b a) as [-> | Hne]; simpl.
  - f_equal. clear IH Hnd Hin Hm. induction m as [| c m IH]; simpl; auto.
    destruct (Nat.eqb_spec c a) as [-> | Hc]; simpl.
    + exfalso. apply Hb. left. reflexivity.
    + f_equal. apply IH. intros H. apply Hb. right. exact H.
  - f_equal. apply IH; [exact Hm |].
    destruct Hin as [-> | Hin]; [contradiction | exact Hin].
Qed.

Lemma filter_filter {A : Type} (f g : A -> bool) (l : list A) :
  filter f (filter g l) = filter (fun x => g x && f x) l.
Proof.
  induction l as [| x l IH]; simpl; [reflexivity |].
  destruct (g x); simpl; [destruct (f x) |]; rewrite ?IH; reflexivity.
Qed.

Lemma filter_not_in_length (obj : list nat) :
  forall m, NoDup m -> NoDup obj -> incl obj m ->
            length (filter (fun k => negb (existsb (Nat.eqb k) obj)) m)
            + length obj = length m.
Proof.
  induction obj as [| a obj IH]; intros m Hm Hobj Hincl; simpl.
  - rewrite Nat.add_0_r. f_equal. apply forallb_filter_id.
    apply forallb_forall. reflexivity.
  - inversion Hobj as [| ? ? Ha Hobj']; subst.
    assert (Hsub : incl obj m) by (intros x Hx; apply Hincl; right; exact Hx).
    specialize (IH m Hm Hobj' Hsub).
    set (keep := filter (fun k => negb (existsb (Nat.eqb k) obj)) m) in *.
    assert (Heq : filter (fun k => negb ((k =? a) || existsb (Nat.eqb k) obj)) m
                  = filter (fun k => negb (k =? a)) keep).
    { unfold keep. rewrite filter_filter. apply filter_ext. intros k.
      rewrite negb_orb. apply andb_comm. }
    rewrite Heq.
    assert (Hin : In a keep).
    { unfold keep. apply filter_In. split; [apply Hincl; left; reflexivity |].
      apply negb_true_iff. apply not_true_is_false. intros H.
      apply existsb_exists in H. destruct H as [x [Hx Hax]].
      apply Nat.eqb_eq in Hax. subst x. contradiction. }
    assert (Hnd : NoDup keep) by (unfold keep; apply NoDup_filter; exact Hm).
    pose proof (filter_remove_one a keep Hnd Hin). lia.
Qed.

(** ** The rejection loops *)

Section SamplingFacts.

Variable rejects : list edge -> nat -> nat -> bool.

Lemma for_body_length (idxs_i idxs_j : list nat) (acc : list edge) (i : nat) :
  length acc <= length (for_body rejects idxs_i idxs_j acc i)
  <= S (length acc).
Proof.
  unfold for_body.
  destruct (rejects acc (nth i idxs_i 0) (nth i idxs_j 0)).
  - lia.
  - rewrite length_app. simpl. lia.
Qed.

Lemma for_loop_length (idxs_i idxs_j : list nat) :
  forall (range : list nat) (acc : list edge),
    length acc
    <= length (fold_left (for_body rejects idxs_i idxs_j) range acc)
    <= length acc + length range.
Proof.
  induction range as [| i range IH]; intros acc; simpl; [lia |].
  pose proof (for_body_length idxs_i idxs_j acc i).
  pose proof (IH (for_body rejects idxs_i idxs_j acc i)). lia.
Qed.

(** When the loop ends there are exactly as many negatives as positives. *)
Lemma sample_false_length (n : nat) (edges_pos : list edge) :
  forall (fuel : nat) (rs rs' : RandomState) (acc res : list edge),
    length acc <= length edges_pos ->
    sample_false rejects fuel n edges_pos rs acc = Returns (res, rs') ->
    length res = length edges_pos.
Proof.
  induction fuel as [| fuel IH]; intros rs rs' acc res Hle H; simpl in H;
    destruct (Nat.ltb_spec (length acc) (length edges_pos)) as [Hlt | Hge];
    try discriminate;
    try (injection H as <- <-; lia).
  invert_bind H. destruct a as [rnd rs1].
  eapply IH; [| exact H].
  pose proof (for_loop_length
                (firstn (length edges_pos - length acc) rnd)
                (skipn (length edges_pos - length acc) rnd)
                (seq 0 (length edges_pos - length acc)) acc) as Hl.
  rewrite length_seq in Hl. lia.
Qed.

(** With nothing to sample the loop returns at once and draws nothing. *)
Lemma sample_false_nothing (n fuel : nat) (rs : RandomState) :
  sample_false rejects fuel n [] rs [] = Returns ([], rs).
Proof. destruct fuel; reflexivity. Qed.

(** A property that every accepted pair has, and every pair present at the
    start, holds of every pair at the end. *)
Variable accepted : edge -> Prop.
Hypothesis rejects_sound :
  forall acc i j, rejects acc i j = false -> accepted (i, j).

Lemma for_loop_accepted (idxs_i idxs_j : list nat) :
  forall (range : list nat) (acc : list edge),
    Forall accepted acc ->
    Forall accepted (fold_left (for_body rejects idxs_i idxs_j) range acc).
Proof.
  induction range as [| i range IH]; intros acc Hacc; simpl; [exact Hacc |].
  apply IH. unfold for_body.
  destruct (rejects acc (nth i idxs_i 0) (nth i idxs_j 0)) eqn:Hr.
  - exact Hacc.
  - apply Forall_app. split; [exact Hacc |].
    constructor; [| constructor]. eapply rejects_sound. exact Hr.
Qed.

Lemma sample_false_accepted (n : nat) (edges_pos : list edge) :
  forall (fuel : nat) (rs rs' : RandomState) (acc res : list edge),
    Forall accepted acc ->
    sample_false rejects fuel n edges_pos rs acc = Returns (res, rs') ->
    Forall accepted res.
Proof.
  induction fuel as [| fuel IH]; intros rs rs' acc res Hacc H; simpl in H;
    destruct (length acc <? length edges_pos);
    try discriminate;
    try (injection H as <- <-; exact Hacc).
  invert_bind H. destruct a as [rnd rs1].
  eapply IH; [| exact H]. apply for_loop_accepted. exact Hacc.
Qed.

End SamplingFacts.

(** ** Sizes of the split *)

Lemma NoDup_firstn {A : Type} (k : nat) (l : list A) :
  NoDup l -> NoDup (firstn k l).
Proof.
  intros H. rewrite <- (firstn_skipn k l) in H.
  eapply NoDup_app_remove_r. exact H.
Qed.

Lemma slices_permutation {A : Type} (k : nat) (l : list A) :
  Permutation (slice k (k + k) l ++ slice 0 k l) (firstn (k + k) l).
Proof.
  unfold slice. simpl skipn.
  rewrite Permutation_app_comm.
  replace (firstn k l) with (firstn k (firstn (k + k) l)).
  - rewrite firstn_skipn. reflexivity.
  - rewrite firstn_firstn. f_equal. lia.
Qed.

Lemma slices_length {A : Type} (k : nat) (l : list A) :
  k + k <= length l ->
  length (slice 0 k l) = k /\ length (slice k (k + k) l) = k.
Proof.
  intros H. unfold slice. simpl skipn.
  rewrite length_skipn, !length_firstn. lia.
Qed.

Lemma np_delete_returns {A : Type} (np : numpy_release) (arr : list A)
      (obj : dtype * list nat) (rows : list A) :
  np_delete np arr obj = Returns rows -> rows = delete_rows arr (snd obj).
Proof.
  unfold np_delete. destruct np.
  - intros H. injection H as <-. reflexivity.
  - destruct (fst obj); [| discriminate].
    destruct (forallb _ _); [| discriminate].
    intros H. injection H as <-. reflexivity.
Qed.

(** What a returning call of [mask_test_edges] went through. *)
Lemma mask_test_edges_returns (np : numpy_release) (adj : spmatrix Z)
      (rs : RandomState) (fuel : nat) (s : split) :
  mask_test_edges np adj rs fuel = Returns s ->
  let edges := unique_edges adj in
  let num := length edges / 50 in
  let val_edge_idx := slice 0 num (shuffled rs) in
  let test_edge_idx := slice num (num + num) (shuffled rs) in
  exists rs1 rs2,
    take_rows edges test_edge_idx = Returns (test_edges s)
    /\ take_rows edges val_edge_idx = Returns (val_edges s)
    /\ train_edges s = delete_rows edges (test_edge_idx ++ val_edge_idx)
    /\ sample_false (test_rejects (all_entries adj)) fuel (fst (shape adj))
                    (test_edges s) rs []
       = Returns (test_edges_false s, rs1)
    /\ sample_false (val_rejects (train_edges s) (val_edges s)) fuel
                    (fst (shape adj)) (val_edges s) rs1 []
       = Returns (val_edges_false s, rs2)
    /\ adj_train s
       = add_sp (csr_matrix_ones (train_edges s) (shape adj))
                (transpose_sp (csr_matrix_ones (train_edges s) (shape adj))).
Proof.
  unfold mask_test_edges. intros H.
  invert_bind H. rename a into te. rename Ha into Hte.
  invert_bind H. rename a into ve. rename Ha into Hve.
  invert_bind H. rename a into tr. rename Ha into Htr.
  invert_bind H. destruct a as [tf rs1]. rename Ha into Htf.
  invert_bind H. destruct a as [vf rs2]. rename Ha into Hvf.
  injection H as <-. simpl.
  exists rs1, rs2. apply np_delete_returns in Htr. simpl in Htr.
  repeat split; assumption.
Qed.

(** C4.  On every graph with [E] unique undirected edges on which the split
    returns, [val_edges], [val_edges_false], [test_edges] and
    [test_edges_false] all have [floor(E/50)] rows and [train_edges] has the
    remaining [E - 2 * floor(E/50)].  [np.random.shuffle] leaves a
    permutation of [range(E)]. *)
Theorem split_sizes (np : numpy_release) (adj : spmatrix Z)
        (rs : RandomState) (fuel : nat) (s : split) :
  let E := length (unique_edges adj) in
  Permutation (shuffled rs) (seq 0 E) ->
  mask_test_edges np adj rs fuel = Returns s ->
  length (val_edges s) = E / 50
  /\ length (val_edges_false s) = E / 50
  /\ length (test_edges s) = E / 50
  /\ length (test_edges_false s) = E / 50
  /\ length (train_edges s) = E - 2 * (E / 50).
Proof.
  intros E Hperm H.
  apply mask_test_edges_returns in H.
  destruct H as [rs1 [rs2 [Hte [Hve [Htr [Htf [Hvf _]]]]]]].
  fold E in Hte, Hve, Htr.
  assert (Hlen : length (shuffled rs) = E).
  { rewrite (Permutation_length Hperm). apply length_seq. }
  assert (Hdiv : E / 50 + E / 50 <= E).
  { pose proof (Nat.div_mod_eq E 50). lia. }
  destruct (slices_length (E / 50) (shuffled rs)) as [Hlv Hlt]; [lia |].
  assert (Hval : length (val_edges s) = E / 50).
  { rewrite (take_rows_length _ _ _ Hve). exact Hlv. }
  assert (Htest : length (test_edges s) = E / 50).
  { rewrite (take_rows_length _ _ _ Hte). exact Hlt. }
  repeat split; try assumption.
  - rewrite <- Hval.
    eapply sample_false_length; [| exact Hvf]. simpl. lia.
  - rewrite <- Htest.
    eapply sample_false_length; [| exact Htf]. simpl. lia.
  - rewrite Htr, delete_rows_length. fold E.
    set (obj := slice (E / 50) (E / 50 + E / 50) (shuffled rs)
                ++ slice 0 (E / 50) (shuffled rs)).
    assert (Hnd : NoDup (shuffled rs)).
    { eapply Permutation_NoDup; [symmetry; exact Hperm | apply seq_NoDup]. }
    assert (Hobj : NoDup obj).
    { eapply Permutation_NoDup.
      - symmetry. apply slices_permutation.
      - apply NoDup_firstn. exact Hnd. }
    assert (Hincl : incl obj (seq 0 E)).
    { intros k Hk.
      eapply Permutation_in; [exact Hperm |].
      eapply Permutation_in in Hk; [| apply slices_permutation].
      rewrite <- (firstn_skipn (E / 50 + E / 50) (shuffled rs)).
      apply in_or_app. left. exact Hk. }
    pose proof (filter_not_in_length obj (seq 0 E) (seq_NoDup E 0) Hobj Hincl)
      as Hcount.
    rewrite length_seq in Hcount.
    assert (Hol : length obj = E / 50 + E / 50).
    { unfold obj. rewrite length_app. lia. }
    lia.
Qed.

Lemma split_sizes_witness :
  Permutation (shuffled rs_path51) (seq 0 (length (unique_edges path51)))
  /\ mask_test_edges Strict path51 rs_path51 1 = Returns split_path51
  /\ length (val_edges split_path51) = 1
  /\ length (val_edges_false split_path51) = 1
  /\ length (test_edges split_path51) = 1
  /\ length (test_edges_false split_path51) = 1
  /\ length (train_edges split_path51) = 48.
Proof.
  assert (Hperm : Permutation (shuffled rs_path51)
                              (seq 0 (length (unique_edges path51))))
    by (vm_compute; apply Permutation_refl).
  assert (Hret : mask_test_edges Strict path51 rs_path51 1
                 = Returns split_path51)
    by reflexivity.
  split; [exact Hperm | split; [exact Hret |]].
  exact (split_sizes Strict path51 rs_path51 1 split_path51 Hperm Hret).
Defined.

(** ** Negative pairs against the positive sets *)

Lemma edge_eqb_eq (a b : edge) : edge_eqb a b = true <-> a = b.
Proof.
  destruct a as [a1 a2], b as [b1 b2]. unfold edge_eqb. simpl.
  rewrite andb_true_iff, !Nat.eqb_eq. split.
  - intros [-> ->]. reflexivity.
  - intros H. injection H as -> ->. split; reflexivity.
Qed.

Lemma ismember_In (a : edge) (b : list edge) :
  ismember a b = true <-> In a b.
Proof.
  unfold ismember. rewrite existsb_exists. split.
  - intros [row [Hin Heq]]. apply edge_eqb_eq in Heq. subst. exact Hin.
  - intros Hin. exists a. split; [exact Hin | apply edge_eqb_eq; reflexivity].
Qed.

Lemma ismember_false (a : edge) (b : list edge) :
  ismember a b = false <-> ~ In a b.
Proof.
  rewrite <- ismember_In. destruct (ismember a b); split; intros H;
    try reflexivity; try discriminate; try (intros H'; discriminate).
  exfalso. apply H. reflexivity.
Qed.

Lemma coords_In (m : spmatrix Z) (i j : nat) :
  In (i, j) (coords m)
  <-> i < order m /\ j < order m /\ coeff m i j <> 0%Z.
Proof.
  unfold coords. rewrite in_flat_map. split.
  - intros [i' [Hi H]]. apply in_flat_map in H. destruct H as [j' [Hj H]].
    apply in_seq in Hi. apply in_seq in Hj.
    destruct (Z.eqb_spec (coeff m i' j') 0) as [Hz | Hnz]; [destruct H |].
    destruct H as [H | []]. injection H as <- <-.
    split; [lia | split; [lia | exact Hnz]].
  - intros [Hi [Hj Hnz]]. exists i. split; [apply in_seq; lia |].
    apply in_flat_map. exists j. split; [apply in_seq; lia |].
    destruct (Z.eqb_spec (coeff m i j) 0) as [Hz | _]; [contradiction |].
    left. reflexivity.
Qed.

(** Every unique edge [(i, j)] has [i < j] and is an entry of the matrix. *)
Lemma unique_edges_In (adj : spmatrix Z) (i j : nat) :
  In (i, j) (unique_edges adj)
  <-> i < j /\ In (i, j) (all_entries adj).
Proof.
  unfold unique_edges, all_entries, sparse_to_tuple. simpl.
  rewrite !coords_In. simpl.
  destruct (Nat.leb_spec i j) as [Hle | Hgt];
    destruct (Nat.eqb_spec i j) as [-> | Hne].
  - rewrite Z.sub_diag. split; intros H; [tauto | lia].
  - split; intros (? & ? & ?); repeat split; auto; lia.
  - lia.
  - split; intros H; [tauto | lia].
Qed.

Lemma all_entries_sym (adj : spmatrix Z) (i j : nat) :
  symmetricZ adj ->
  In (i, j) (all_entries adj) -> In (j, i) (all_entries adj).
Proof.
  intros Hsym. unfold all_entries, sparse_to_tuple. simpl.
  rewrite !coords_In. simpl. intros (Hi & Hj & Hnz).
  repeat split; try lia.
  rewrite (Hsym j i Hj Hi), (Nat.eqb_sym j i).
  destruct (Nat.eqb_spec i j) as [-> | _]; exact Hnz.
Qed.

Lemma positives_are_edges (np : numpy_release) (adj : spmatrix Z)
      (rs : RandomState) (fuel : nat) (s : split) :
  mask_test_edges np adj rs fuel = Returns s ->
  forall e, In e (train_edges s) \/ In e (val_edges s) \/ In e (test_edges s)
            -> In e (unique_edges adj).
Proof.
  intros H e He. apply mask_test_edges_returns in H.
  destruct H as [rs1 [rs2 [Hte [Hve [Htr _]]]]].
  destruct He as [He | [He | He]].
  - rewrite Htr in He. eapply delete_rows_In. exact He.
  - eapply take_rows_In; [exact Hve | exact He].
  - eapply take_rows_In; [exact Hte | exact He].
Qed.

(** X4.  On an undirected graph a test negative is, in both orientations,
    outside all three positive sets. *)
Lemma test_negatives_disjoint (np : numpy_release) (adj : spmatrix Z)
      (rs : RandomState) (fuel : nat) (s : split) :
  symmetricZ adj ->
  mask_test_edges np adj rs fuel = Returns s ->
  forall i j, In (i, j) (test_edges_false s) ->
    forall e, In e (train_edges s) \/ In e (val_edges s) \/ In e (test_edges s)
              -> e <> (i, j) /\ e <> (j, i).
Proof.
  intros Hsym H i j Hij e He.
  pose proof (positives_are_edges np adj rs fuel s H e He) as Hedge.
  apply mask_test_edges_returns in H.
  destruct H as [rs1 [rs2 [_ [_ [_ [Htf _]]]]]].
  assert (Hacc : Forall (fun p => ~ In p (all_entries adj))
                        (test_edges_false s)).
  { eapply (sample_false_accepted (test_rejects (all_entries adj)));
      [| constructor | exact Htf].
    intros acc a b Hr. unfold test_rejects in Hr.
    destruct (a =? b); [discriminate |].
    destruct (ismember (a, b) (all_entries adj)) eqn:Hm; [discriminate |].
    apply ismember_false. exact Hm. }
  rewrite Forall_forall in Hacc. specialize (Hacc (i, j) Hij).
  destruct e as [a b]. apply unique_edges_In in Hedge.
  destruct Hedge as [_ Hall].
  split; intros Heq; injection Heq as -> ->; apply Hacc.
  - exact Hall.
  - apply all_entries_sym; assumption.
Qed.

(** X5.  A validation negative is, in both orientations, outside
    [train_edges] and [val_edges]: the two sets its loop tests. *)
Lemma val_negatives_disjoint (np : numpy_release) (adj : spmatrix Z)
      (rs : RandomState) (fuel : nat) (s : split) :
  mask_test_edges np adj rs fuel = Returns s ->
  forall i j, In (i, j) (val_edges_false s) ->
    forall e, In e (train_edges s) \/ In e (val_edges s)
              -> e <> (i, j) /\ e <> (j, i).
Proof.
  intros H i j Hij e He.
  apply mask_test_edges_returns in H.
  destruct H as [rs1 [rs2 [_ [_ [_ [_ [Hvf _]]]]]]].
  assert (Hacc : Forall (fun p =>
                           forall e, In e (train_edges s) \/ In e (val_edges s)
                                     -> e <> p /\ e <> (snd p, fst p))
                        (val_edges_false s)).
  { eapply (sample_false_accepted
              (val_rejects (train_edges s) (val_edges s)));
      [| constructor | exact Hvf].
    intros acc a b Hr. unfold val_rejects in Hr.
    destruct (a =? b); [discriminate |].
    destruct (ismember (a, b) (train_edges s)) eqn:H1; [discriminate |].
    destruct (ismember (b, a) (train_edges s)) eqn:H2; [discriminate |].
    destruct (ismember (a, b) (val_edges s)) eqn:H3; [discriminate |].
    destruct (ismember (b, a) (val_edges s)) eqn:H4; [discriminate |].
    apply ismember_false in H1, H2, H3, H4. simpl.
    intros e' [He' | He']; split; intros ->; contradiction. }
  rewrite Forall_forall in Hacc. exact (Hacc (i, j) Hij e He).
Qed.

(** C1, evaluated where it fails.  On the path [0 - 1 - ... - 50], when the
    shuffle leaves the edges in place and the validation loop draws the pair
    [(1, 2)], that pair is accepted as a validation negative although it is
    the test edge: the validation loop never looks at [test_edges]. *)
Theorem val_negative_is_test_positive :
  forall np : numpy_release,
    exists s,
      mask_test_edges np path51 rs_path51 1 = Returns s
      /\ test_edges s = [(1, 2)]
      /\ val_edges_false s = [(1, 2)]
      /\ In (1, 2) (unique_edges path51).
Proof.
  intros np. exists split_path51. split.
  - destruct np; reflexivity.
  - repeat split; vm_compute; auto 60.
Qed.

(** ** Graphs with fewer than 50 edges *)

Lemma map_snd_combine_seq {A : Type} (arr : list A) :
  forall start, map snd (combine (seq start (length arr)) arr) = arr.
Proof.
  induction arr as [| a arr IH]; intros start; simpl; [reflexivity |].
  f_equal. apply IH.
Qed.

Lemma delete_rows_nil {A : Type} (arr : list A) : delete_rows arr [] = arr.
Proof.
  unfold delete_rows. simpl.
  rewrite forallb_filter_id; [apply map_snd_combine_seq |].
  apply forallb_forall. reflexivity.
Qed.

(** C2, as the code has it.  When [floor(E/50) = 0] both index lists are
    empty, [np.hstack] makes an empty float64 array of them and [np.delete]
    decides: NumPy 1.19 and later raise [IndexError]; earlier releases return
    every edge, and the splitter then returns empty validation and test
    sets, positive and negative, with all [E] edges in [train_edges].  In
    neither case is a random pair drawn: the result does not depend on the
    fuel. *)
Theorem small_graph_split (adj : spmatrix Z) (rs : RandomState) (fuel : nat) :
  length (unique_edges adj) / 50 = 0 ->
  mask_test_edges Strict adj rs fuel = Raises "IndexError"
  /\ exists s,
      mask_test_edges Legacy adj rs fuel = Returns s
      /\ val_edges s = [] /\ val_edges_false s = []
      /\ test_edges s = [] /\ test_edges_false s = []
      /\ train_edges s = unique_edges adj.
Proof.
  intros H. unfold mask_test_edges. cbv zeta.
  change (fst (fst (sparse_to_tuple (triu (remove_diagonal adj)))))
    with (unique_edges adj).
  rewrite H.
  cbn [slice firstn skipn Nat.add take_rows bind hstack null orb app fst snd
       np_delete length].
  split; [reflexivity |].
  rewrite sample_false_nothing. cbn [bind].
  rewrite sample_false_nothing. cbn [bind].
  eexists. split; [reflexivity |]. cbn.
  repeat split. apply delete_rows_nil.
Qed.

Lemma small_graph_split_witness :
  length (unique_edges one_edge) / 50 = 0
  /\ mask_test_edges Strict one_edge rs_small 0 = Raises "IndexError"
  /\ exists s,
      mask_test_edges Legacy one_edge rs_small 0 = Returns s
      /\ val_edges s = [] /\ val_edges_false s = []
      /\ test_edges s = [] /\ test_edges_false s = []
      /\ train_edges s = unique_edges one_edge.
Proof.
  assert (H : length (unique_edges one_edge) / 50 = 0) by reflexivity.
  split; [exact H |].
  exact (small_graph_split one_edge rs_small 0 H).
Defined.

(** C2, as stated, fails on the graph with one edge and on the graph with
    none: with the [np.delete] of the notebook's NumPy the splitter raises
    [IndexError], with the older one it returns, and in neither case does
    [InsufficientEdgesError] come out. *)
Lemma no_InsufficientEdgesError :
  length (unique_edges one_edge) / 50 = 0
  /\ mask_test_edges Strict one_edge rs_small 0 = Raises "IndexError"
  /\ mask_test_edges Strict one_edge rs_small 0
     <> Raises "InsufficientEdgesError"
  /\ mask_test_edges Legacy one_edge rs_small 0
     <> Raises "InsufficientEdgesError"
  /\ length (unique_edges no_edge) = 0
  /\ mask_test_edges Strict no_edge rs_none 0 = Raises "IndexError"
  /\ mask_test_edges Strict no_edge rs_none 0
     <> Raises "InsufficientEdgesError"
  /\ mask_test_edges Legacy no_edge rs_none 0
     <> Raises "InsufficientEdgesError".
Proof.
  repeat split; try reflexivity;
    cbv -[csr_matrix_ones add_sp transpose_sp]; discriminate.
Qed.

(** ** Normalisation of the adjacency matrix *)

Section Normalisation.

Local Open Scope R_scope.

Lemma sum_upto_S (n : nat) (f : nat -> R) :
  sum_upto (S n) f = sum_upto n f + f n.
Proof.
  unfold sum_upto. rewrite seq_S, map_app, fold_right_app. simpl.
  generalize (map f (seq 0 n)). intros l.
  induction l as [| x l IH]; simpl; [lra | rewrite IH; lra].
Qed.

Lemma sum_upto_nonneg (n : nat) (f : nat -> R) :
  (forall k, (k < n)%nat -> 0 <= f k) -> 0 <= sum_upto n f.
Proof.
  induction n as [| n IH]; intros H.
  - unfold sum_upto. simpl. lra.
  - rewrite sum_upto_S.
    assert (0 <= sum_upto n f) by (apply IH; intros k Hk; apply H; lia).
    assert (0 <= f n) by (apply H; lia). lra.
Qed.

Lemma sum_upto_ge_term (n : nat) (f : nat -> R) (j : nat) :
  (forall k, (k < n)%nat -> 0 <= f k) -> (j < n)%nat ->
  f j <= sum_upto n f.
Proof.
  induction n as [| n IH]; intros H Hj; [lia |].
  rewrite sum_upto_S.
  assert (Hn : 0 <= f n) by (apply H; lia).
  assert (Hs : 0 <= sum_upto n f)
    by (apply sum_upto_nonneg; intros k Hk; apply H; lia).
  destruct (Nat.eq_dec j n) as [-> | Hne]; [lra |].
  assert (f j <= sum_upto n f)
    by (apply IH; [intros k Hk; apply H; lia | lia]).
  lra.
Qed.

Lemma sum_upto_zero (n : nat) (f : nat -> R) :
  (forall k, (k < n)%nat -> f k = 0) -> sum_upto n f = 0.
Proof.
  induction n as [| n IH]; intros H; [reflexivity |].
  rewrite sum_upto_S, IH, H; [lra | lia | intros k Hk; apply H; lia].
Qed.

(** A sum with one term that may differ from zero. *)
Lemma sum_upto_single (n : nat) (f : nat -> R) (j : nat) :
  (j < n)%nat -> (forall k, (k < n)%nat -> k <> j -> f k = 0) ->
  sum_upto n f = f j.
Proof.
  induction n as [| n IH]; intros Hj H; [lia |].
  rewrite sum_upto_S.
  destruct (Nat.eq_dec j n) as [-> | Hne].
  - rewrite sum_upto_zero; [lra |]. intros k Hk. apply H; lia.
  - rewrite IH, (H n); [lra | lia | lia | lia |].
    intros k Hk Hkj. apply H; lia.
Qed.

(** Multiplying by a diagonal matrix on the right scales the columns. *)
Lemma dot_diags (a : spmatrix R) (n : nat) (v : nat -> R) (i j : nat) :
  n = order a -> (j < n)%nat ->
  coeff (dot_sp a (diags n v)) i j = coeff a i j * v j.
Proof.
  intros -> Hj. simpl.
  rewrite (sum_upto_single _ _ j Hj).
  - rewrite Nat.eqb_refl. reflexivity.
  - intros k _ Hk. destruct (Nat.eqb_spec k j); [contradiction | lra].
Qed.

Lemma power_minus_half_pos (x : R) : 0 < power_minus_half x.
Proof. unfold power_minus_half, Rpower. apply exp_pos. Qed.

Lemma power_minus_half_le_1 (x : R) : 1 <= x -> power_minus_half x <= 1.
Proof.
  intros Hx. unfold power_minus_half, Rpower.
  assert (Hln : 0 <= ln x).
  { destruct Hx as [Hlt | <-]; [| rewrite ln_1; lra].
    left. rewrite <- ln_1. apply ln_increasing; lra. }
  assert (Hle : - (1 / 2) * ln x <= 0) by nra.
  destruct Hle as [Hlt | ->].
  - left. apply Rlt_le_trans with (exp 0);
      [apply exp_increasing; exact Hlt | rewrite exp_0; lra].
  - rewrite exp_0. lra.
Qed.

Lemma power_minus_half_1 : power_minus_half 1 = 1.
Proof.
  unfold power_minus_half, Rpower. rewrite ln_1, Rmult_0_r. apply exp_0.
Qed.

(** At a positive [x] the power is the reciprocal of a square root that is
    not zero. *)
Lemma power_minus_half_sqrt (x : R) :
  0 < x -> sqrt x <> 0 /\ power_minus_half x = / sqrt x.
Proof.
  intros Hx. split.
  - pose proof (sqrt_lt_R0 x Hx). lra.
  - unfold power_minus_half. rewrite Rpower_Ropp.
    replace (1 / 2) with (/ 2) by lra.
    rewrite Rpower_sqrt by exact Hx. reflexivity.
Qed.

(** The entries of the result, written out. *)
Lemma preprocess_graph_coeff (adj : spmatrix R) (i j : nat) :
  (i < order adj)%nat -> (j < order adj)%nat ->
  coeff (preprocess_graph adj) i j
  = coeff (self_looped adj) j i
    * power_minus_half (row_sums (self_looped adj) i)
    * power_minus_half (row_sums (self_looped adj) j).
Proof.
  intros Hi Hj. unfold preprocess_graph. cbv zeta.
  rewrite dot_diags by (reflexivity || exact Hj).
  change (coeff (transpose_sp ?m) i j) with (coeff m j i).
  rewrite dot_diags by (reflexivity || exact Hi).
  reflexivity.
Qed.

Lemma row_sum_ge_1 (adj : spmatrix R) (i : nat) :
  nonnegative adj -> (i < order adj)%nat ->
  1 <= row_sums (self_looped adj) i.
Proof.
  intros Hpos Hi. unfold row_sums.
  apply Rle_trans with (coeff (self_looped adj) i i).
  - simpl. rewrite Nat.eqb_refl. specialize (Hpos i i Hi Hi). lra.
  - apply (sum_upto_ge_term (order (self_looped adj))
                            (coeff (self_looped adj) i) i).
    + intros k Hk. simpl. specialize (Hpos i k Hi Hk).
      destruct (i =? k)%nat; lra.
    + exact Hi.
Qed.

End Normalisation.

Lemma count_edge_nonneg (e : edge) (l : list edge) : (0 <= count_edge e l)%Z.
Proof.
  induction l as [| e' l IH]; simpl; [lia |].
  destruct (edge_eqb e e'); lia.
Qed.

(** Whatever matrix was loaded, weighted or not, the matrix handed to
    [preprocess_graph] has no negative entry. *)
Lemma adj_train_nonneg (np : numpy_release) (adj : spmatrix Z)
      (rs : RandomState) (fuel : nat) (s : split) :
  mask_test_edges np adj rs fuel = Returns s ->
  nonnegative (as_float (adj_train s)).
Proof.
  intros H k j _ _. apply mask_test_edges_returns in H.
  destruct H as [rs1 [rs2 [_ [_ [_ [_ [_ Hadj]]]]]]].
  rewrite Hadj. simpl. apply IZR_le.
  pose proof (count_edge_nonneg (k, j) (train_edges s)).
  pose proof (count_edge_nonneg (j, k) (train_edges s)). lia.
Qed.

Lemma nonneg_degree_defined (adj : spmatrix R) (i : nat) :
  nonnegative adj -> i < order adj -> degree_defined adj i.
Proof.
  intros Hpos Hi. unfold degree_defined. cbv zeta.
  pose proof (row_sum_ge_1 adj i Hpos Hi) as H1.
  assert (H0 : (0 < row_sums (self_looped adj) i)%R) by lra.
  destruct (power_minus_half_sqrt _ H0) as [Hs Hp].
  repeat split; assumption.
Qed.

(** C8.  After the self-loops are added every row sum is at least 1, so
    [np.power(rowsum, -0.5)] is taken of a strictly positive number and
    nothing is divided by zero: on every matrix without negative entry, and
    so on the matrix that the notebook normalises, [adj_train], whatever
    adjacency matrix was loaded. *)
Theorem degree_power_defined :
  (forall (adj : spmatrix R) (i : nat),
      nonnegative adj -> i < order adj -> degree_defined adj i)
  /\ (forall (np : numpy_release) (adj : spmatrix Z) (rs : RandomState)
             (fuel : nat) (s : split) (i : nat),
         mask_test_edges np adj rs fuel = Returns s ->
         i < order (adj_train s) ->
         degree_defined (as_float (adj_train s)) i).
Proof.
  split.
  - exact nonneg_degree_defined.
  - intros np adj rs fuel s i H Hi.
    apply nonneg_degree_defined; [| exact Hi].
    exact (adj_train_nonneg np adj rs fuel s H).
Qed.

Section NormalisedAdjacency.

Local Open Scope R_scope.

Variable adj : spmatrix R.

Hypothesis adj_symmetric : symmetric adj.
Hypothesis adj_unweighted : unweighted adj.
Hypothesis adj_zero_diagonal : zero_diagonal adj.

Lemma unweighted_nonneg : nonnegative adj.
Proof.
  intros k j Hk Hj. destruct (adj_unweighted k j Hk Hj) as [-> | ->]; lra.
Qed.

Lemma self_looped_01 (i j : nat) :
  (i < order adj)%nat -> (j < order adj)%nat ->
  coeff (self_looped adj) i j = 0 \/ coeff (self_looped adj) i j = 1.
Proof.
  intros Hi Hj. simpl. destruct (Nat.eqb_spec i j) as [-> | _].
  - rewrite adj_zero_diagonal by exact Hj. right. lra.
  - destruct (adj_unweighted i j Hi Hj) as [-> | ->]; [left | right]; lra.
Qed.

(** C5.  On a symmetric unweighted adjacency matrix with zero diagonal the
    result of [preprocess_graph] is symmetric, its entries lie in [[0, 1]],
    and the row of an isolated node is 1 on the diagonal and 0
    elsewhere. *)
Theorem normalized_adjacency :
  (forall i j, (i < order adj)%nat -> (j < order adj)%nat ->
               coeff (preprocess_graph adj) i j
               = coeff (preprocess_graph adj) j i)
  /\ (forall i j, (i < order adj)%nat -> (j < order adj)%nat ->
                  0 <= coeff (preprocess_graph adj) i j <= 1)
  /\ (forall i, (i < order adj)%nat -> isolated adj i ->
                coeff (preprocess_graph adj) i i = 1
                /\ forall j, (j < order adj)%nat -> j <> i ->
                             coeff (preprocess_graph adj) i j = 0).
Proof.
  split; [| split].
  - intros i j Hi Hj.
    rewrite !preprocess_graph_coeff by assumption.
    simpl coeff. rewrite (adj_symmetric j i Hj Hi), (Nat.eqb_sym j i). ring.
  - intros i j Hi Hj.
    rewrite preprocess_graph_coeff by assumption.
    pose proof (power_minus_half_pos (row_sums (self_looped adj) i)) as Hpi.
    pose proof (power_minus_half_pos (row_sums (self_looped adj) j)) as Hpj.
    pose proof (power_minus_half_le_1 _
                  (row_sum_ge_1 adj i unweighted_nonneg Hi)) as Hli.
    pose proof (power_minus_half_le_1 _
                  (row_sum_ge_1 adj j unweighted_nonneg Hj)) as Hlj.
    destruct (self_looped_01 j i Hj Hi) as [-> | ->]; nra.
  - intros i Hi Hiso.
    assert (Hrow : row_sums (self_looped adj) i = 1).
    { unfold row_sums.
      rewrite (sum_upto_single _ _ i Hi).
      - simpl. rewrite Nat.eqb_refl, adj_zero_diagonal by exact Hi. lra.
      - intros k Hk Hne. simpl. rewrite (Hiso k Hk).
        destruct (Nat.eqb_spec i k); [congruence | lra]. }
    split.
    + rewrite preprocess_graph_coeff by assumption.
      rewrite Hrow, power_minus_half_1. simpl.
      rewrite Nat.eqb_refl, adj_zero_diagonal by exact Hi. lra.
    + intros j Hj Hne.
      rewrite preprocess_graph_coeff by assumption.
      simpl coeff. rewrite (adj_symmetric j i Hj Hi), (Hiso j Hj).
      destruct (Nat.eqb_spec j i); [contradiction | ring].
Qed.

End NormalisedAdjacency.

Lemma pair_and_single_unweighted : unweighted pair_and_single.
Proof.
  intros i j _ _. simpl. destruct (i + j =? 1); [right | left]; reflexivity.
Qed.

Lemma pair_and_single_symmetric : symmetric pair_and_single.
Proof. intros i j _ _. simpl. rewrite (Nat.add_comm i j). reflexivity. Qed.

Lemma pair_and_single_zero_diagonal : zero_diagonal pair_and_single.
Proof.
  intros i _. simpl. destruct (Nat.eqb_spec (i + i) 1); [lia | reflexivity].
Qed.

Lemma degree_power_defined_witness :
  nonnegative pair_and_single
  /\ 2 < order pair_and_single
  /\ degree_defined pair_and_single 2
  /\ mask_test_edges Strict path51 rs_path51 1 = Returns split_path51
  /\ 50 < order (adj_train split_path51)
  /\ degree_defined (as_float (adj_train split_path51)) 50.
Proof.
  assert (Hpos : nonnegative pair_and_single).
  { intros k j _ _. simpl. destruct (k + j =? 1); lra. }
  assert (Hlt : 2 < order pair_and_single) by (simpl; lia).
  assert (Hret : mask_test_edges Strict path51 rs_path51 1
                 = Returns split_path51) by reflexivity.
  assert (Hlt' : 50 < order (adj_train split_path51)) by (vm_compute; lia).
  destruct degree_power_defined as [Hgen Hrun].
  split; [exact Hpos | split; [exact Hlt |]].
  split; [exact (Hgen pair_and_single 2 Hpos Hlt) |].
  split; [exact Hret | split; [exact Hlt' |]].
  exact (Hrun Strict path51 rs_path51 1 split_path51 50 Hret Hlt').
Defined.

Lemma normalized_adjacency_witness :
  symmetric pair_and_single /\ unweighted pair_and_single
  /\ zero_diagonal pair_and_single
  /\ isolated pair_and_single 2
  /\ coeff (preprocess_graph pair_and_single) 2 2 = 1%R
  /\ coeff (preprocess_graph pair_and_single) 2 0 = 0%R
  /\ coeff (preprocess_graph pair_and_single) 0 1
     = coeff (preprocess_graph pair_and_single) 1 0
  /\ (0 <= coeff (preprocess_graph pair_and_single) 0 1 <= 1)%R.
Proof.
  pose proof (normalized_adjacency pair_and_single pair_and_single_symmetric
                pair_and_single_unweighted pair_and_single_zero_diagonal)
    as [Hsym [Hrange Hiso]].
  assert (H2 : isolated pair_and_single 2).
  { intros j Hj. simpl in *.
    destruct (Nat.eqb_spec (2 + j) 1); [lia | reflexivity]. }
  assert (Hlt : forall k, k < 3 -> k < order pair_and_single)
    by (intros k Hk; exact Hk).
  destruct (Hiso 2 (Hlt 2 ltac:(lia)) H2) as [Hd Ho].
  repeat split;
    try exact pair_and_single_symmetric;
    try exact pair_and_single_unweighted;
    try exact pair_and_single_zero_diagonal;
    try exact H2; try exact Hd.
  - apply Ho; [apply Hlt |]; lia.
  - apply Hsym; apply Hlt; lia.
  - apply Hrange; apply Hlt; lia.
  - apply Hrange; apply Hlt; lia.
Defined.

(** ** Rounding to the nearest float *)

Section FloatingPoint.

Local Open Scope R_scope.

Lemma bpow_pos (e : Z) : 0 < bpow e.
Proof. apply powerRZ_lt. lra. Qed.

Lemma bpow_add (a b : Z) : bpow (a + b) = bpow a * bpow b.
Proof. apply powerRZ_add. lra. Qed.

Lemma bpow_opp (a : Z) : bpow (- a) = / bpow a.
Proof. apply powerRZ_neg'. Qed.

Lemma bpow_cancel (a : Z) : bpow a * bpow (- a) = 1.
Proof. rewrite bpow_opp. apply Rinv_r. pose proof (bpow_pos a). lra. Qed.

Lemma bpow_IZR (e : Z) : (0 <= e)%Z -> bpow e = IZR (2 ^ e).
Proof.
  intros He. unfold bpow. rewrite <- (Z2Nat.id e He) at 1 2.
  rewrite <- pow_powerRZ. rewrite <- pow_IZR. reflexivity.
Qed.

Lemma bpow_ge_1 (k : Z) : (0 <= k)%Z -> 1 <= bpow k.
Proof.
  intros Hk. rewrite (bpow_IZR k Hk). apply IZR_le.
  pose proof (Z.pow_pos_nonneg 2 k). lia.
Qed.

Lemma bpow_le (a b : Z) : (a <= b)%Z -> bpow a <= bpow b.
Proof.
  intros H. replace b with (a + (b - a))%Z by lia. rewrite bpow_add.
  pose proof (bpow_pos a). pose proof (bpow_ge_1 (b - a)). 
  assert (1 <= bpow (b - a)) by (apply bpow_ge_1; lia). nra.
Qed.

Lemma bpow_lt (a b : Z) : (a < b)%Z -> bpow a < bpow b.
Proof.
  intros H. apply Rlt_le_trans with (bpow (a + 1)).
  - rewrite bpow_add. pose proof (bpow_pos a).
    change (bpow 1) with (powerRZ 2 1). simpl. nra.
  - apply bpow_le. lia.
Qed.

Lemma bpow_lt_inv (a b : Z) : bpow a < bpow b -> (a < b)%Z.
Proof.
  intros H. destruct (Z_lt_le_dec a b) as [Hlt | Hge]; [exact Hlt |].
  pose proof (bpow_le b a Hge). lra.
Qed.

Lemma bpow_exp (e : Z) : bpow e = exp (IZR e * ln 2).
Proof. unfold bpow. rewrite powerRZ_Rpower by lra. reflexivity. Qed.

Lemma mag_bounds (x : R) :
  x <> 0 -> bpow (mag x) <= Rabs x < bpow (mag x + 1).
Proof.
  intros Hx. assert (Ha : 0 < Rabs x) by (apply Rabs_pos_lt; exact Hx).
  pose proof ln_lt_2 as Hln.
  unfold mag. set (t := ln (Rabs x) / ln 2).
  destruct (base_Int_part t) as [Hlo Hhi].
  assert (Ht : t * ln 2 = ln (Rabs x)) by (unfold t; field; lra).
  rewrite !bpow_exp, plus_IZR.
  assert (Hlow : exp (IZR (Int_part t) * ln 2) <= exp (ln (Rabs x))).
  { destruct (Req_dec (IZR (Int_part t)) t) as [He | Hne].
    - rewrite He, Ht. lra.
    - left. apply exp_increasing. nra. }
  assert (Hupp : exp (ln (Rabs x)) < exp ((IZR (Int_part t) + 1) * ln 2)).
  { apply exp_increasing. nra. }
  rewrite (exp_ln (Rabs x) Ha) in Hlow, Hupp. split; assumption.
Qed.

Lemma mag_unique (x : R) (e : Z) :
  bpow e <= Rabs x < bpow (e + 1) -> mag x = e.
Proof.
  intros [Hlo Hhi].
  assert (Hx : x <> 0).
  { intros ->. rewrite Rabs_R0 in Hlo. pose proof (bpow_pos e). lra. }
  destruct (mag_bounds x Hx) as [Mlo Mhi].
  assert (H1 : (mag x < e + 1)%Z) by (apply bpow_lt_inv; lra).
  assert (H2 : (e < mag x + 1)%Z) by (apply bpow_lt_inv; lra).
  lia.
Qed.

Lemma mag_opp (x : R) : mag (- x) = mag x.
Proof. unfold mag. rewrite Rabs_Ropp. reflexivity. Qed.

Lemma Rabs_le_between (a b : R) : Rabs a <= b -> - b <= a <= b.
Proof. unfold Rabs. destruct (Rcase_abs a); lra. Qed.

Lemma nearest_even_spec (y : R) :
  Rabs (IZR (nearest_even y) - y) <= 1 / 2
  /\ (Rabs (IZR (nearest_even y) - y) = 1 / 2
      -> Z.even (nearest_even y) = true).
Proof.
  unfold nearest_even. destruct (base_Int_part y) as [Hlo Hhi].
  set (n := Int_part y) in *.
  destruct (Rlt_dec (y - IZR n) (1 / 2)) as [Hlt | Hge].
  - split.
    + unfold Rabs. destruct (Rcase_abs _); lra.
    + unfold Rabs. destruct (Rcase_abs _); lra.
  - destruct (Rlt_dec (1 / 2) (y - IZR n)) as [Hgt | Hle].
    + rewrite plus_IZR. split.
      * unfold Rabs. destruct (Rcase_abs _); lra.
      * unfold Rabs. destruct (Rcase_abs _); lra.
    + destruct (Z.even n) eqn:Hev.
      * split; [| intros _; exact Hev].
        unfold Rabs. destruct (Rcase_abs _); lra.
      * split.
        -- rewrite plus_IZR. unfold Rabs. destruct (Rcase_abs _); lra.
        -- intros _. rewrite Z.even_add, Hev. reflexivity.
Qed.

Lemma nearest_even_unique (y : R) (z : Z) :
  Rabs (IZR z - y) <= 1 / 2 ->
  (Rabs (IZR z - y) = 1 / 2 -> Z.even z = true) ->
  nearest_even y = z.
Proof.
  intros Hz Hzt. destruct (nearest_even_spec y) as [Hn Hnt].
  set (n := nearest_even y) in *.
  apply Rabs_le_between in Hz. apply Rabs_le_between in Hn.
  assert (Hd : (-1 <= n - z <= 1)%Z).
  { split; apply le_IZR; rewrite minus_IZR; lra. }
  destruct (Z.eq_dec n z) as [Heq | Hne]; [exact Heq | exfalso].
  assert (Hcase : (n = z + 1 \/ n = z - 1)%Z) by lia.
  destruct Hcase as [Hc | Hc].
  - assert (Hy : y = IZR z + 1 / 2).
    { rewrite Hc, plus_IZR in Hn. lra. }
    assert (E1 : Z.even z = true).
    { apply Hzt. rewrite Hy. unfold Rabs. destruct (Rcase_abs _); lra. }
    assert (E2 : Z.even n = true).
    { apply Hnt. rewrite Hc, plus_IZR, Hy. unfold Rabs.
      destruct (Rcase_abs _); lra. }
    rewrite Hc, Z.even_add, E1 in E2. discriminate.
  - assert (Hy : y = IZR z - 1 / 2).
    { rewrite Hc, minus_IZR in Hn. lra. }
    assert (E1 : Z.even z = true).
    { apply Hzt. rewrite Hy. unfold Rabs. destruct (Rcase_abs _); lra. }
    assert (E2 : Z.even n = true).
    { apply Hnt. rewrite Hc, minus_IZR, Hy. unfold Rabs.
      destruct (Rcase_abs _); lra. }
    rewrite Hc, Z.even_sub, E1 in E2. discriminate.
Qed.

Lemma nearest_even_IZR (k : Z) : nearest_even (IZR k) = k.
Proof.
  apply nearest_even_unique.
  - replace (IZR k - IZR k) with 0 by ring. rewrite Rabs_R0. lra.
  - replace (IZR k - IZR k) with 0 by ring. rewrite Rabs_R0. lra.
Qed.

Lemma nearest_even_opp (y : R) : nearest_even (- y) = (- nearest_even y)%Z.
Proof.
  destruct (nearest_even_spec y) as [Hn Hnt].
  apply nearest_even_unique.
  - rewrite opp_IZR.
    replace (- IZR (nearest_even y) - - y) with (- (IZR (nearest_even y) - y))
      by ring.
    rewrite Rabs_Ropp. exact Hn.
  - rewrite opp_IZR.
    replace (- IZR (nearest_even y) - - y) with (- (IZR (nearest_even y) - y))
      by ring.
    rewrite Rabs_Ropp, Z.even_opp. exact Hnt.
Qed.

Lemma nearest_even_le (y : R) (k : Z) :
  y <= IZR k -> (nearest_even y <= k)%Z.
Proof.
  intros H. destruct (nearest_even_spec y) as [Hn _].
  apply Rabs_le_between in Hn.
  assert (Hlt : (nearest_even y < k + 1)%Z)
    by (apply lt_IZR; rewrite plus_IZR; lra).
  lia.
Qed.

Lemma nearest_even_ge (y : R) (k : Z) :
  IZR k <= y -> (k <= nearest_even y)%Z.
Proof.
  intros H. destruct (nearest_even_spec y) as [Hn _].
  apply Rabs_le_between in Hn.
  assert (Hlt : (k - 1 < nearest_even y)%Z)
    by (apply lt_IZR; rewrite minus_IZR; lra).
  lia.
Qed.

Lemma nearest_even_strict (y : R) (k : Z) :
  IZR k - 1 / 2 < y < IZR k + 1 / 2 -> nearest_even y = k.
Proof.
  intros H. apply nearest_even_unique.
  - apply Rabs_le. lra.
  - intros E. exfalso. unfold Rabs in E. destruct (Rcase_abs _); lra.
Qed.

Section Rounding.

Variable fmt : float_format.
Hypothesis prec_pos : (0 < prec fmt)%Z.

Lemma cexp_opp (x : R) : cexp fmt (- x) = cexp fmt x.
Proof. unfold cexp. rewrite mag_opp. reflexivity. Qed.

Lemma round_0 : round fmt 0 = 0.
Proof.
  unfold round. rewrite Rmult_0_l.
  change 0 with (IZR 0) at 1. rewrite nearest_even_IZR. simpl. ring.
Qed.

Lemma round_opp (x : R) : round fmt (- x) = - round fmt x.
Proof.
  unfold round. rewrite cexp_opp.
  replace (- x * bpow (- cexp fmt x)) with (- (x * bpow (- cexp fmt x)))
    by ring.
  rewrite nearest_even_opp, opp_IZR. ring.
Qed.

Lemma round_le_representable (x c : R) :
  representable fmt c -> x <= c -> round fmt x <= c.
Proof.
  intros [m [ec [Hc [Hm Hec]]]] Hxc.
  destruct (Req_dec x 0) as [-> | Hx]; [rewrite round_0; exact Hxc |].
  unfold round. set (e := cexp fmt x).
  pose proof (bpow_pos e) as He. pose proof (bpow_cancel e) as Hcancel.
  destruct (Z_le_gt_dec e ec) as [Hle | Hgt].
  - assert (Hk : c = IZR (m * 2 ^ (ec - e)) * bpow e).
    { rewrite mult_IZR, <- bpow_IZR by lia. rewrite Hc.
      replace ec with ((ec - e) + e)%Z at 1 by lia. rewrite bpow_add. ring. }
    assert (Hy : x * bpow (- e) <= IZR (m * 2 ^ (ec - e))).
    { apply Rmult_le_reg_r with (bpow e); [exact He |].
      rewrite Rmult_assoc, (Rmult_comm (bpow (- e))), Hcancel, <- Hk. lra. }
    apply nearest_even_le in Hy. apply IZR_le in Hy. rewrite Hk. nra.
  - assert (Hemax : e = (mag x - prec fmt + 1)%Z) by (unfold e, cexp in *; lia).
    destruct (mag_bounds x Hx) as [Mlo _].
    assert (Hp1 : bpow (prec fmt - 1) = IZR (2 ^ (prec fmt - 1)))
      by (apply bpow_IZR; lia).
    assert (HB : bpow (mag x) = IZR (2 ^ (prec fmt - 1)) * bpow e).
    { rewrite <- Hp1, <- bpow_add. f_equal. lia. }
    assert (Habs : Rabs c < bpow (mag x)).
    { rewrite Hc, Rabs_mult, (Rabs_pos_eq (bpow ec))
        by (left; apply bpow_pos).
      rewrite <- abs_IZR.
      apply Rlt_le_trans with (bpow (prec fmt) * bpow ec).
      - apply Rmult_lt_compat_r; [apply bpow_pos |].
        rewrite bpow_IZR by lia. apply IZR_lt. exact Hm.
      - rewrite <- bpow_add. apply bpow_le. lia. }
    assert (Hneg : x < 0).
    { destruct (Rlt_le_dec x 0) as [Hn | Hp]; [exact Hn | exfalso].
      rewrite (Rabs_pos_eq x Hp) in Mlo.
      pose proof (Rle_abs c). lra. }
    rewrite (Rabs_left x Hneg) in Mlo.
    assert (Hy : x * bpow (- e) <= IZR (- 2 ^ (prec fmt - 1))).
    { apply Rmult_le_reg_r with (bpow e); [exact He |].
      rewrite Rmult_assoc, (Rmult_comm (bpow (- e))), Hcancel, opp_IZR. lra. }
    apply nearest_even_le in Hy. apply IZR_le in Hy. rewrite opp_IZR in Hy.
    apply Rabs_def2 in Habs. nra.
Qed.

Lemma representable_opp (c : R) :
  representable fmt c -> representable fmt (- c).
Proof.
  intros [m [e [Hc [Hm He]]]]. exists (- m)%Z, e.
  split; [rewrite opp_IZR, Hc; ring | split; [lia | exact He]].
Qed.

Lemma round_ge_representable (x c : R) :
  representable fmt c -> c <= x -> c <= round fmt x.
Proof.
  intros Hc Hcx.
  pose proof (round_le_representable (- x) (- c) (representable_opp c Hc))
    as H.
  rewrite round_opp in H. lra.
Qed.

Lemma round_id (c : R) : representable fmt c -> round fmt c = c.
Proof.
  intros Hc. apply Rle_antisym.
  - apply round_le_representable; [exact Hc | lra].
  - apply round_ge_representable; [exact Hc | lra].
Qed.

Lemma representable_0 : representable fmt 0.
Proof.
  exists 0%Z, (emin fmt). split; [ring | split; [| lia]].
  simpl. apply Z.pow_pos_nonneg; lia.
Qed.

Lemma representable_double (c : R) :
  representable fmt c -> representable fmt (c + c).
Proof.
  intros [m [e [Hc [Hm He]]]]. exists m, (e + 1)%Z.
  split; [| split; [exact Hm | lia]].
  rewrite bpow_add, Hc. change (bpow 1) with (powerRZ 2 1). simpl. ring.
Qed.

Lemma round_representable (x : R) : representable fmt (round fmt x).
Proof.
  destruct (Req_dec x 0) as [-> | Hx];
    [rewrite round_0; exact representable_0 |].
  unfold round. set (e := cexp fmt x). set (y := x * bpow (- e)).
  assert (Hemin : (emin fmt <= e)%Z) by (unfold e, cexp; lia).
  assert (Hemag : (mag x + 1 - e <= prec fmt)%Z) by (unfold e, cexp; lia).
  destruct (mag_bounds x Hx) as [_ Mhi].
  assert (Hp : bpow (prec fmt) = IZR (2 ^ prec fmt)) by (apply bpow_IZR; lia).
  assert (Hy : Rabs y < IZR (2 ^ prec fmt)).
  { unfold y. rewrite Rabs_mult, (Rabs_pos_eq (bpow (- e)))
      by (left; apply bpow_pos).
    rewrite <- Hp.
    apply Rlt_le_trans with (bpow (mag x + 1) * bpow (- e)).
    - apply Rmult_lt_compat_r; [apply bpow_pos | exact Mhi].
    - rewrite <- bpow_add. apply bpow_le. lia. }
  apply Rabs_def2 in Hy. destruct Hy as [Hy1 Hy2].
  assert (Hz1 : (nearest_even y <= 2 ^ prec fmt)%Z)
    by (apply nearest_even_le; lra).
  assert (Hz2 : (- 2 ^ prec fmt <= nearest_even y)%Z)
    by (apply nearest_even_ge; rewrite opp_IZR; lra).
  assert (H2p : (1 < 2 ^ prec fmt)%Z) by (apply Z.pow_gt_1; lia).
  destruct (Z_lt_le_dec (Z.abs (nearest_even y)) (2 ^ prec fmt))
    as [Hlt | Hge].
  - exists (nearest_even y), e. split; [reflexivity | split; assumption].
  - assert (Hcase : (nearest_even y = 2 ^ prec fmt
                     \/ nearest_even y = - 2 ^ prec fmt)%Z) by lia.
    destruct Hcase as [-> | ->].
    + exists 1%Z, (prec fmt + e)%Z.
      split; [rewrite bpow_add, Hp; ring | split; lia].
    + exists (-1)%Z, (prec fmt + e)%Z.
      split; [rewrite bpow_add, Hp, opp_IZR; ring | split; lia].
Qed.

(** A real number strictly between two midpoints rounds to the float
    between them. *)
Lemma round_eval (x : R) (k m : Z) :
  bpow k <= Rabs x < bpow (k + 1) ->
  (emin fmt <= k - prec fmt + 1)%Z ->
  IZR m - 1 / 2 < x * bpow (- (k - prec fmt + 1))
                < IZR m + 1 / 2 ->
  round fmt x = IZR m * bpow (k - prec fmt + 1).
Proof.
  intros Hk Hn Hm. unfold round, cexp. rewrite (mag_unique x k Hk).
  rewrite Z.max_l by lia. rewrite (nearest_even_strict _ m Hm). reflexivity.
Qed.

End Rounding.

End FloatingPoint.

(** ** Initial weights *)


Lemma binary32_prec : (0 < prec binary32)%Z.
Proof. reflexivity. Qed.

Lemma binary64_prec : (0 < prec binary64)%Z.
Proof. reflexivity. Qed.

(** A rounded value that is not negative stays so. *)
Lemma round_nonneg (fmt : float_format) (x : R) :
  (0 < prec fmt)%Z -> (0 <= x)%R -> (0 <= round fmt x)%R.
Proof.
  intros Hp Hx.
  apply (round_ge_representable fmt Hp x 0 (representable_0 fmt Hp) Hx).
Qed.

(** Drawing between [-b] and [b] stays between the float32 values of the
    two ends: neither the product nor the sum is rounded past them. *)
Lemma random_uniform_range (rows cols : nat) (b : R)
      (noise : nat -> nat -> R) :
  unit_interval noise -> (0 <= b)%R ->
  within (random_uniform rows cols (- b) b noise) (round binary32 b).
Proof.
  intros Hu Hb i j _ _. unfold random_uniform. cbn [entry].
  rewrite (round_opp binary32).
  set (B := round binary32 b).
  assert (HB : representable binary32 B)
    by (apply round_representable; exact binary32_prec).
  assert (HB0 : (0 <= B)%R) by (apply round_nonneg; [reflexivity | exact Hb]).
  replace (B - - B)%R with (B + B)%R by ring.
  rewrite (round_id binary32 binary32_prec (B + B))
    by (apply representable_double; exact HB).
  destruct (Hu i j) as [H0 H1].
  set (p := round binary32 (noise i j * (B + B))).
  assert (Hp0 : (0 <= p)%R) by (apply round_nonneg; [reflexivity | nra]).
  assert (Hp1 : (p <= B + B)%R).
  { apply (round_le_representable binary32 binary32_prec).
    - apply representable_double; exact HB.
    - nra. }
  split.
  - apply (round_ge_representable binary32 binary32_prec).
    + apply (representable_opp binary32 binary32_prec); exact HB.
    + lra.
  - apply (round_le_representable binary32 binary32_prec); [exact HB | lra].
Qed.

Lemma init_range_nonneg (input_dim output_dim : nat) :
  (0 <= init_range input_dim output_dim)%R.
Proof.
  unfold init_range. apply round_nonneg; [reflexivity | apply sqrt_pos].
Qed.

Lemma weight_variable_glorot_range (input_dim output_dim : nat)
      (noise : nat -> nat -> R) (w : tensor) :
  unit_interval noise ->
  weight_variable_glorot input_dim output_dim noise = Returns w ->
  nrows w = input_dim /\ ncols w = output_dim
  /\ within w (glorot_bound32 input_dim output_dim).
Proof.
  intros Hu H. unfold weight_variable_glorot in H.
  destruct (input_dim + output_dim =? 0); [discriminate |].
  destruct (max_float_int <=? Z.of_nat (input_dim + output_dim))%Z;
    [discriminate |].
  injection H as <-. split; [reflexivity | split; [reflexivity |]].
  apply random_uniform_range; [exact Hu | apply init_range_nonneg].
Qed.

Lemma bpow_numeral (k : Z) (p : Z) :
  (0 <= k)%Z -> (2 ^ k)%Z = p -> bpow k = IZR p /\ bpow (- k) = (/ IZR p)%R.
Proof.
  intros Hk <-. rewrite bpow_opp, (bpow_IZR k Hk). split; reflexivity.
Qed.

(** For the shape [[3, 2]] the float32 bound is [9189260 * 2^-23], the
    float32 number just above the square root of [6/5]. *)
Lemma glorot_bound32_3_2 :
  glorot_bound32 3 2 = (9189260 / 8388608)%R.
Proof.
  destruct (bpow_numeral 52 4503599627370496 ltac:(lia) eq_refl) as [_ E52].
  destruct (bpow_numeral 40 1099511627776 ltac:(lia) eq_refl) as [_ E40].
  destruct (bpow_numeral 23 8388608 ltac:(lia) eq_refl) as [E23 E23'].
  cbn [Z.opp] in E52, E40, E23'.
  assert (E0 : bpow 0 = 1%R) by reflexivity.
  assert (E1 : bpow 1 = 2%R) by (unfold bpow; simpl; ring).
  unfold glorot_bound32, init_range.
  change (INR (3 + 2)) with (INR 5). rewrite INR_IZR_INZ.
  change (Z.of_nat 5) with 5%Z.
  (* float(5) *)
  rewrite (round_id binary64 binary64_prec 5).
  2:{ exists 5%Z, 0%Z. rewrite E0. split; [ring | split; [reflexivity |]].
      discriminate. }
  (* 6.0 / 5 *)
  set (q := round binary64 (6 / 5)).
  assert (Hq1 : (5404319552844595 / 4503599627370496 <= q)%R).
  { apply (round_ge_representable binary64 binary64_prec).
    - exists 5404319552844595%Z, (-52)%Z. rewrite E52.
      split; [reflexivity | split; [reflexivity | discriminate]].
    - lra. }
  assert (Hq2 : (q <= 5404319552844596 / 4503599627370496)%R).
  { apply (round_le_representable binary64 binary64_prec).
    - exists 5404319552844596%Z, (-52)%Z. rewrite E52.
      split; [reflexivity | split; [reflexivity | discriminate]].
    - lra. }
  (* np.sqrt *)
  set (s := round binary64 (sqrt q)).
  assert (Hs1 : (1204454641543 / 1099511627776 <= s)%R).
  { apply (round_ge_representable binary64 binary64_prec).
    - exists 1204454641543%Z, (-40)%Z. rewrite E40.
      split; [reflexivity | split; [reflexivity | discriminate]].
    - rewrite <- (sqrt_square (1204454641543 / 1099511627776)) by lra.
      apply sqrt_le_1; lra. }
  assert (Hs2 : (s <= 9189260 / 8388608)%R).
  { apply (round_le_representable binary64 binary64_prec).
    - exists 9189260%Z, (-23)%Z. rewrite E23'.
      split; [reflexivity | split; [reflexivity | discriminate]].
    - rewrite <- (sqrt_square (9189260 / 8388608)) by lra.
      apply sqrt_le_1; lra. }
  (* the conversion to float32 *)
  rewrite (round_eval binary32 s 0 9189260).
  - change (0 - prec binary32 + 1)%Z with (-23)%Z. rewrite E23'.
    reflexivity.
  - rewrite E0. change (0 + 1)%Z with 1%Z. rewrite E1.
    rewrite Rabs_pos_eq by lra. lra.
  - discriminate.
  - change (- (0 - prec binary32 + 1))%Z with 23%Z. rewrite E23. lra.
Qed.

(** C9.  Whatever the uniform draws, the two weight matrices that the model
    creates have the shapes [[input_dim, hidden1]] and [[hidden1, hidden2]]
    and every entry of each lies between [-b] and [b], where [b] is the
    bound [sqrt(6/(fan_in+fan_out))] of its own shape as the code holds it:
    computed in double precision and converted to float32. *)
Theorem glorot_uniform_range_float32 (input_dim hidden1 hidden2 : nat)
        (noise1 noise2 : nat -> nat -> R) (w1 w2 : tensor) :
  unit_interval noise1 -> unit_interval noise2 ->
  layer_weights input_dim hidden1 hidden2 noise1 noise2 = Returns (w1, w2) ->
  (nrows w1 = input_dim /\ ncols w1 = hidden1
   /\ within w1 (glorot_bound32 input_dim hidden1))
  /\ (nrows w2 = hidden1 /\ ncols w2 = hidden2
      /\ within w2 (glorot_bound32 hidden1 hidden2)).
Proof.
  intros H1 H2 H. unfold layer_weights in H.
  invert_bind H. rename a into v1, Ha into Hv1.
  invert_bind H. rename a into v2, Ha into Hv2.
  injection H as <- <-. split.
  - exact (weight_variable_glorot_range _ _ _ _ H1 Hv1).
  - exact (weight_variable_glorot_range _ _ _ _ H2 Hv2).
Qed.

Lemma checkered_noise_unit : unit_interval checkered_noise.
Proof.
  intros i j. unfold checkered_noise. destruct (Nat.even (i + j)); lra.
Qed.

Lemma zero_noise_unit : unit_interval zero_noise.
Proof. intros i j. unfold zero_noise. lra. Qed.

Lemma glorot_uniform_range_float32_witness :
  unit_interval checkered_noise
  /\ layer_weights 3 2 1 checkered_noise checkered_noise
     = Returns (random_uniform 3 2 (- init_range 3 2) (init_range 3 2)
                               checkered_noise,
                random_uniform 2 1 (- init_range 2 1) (init_range 2 1)
                               checkered_noise)
  /\ within (random_uniform 3 2 (- init_range 3 2) (init_range 3 2)
                            checkered_noise)
            (glorot_bound32 3 2)
  /\ within (random_uniform 2 1 (- init_range 2 1) (init_range 2 1)
                            checkered_noise)
            (glorot_bound32 2 1).
Proof.
  assert (Hret : layer_weights 3 2 1 checkered_noise checkered_noise
                 = Returns (random_uniform 3 2 (- init_range 3 2)
                                           (init_range 3 2) checkered_noise,
                            random_uniform 2 1 (- init_range 2 1)
                                           (init_range 2 1) checkered_noise))
    by reflexivity.
  pose proof (glorot_uniform_range_float32 3 2 1 checkered_noise
                checkered_noise _ _
                checkered_noise_unit checkered_noise_unit Hret)
    as [[_ [_ Hw1]] [_ [_ Hw2]]].
  split; [exact checkered_noise_unit | split; [exact Hret |]].
  split; [exact Hw1 | exact Hw2].
Defined.

(** A draw of zero gives the lower end of the range as the code holds it. *)
Lemma random_uniform_at_zero (rows cols : nat) (b : R)
      (noise : nat -> nat -> R) (i j : nat) :
  noise i j = 0%R ->
  entry (random_uniform rows cols (- b) b noise) i j
  = (- round binary32 b)%R.
Proof.
  intros H0. unfold random_uniform. cbn [entry].
  rewrite H0, Rmult_0_l, (round_0 binary32), Rplus_0_l.
  rewrite (round_opp binary32). apply (round_id binary32 binary32_prec).
  apply (representable_opp binary32 binary32_prec).
  apply round_representable. exact binary32_prec.
Qed.

(** C9, as stated, fails on the shape [[3, 2]]: the float32 bound exceeds
    the square root of [6/5], and a draw of zero gives its negative, below
    the interval of the claim. *)
Lemma glorot_bound_exceeded :
  exists w1 w2 : tensor,
    unit_interval zero_noise
    /\ layer_weights 3 2 1 zero_noise zero_noise = Returns (w1, w2)
    /\ (entry w1 0 0 < - glorot_bound 3 2)%R
    /\ ~ within w1 (glorot_bound 3 2).
Proof.
  exists (random_uniform 3 2 (- init_range 3 2) (init_range 3 2) zero_noise),
         (random_uniform 2 1 (- init_range 2 1) (init_range 2 1) zero_noise).
  split; [exact zero_noise_unit | split; [reflexivity |]].
  assert (Hlt : (entry (random_uniform 3 2 (- init_range 3 2)
                                       (init_range 3 2) zero_noise) 0 0
                 < - glorot_bound 3 2)%R).
  { rewrite random_uniform_at_zero by reflexivity.
    fold (glorot_bound32 3 2). rewrite glorot_bound32_3_2.
    unfold glorot_bound. change (INR (3 + 2)) with (INR 5).
    rewrite INR_IZR_INZ. change (Z.of_nat 5) with 5%Z.
    rewrite <- (sqrt_square (9189260 / 8388608)) by lra.
    apply Ropp_lt_contravar. apply sqrt_lt_1; lra. }
  split; [exact Hlt |].
  intros Hw. destruct (Hw 0 0) as [Hlo _]; [simpl; lia | simpl; lia |].

  lra.
Qed.

(** ** How far the float32 bound is from the exact one *)

Lemma mag_ge (x : R) (k : Z) : (bpow k <= Rabs x)%R -> (k <= mag x)%Z.
Proof.
  intros Hk.
  assert (Hx : x <> 0%R).
  { intros ->. rewrite Rabs_R0 in Hk. pose proof (bpow_pos k). lra. }
  destruct (mag_bounds x Hx) as [_ Mhi].
  assert (H : (k < mag x + 1)%Z) by (apply bpow_lt_inv; lra).
  lia.
Qed.

(** Rounding a number of the normal range changes it by at most one part
    in [2^prec]. *)
Lemma round_error (fmt : float_format) (x : R) (k : Z) :
  (bpow k <= Rabs x)%R -> (emin fmt + prec fmt - 1 <= k)%Z ->
  (Rabs (round fmt x - x) <= bpow (- prec fmt) * Rabs x)%R.
Proof.
  intros Hk Hnormal.
  assert (Hx : x <> 0%R).
  { intros ->. rewrite Rabs_R0 in Hk. pose proof (bpow_pos k). lra. }
  pose proof (mag_ge x k Hk) as Hmag.
  destruct (mag_bounds x Hx) as [Mlo _].
  unfold round, cexp. rewrite Z.max_l by lia.
  set (e := (mag x - prec fmt + 1)%Z).
  destruct (nearest_even_spec (x * bpow (- e))) as [Hz _].
  set (z := nearest_even (x * bpow (- e))) in *.
  pose proof (bpow_pos e) as He. pose proof (bpow_cancel e) as Hc.
  assert (Hdiff : (IZR z * bpow e - x
                   = (IZR z - x * bpow (- e)) * bpow e)%R).
  { rewrite Rmult_minus_distr_r, Rmult_assoc, (Rmult_comm (bpow (- e))), Hc.
    ring. }
  rewrite Hdiff, Rabs_mult, (Rabs_pos_eq (bpow e)) by lra.
  assert (Hhalf : (1 / 2 * bpow e = bpow (- prec fmt) * bpow (mag x))%R).
  { rewrite <- bpow_add. replace (- prec fmt + mag x)%Z with (e + - (1))%Z
      by (unfold e; lia).
    rewrite bpow_add. change (bpow (- (1))) with (powerRZ 2 (-1)).
    simpl. field. }
  pose proof (bpow_pos (- prec fmt)) as Hp.
  apply Rle_trans with (1 / 2 * bpow e)%R; [nra |].
  rewrite Hhalf. nra.
Qed.

Lemma sqrt_bpow_even (k : Z) : sqrt (bpow (k + k)) = bpow k.
Proof.
  rewrite bpow_add. apply sqrt_square. left. apply bpow_pos.
Qed.

(** The square root of a number near 1 is nearer to 1. *)
Lemma sqrt_near_1 (d : R) :
  (0 <= d <= 1)%R ->
  (1 - d <= sqrt (1 - d))%R /\ (sqrt (1 + d) <= 1 + d)%R.
Proof.
  intros Hd. split.
  - rewrite <- (sqrt_square (1 - d)) at 1 by lra. apply sqrt_le_1; nra.
  - rewrite <- (sqrt_square (1 + d)) at 2 by lra. apply sqrt_le_1; nra.
Qed.

(** X21.  As long as the sum of the two dimensions is below [2^53], the
    bound that the code holds differs from [sqrt(6/(fan_in+fan_out))] by at
    most one part in [2^23]: three roundings in double precision and the
    conversion to float32. *)
Theorem glorot_bound32_close (fan_in fan_out : nat) :
  0 < fan_in + fan_out ->
  (Z.of_nat (fan_in + fan_out) < 2 ^ 53)%Z ->
  (Rabs (glorot_bound32 fan_in fan_out - glorot_bound fan_in fan_out)
   <= glorot_bound fan_in fan_out / 2 ^ 23)%R.
Proof.
  intros Hpos Hsmall. unfold glorot_bound32, glorot_bound, init_range.
  set (n := fan_in + fan_out) in *.
  destruct (bpow_numeral 53 9007199254740992 ltac:(lia) eq_refl) as [E53 E53'].
  destruct (bpow_numeral 52 4503599627370496 ltac:(lia) eq_refl) as [_ E52'].
  destruct (bpow_numeral 51 2251799813685248 ltac:(lia) eq_refl) as [_ E51'].
  destruct (bpow_numeral 27 134217728 ltac:(lia) eq_refl) as [_ E27'].
  destruct (bpow_numeral 26 67108864 ltac:(lia) eq_refl) as [_ E26'].
  destruct (bpow_numeral 24 16777216 ltac:(lia) eq_refl) as [_ E24'].
  cbn [Z.opp] in E53', E52', E51', E27', E26', E24'.
  assert (Hn1 : (1 <= INR n)%R).
  { change 1%R with (INR 1). apply le_INR. lia. }
  assert (Hn2 : (INR n < 9007199254740992)%R).
  { rewrite INR_IZR_INZ. apply IZR_lt. exact Hsmall. }
  (* float(n) is n *)
  rewrite (round_id binary64 binary64_prec (INR n)).
  2:{ exists (Z.of_nat n), 0%Z. rewrite INR_IZR_INZ.
      split; [change (bpow 0) with 1%R; ring | split; [| discriminate]].
      change (prec binary64) with 53%Z. lia. }
  set (t := (6 / INR n)%R).
  assert (Ht1 : (/ 2251799813685248 <= t)%R).
  { unfold t. apply Rmult_le_reg_r with (INR n); [lra |].
    unfold Rdiv. rewrite Rmult_assoc, Rinv_l by lra. lra. }
  assert (Ht0 : (0 < t)%R) by lra.
  (* the quotient *)
  pose proof (round_error binary64 t (-51)) as Hq.
  rewrite E51', (Rabs_pos_eq t) in Hq by lra.
  specialize (Hq Ht1 ltac:(discriminate)).
  change (- prec binary64)%Z with (-53)%Z in Hq. rewrite E53' in Hq.
  set (q := round binary64 t) in *.
  apply Rabs_le_between in Hq.
  set (eps := (/ 9007199254740992)%R) in *.
  assert (Heps : eps = (/ 9007199254740992)%R) by reflexivity.
  assert (Hq0 : (0 < q)%R) by nra.
  (* the square root *)
  destruct (sqrt_near_1 eps ltac:(lra)) as [Hlo Hhi].
  assert (Hsq1 : (sqrt t * (1 - eps) <= sqrt q)%R).
  { apply Rle_trans with (sqrt t * sqrt (1 - eps))%R.
    - apply Rmult_le_compat_l; [apply sqrt_pos | exact Hlo].
    - rewrite <- sqrt_mult by lra. apply sqrt_le_1; nra. }
  assert (Hsq2 : (sqrt q <= sqrt t * (1 + eps))%R).
  { apply Rle_trans with (sqrt t * sqrt (1 + eps))%R.
    - rewrite <- sqrt_mult by lra. apply sqrt_le_1; nra.
    - apply Rmult_le_compat_l; [apply sqrt_pos | exact Hhi]. }
  assert (Hsq3 : (/ 67108864 <= sqrt q)%R).
  { rewrite <- E26'. rewrite <- (sqrt_bpow_even (-26)).
    apply sqrt_le_1; [left; apply bpow_pos | lra |].
    change (-26 + -26)%Z with (-52)%Z. rewrite E52'. nra. }
  pose proof (round_error binary64 (sqrt q) (-26)) as Hs.
  rewrite E26', (Rabs_pos_eq (sqrt q)) in Hs by lra.
  specialize (Hs Hsq3 ltac:(discriminate)).
  change (- prec binary64)%Z with (-53)%Z in Hs. rewrite E53' in Hs.
  fold eps in Hs.
  set (s := round binary64 (sqrt q)) in *.
  apply Rabs_le_between in Hs.
  pose proof (sqrt_pos t) as Hb0.
  assert (Hs3 : (/ 134217728 <= s)%R) by nra.
  (* the conversion to float32 *)
  pose proof (round_error binary32 s (-27)) as Hb.
  rewrite E27', (Rabs_pos_eq s) in Hb by lra.
  specialize (Hb Hs3 ltac:(discriminate)).
  change (- prec binary32)%Z with (-24)%Z in Hb. rewrite E24' in Hb.
  apply Rabs_le_between in Hb.
  set (b32 := round binary32 s) in *. set (b := sqrt t) in *.
  apply Rabs_le. simpl pow.
  assert (Hs_hi : (s <= b * ((1 + eps) * (1 + eps)))%R) by nra.
  assert (Hs_lo : (b * ((1 - eps) * (1 - eps)) <= s)%R) by nra.
  rewrite Heps in Hs_hi, Hs_lo.
  split; nra.
Qed.

Lemma glorot_bound32_close_witness :
  0 < 32 + 16 /\ (Z.of_nat (32 + 16) < 2 ^ 53)%Z
  /\ (Rabs (glorot_bound32 32 16 - glorot_bound 32 16)
      <= glorot_bound 32 16 / 2 ^ 23)%R.
Proof.
  assert (Hpos : 0 < 32 + 16) by lia.
  assert (Hsmall : (Z.of_nat (32 + 16) < 2 ^ 53)%Z) by reflexivity.
  split; [exact Hpos | split; [exact Hsmall |]].
  exact (glorot_bound32_close 32 16 Hpos Hsmall).
Defined.

(** ** The decoder *)

Lemma nth_rows (g : nat -> nat -> R) (c : nat) :
  forall (r start i j : nat),
    i < r -> j < c ->
    nth (i * c + j)
        (flat_map (fun i => map (g i) (seq 0 c)) (seq start r)) 0%R
    = g (start + i) j.
Proof.
  induction r as [| r IH]; intros start i j Hi Hj; [lia |].
  simpl flat_map. destruct i as [| i].
  - simpl. rewrite app_nth1 by (rewrite length_map, length_seq; exact Hj).
    rewrite (nth_indep _ 0%R (g start 0))
      by (rewrite length_map, length_seq; exact Hj).
    rewrite map_nth, seq_nth by exact Hj.
    rewrite Nat.add_0_r. reflexivity.
  - rewrite app_nth2 by (rewrite length_map, length_seq; simpl; lia).
    rewrite length_map, length_seq.
    replace (S i * c + j - c) with (i * c + j) by (simpl; lia).
    rewrite IH by lia. f_equal. lia.
Qed.

Lemma length_rows (g : nat -> nat -> R) (c : nat) :
  forall r start,
    length (flat_map (fun i => map (g i) (seq 0 c)) (seq start r)) = r * c.
Proof.
  induction r as [| r IH]; intros start; simpl; [reflexivity |].
  rewrite length_app, length_map, length_seq, IH. reflexivity.
Qed.

Lemma flatten_length (m : tensor) : length (flatten m) = nrows m * ncols m.
Proof. apply length_rows. Qed.

Lemma flatten_nth (m : tensor) (i j : nat) :
  i < nrows m -> j < ncols m ->
  nth (i * ncols m + j) (flatten m) 0%R = entry m i j.
Proof. intros Hi Hj. unfold flatten. rewrite nth_rows; auto. Qed.

Lemma dropout_nrows (x : tensor) (keep_prob : R) (noise : nat -> nat -> R) :
  nrows (dropout x keep_prob noise) = nrows x.
Proof. unfold dropout. destruct (Req_dec_T keep_prob 1); reflexivity. Qed.

Lemma dropout_none (x : tensor) (noise : nat -> nat -> R) :
  dropout x (1 - 0) noise = x.
Proof. unfold dropout. destruct (Req_dec_T (1 - 0) 1); [reflexivity | lra]. Qed.

(** C7.  The decoder returns, row after row, [act] of the inner products of
    the rows of the embedding matrix after dropout; the activation is the
    sigmoid unless one is given; [GCNModel] gives the identity and no
    dropout rate, so [model.reconstructions] holds the inner products of the
    rows of [model.embeddings] themselves. *)
Theorem decoder_inner_products :
  (forall (self : InnerProductDecoder) (inputs : tensor)
          (noise : nat -> nat -> R),
      let E_drop := dropout inputs (1 - decoder_dropout self) noise in
      let N := nrows inputs in
      decoder_call self inputs noise
      = map (decoder_act self) (flatten (matmul E_drop (transpose E_drop)))
      /\ length (decoder_call self inputs noise) = N * N
      /\ forall i j, i < N -> j < N ->
           nth (i * N + j) (decoder_call self inputs noise) 0%R
           = decoder_act self (gram E_drop i j))
  /\ (forall dropout, decoder_act (new_InnerProductDecoder dropout None)
                      = sigmoid)
  /\ (forall (embeddings : tensor) (noise : nat -> nat -> R),
         let N := nrows embeddings in
         reconstructions embeddings noise
         = flatten (matmul embeddings (transpose embeddings))
         /\ length (reconstructions embeddings noise) = N * N
         /\ forall i j, i < N -> j < N ->
              nth (i * N + j) (reconstructions embeddings noise) 0%R
              = gram embeddings i j).
Proof.
  assert (Hgen : forall (self : InnerProductDecoder) (inputs : tensor)
                        (noise : nat -> nat -> R),
             let E_drop := dropout inputs (1 - decoder_dropout self) noise in
             let N := nrows inputs in
             decoder_call self inputs noise
             = map (decoder_act self)
                   (flatten (matmul E_drop (transpose E_drop)))
             /\ length (decoder_call self inputs noise) = N * N
             /\ forall i j, i < N -> j < N ->
                  nth (i * N + j) (decoder_call self inputs noise) 0%R
                  = decoder_act self (gram E_drop i j)).
  { intros self inputs noise E_drop N.
    assert (HN : nrows E_drop = N) by apply dropout_nrows.
    unfold decoder_call. fold E_drop.
    split; [reflexivity | split].
    - rewrite length_map, flatten_length. simpl. rewrite HN. reflexivity.
    - intros i j Hi Hj.
      assert (Hlt : i * N + j < length (flatten (matmul E_drop
                                                        (transpose E_drop)))).
      { rewrite flatten_length. simpl. rewrite HN. nia. }
      rewrite (nth_indep _ 0%R (decoder_act self 0%R))
        by (rewrite length_map; exact Hlt).
      rewrite map_nth. f_equal.
      pose proof (flatten_nth (matmul E_drop (transpose E_drop)) i j) as Hn.
      simpl in Hn. rewrite HN in Hn. rewrite Hn by assumption.
      reflexivity. }
  split; [exact Hgen | split; [reflexivity |]].
  intros embeddings noise N.
  destruct (Hgen (new_InnerProductDecoder None (Some (fun x => x)))
                 embeddings noise) as [Heq [Hlen Hnth]].
  simpl decoder_dropout in *. simpl decoder_act in *.
  rewrite dropout_none in *. rewrite map_id in Heq.
  unfold reconstructions. repeat split; assumption.
Qed.

Lemma decoder_inner_products_witness :
  1 < nrows emb33 /\ 2 < nrows emb33
  /\ length (reconstructions emb33 half_noise) = 9
  /\ nth (1 * nrows emb33 + 2) (reconstructions emb33 half_noise) 0%R
     = gram emb33 1 2.
Proof.
  assert (H1 : 1 < nrows emb33) by (simpl; lia).
  assert (H2 : 2 < nrows emb33) by (simpl; lia).
  destruct decoder_inner_products as [_ [_ Hmodel]].
  destruct (Hmodel emb33 half_noise) as [_ [Hlen Hnth]].
  split; [exact H1 | split; [exact H2 | split; [exact Hlen |]]].
  exact (Hnth 1 2 H1 H2).
Defined.

(** ** The evaluator *)

Lemma score_edges_length (adj_rec : tensor) (adj_orig : spmatrix Z) :
  forall (edges : list edge) (preds : list R) (orig : list Z),
    score_edges adj_rec adj_orig edges = Returns (preds, orig) ->
    length preds = length edges.
Proof.
  induction edges as [| e edges IH]; simpl; intros preds orig H.
  - injection H as <- <-. reflexivity.
  - invert_bind H. invert_bind H. invert_bind H.
    destruct a1 as [preds' orig']. injection H as <- <-.
    simpl. f_equal. eapply IH. eassumption.
Qed.

(** C10.  The label vector is [len(edges_pos)] ones followed by
    [len(edges_pos)] zeros, while the score vector has one score per
    positive and per negative edge: the two have the same length exactly
    when there are as many negative as positive edges, and with different
    numbers the metric raises instead of returning a score. *)
Theorem labels_from_positives
        (roc_auc_score average_precision_score : list R -> list R -> outcome R)
        (emb : tensor) (adj_orig : spmatrix Z)
        (edges_pos edges_neg : list edge) (preds_all labels_all : list R) :
  preds_and_labels emb adj_orig edges_pos edges_neg
  = Returns (preds_all, labels_all) ->
  labels_all
  = repeat 1%R (length edges_pos) ++ repeat 0%R (length edges_pos)
  /\ length preds_all = length edges_pos + length edges_neg
  /\ (length labels_all = length preds_all
      <-> length edges_pos = length edges_neg)
  /\ (length edges_pos <> length edges_neg ->
      get_roc_score roc_auc_score average_precision_score emb adj_orig
                    edges_pos edges_neg
      = Raises "ValueError")
  /\ (forall r,
         get_roc_score roc_auc_score average_precision_score emb adj_orig
                       edges_pos edges_neg
         = Returns r ->
         length edges_pos = length edges_neg
         /\ snd (fst r) = labels_all /\ snd r = preds_all).
Proof.
  intros H. unfold get_roc_score. rewrite H. cbn [bind].
  unfold preds_and_labels in H.
  invert_bind H. destruct a as [preds pos]. rename Ha into Hpos.
  invert_bind H. destruct a as [preds_neg neg]. rename Ha into Hneg.
  injection H as <- <-.
  apply score_edges_length in Hpos, Hneg.
  assert (Hl : length (repeat 1%R (length preds)
                       ++ repeat 0%R (length preds))
               = length preds + length preds)
    by (rewrite length_app, !repeat_length; reflexivity).
  assert (Hp : length (preds ++ preds_neg)
               = length edges_pos + length edges_neg)
    by (rewrite length_app; lia).
  split; [rewrite Hpos; reflexivity |].
  split; [exact Hp |].
  split; [rewrite Hl, Hp; lia |].
  unfold checked. rewrite Hl, Hp, Hpos.
  destruct (Nat.eqb_spec (length edges_pos + length edges_pos)
                         (length edges_pos + length edges_neg))
    as [Heq | Hne].
  - split; [intros Hd; lia |].
    intros r Hr. invert_bind Hr. invert_bind Hr. injection Hr as <-.
    simpl. repeat split. lia.
  - split; [reflexivity |]. intros r Hr. discriminate Hr.
Qed.

Lemma labels_from_positives_witness :
  exists preds_all : list R,
    preds_and_labels emb33 adj3 [(0, 1); (1, 2)] [(0, 2)]
    = Returns (preds_all, [1; 1; 0; 0]%R)
    /\ length preds_all = 3
    /\ get_roc_score no_metric no_metric emb33 adj3 [(0, 1); (1, 2)] [(0, 2)]
       = Raises "ValueError".
Proof.
  eexists.
  assert (H : preds_and_labels emb33 adj3 [(0, 1); (1, 2)] [(0, 2)]
              = Returns (_, [1; 1; 0; 0]%R)) by reflexivity.
  split; [exact H |].
  destruct (labels_from_positives no_metric no_metric emb33 adj3
              [(0, 1); (1, 2)] [(0, 2)] _ _ H)
    as [_ [Hlen [_ [Hraise _]]]].
  split; [exact Hlen | apply Hraise; simpl; lia].
Defined.

(** ** The training loop *)

Section TrainingFacts.

Variable session : Type.
Variable sess_run : session -> session * Q.
Variable validate : session -> outcome unit.
Variable epochs : Z.

Lemma loop_test_spec (st : loop_state session) :
  loop_test epochs st = true
  <-> (epoch st < epochs)%Z /\ (1 # 1000 < temp_train_loss st)%Q.
Proof.
  unfold loop_test.
  rewrite andb_true_iff, Z.ltb_lt, negb_true_iff.
  split; intros [He Hl]; (split; [exact He |]).
  - apply Qnot_le_lt. intros Hle. apply Qle_bool_iff in Hle. congruence.
  - apply not_true_is_false. intros Hle. apply Qle_bool_iff in Hle.
    apply (Qlt_not_le _ _ Hl). exact Hle.
Qed.

Lemma loop_test_stops (st : loop_state session) :
  loop_test epochs st = false
  <-> (epochs <= epoch st)%Z \/ (temp_train_loss st <= 1 # 1000)%Q.
Proof.
  split.
  - intros H.
    destruct (Z.lt_ge_cases (epoch st) epochs) as [Hlt | Hge];
      [| left; exact Hge].
    destruct (Qlt_le_dec (1 # 1000) (temp_train_loss st)) as [Hl | Hl];
      [| right; exact Hl].
    assert (loop_test epochs st = true)
      by (apply loop_test_spec; split; assumption).
    congruence.
  - intros H. apply not_true_is_false. intros Ht.
    apply loop_test_spec in Ht. destruct Ht as [He Hl].
    destruct H as [H | H]; [lia | exact (Qlt_not_le _ _ Hl H)].
Qed.

Lemma after_shift (k : nat) (st : loop_state session) :
  after sess_run validate (S k) st
  = bind (loop_body sess_run validate st) (after sess_run validate k).
Proof.
  induction k as [| k IH].
  - simpl. destruct (loop_body sess_run validate st); reflexivity.
  - change (after sess_run validate (S (S k)) st)
      with (bind (after sess_run validate (S k) st)
                 (loop_body sess_run validate)).
    rewrite IH.
    destruct (loop_body sess_run validate st) as [st1 | |]; reflexivity.
Qed.

(** What one epoch does to the state: the counter moves by one and the
    loss kept for the next test is the loss this epoch reported. *)
Lemma loop_body_returns (st st' : loop_state session) :
  loop_body sess_run validate st = Returns st' ->
  epoch st' = (epoch st + 1)%Z
  /\ temp_train_loss st' = snd (sess_run (sess st))
  /\ printed st' = printed st ++ [(epoch st', temp_train_loss st')].
Proof.
  unfold loop_body. destruct (sess_run (sess st)) as [s' c].
  intros H. invert_bind H. injection H as <-. simpl. auto.
Qed.

Lemma after_epoch (k : nat) :
  forall st st', after sess_run validate k st = Returns st' ->
                 epoch st' = (epoch st + Z.of_nat k)%Z.
Proof.
  induction k as [| k IH]; intros st st' H.
  - injection H as <-. lia.
  - simpl in H. invert_bind H. apply IH in Ha.
    apply loop_body_returns in H. destruct H as [He _]. lia.
Qed.

(** A returning loop went through some number [T] of epochs: the test
    held before each of them and fails in the final state. *)
Lemma train_returns :
  forall (fuel : nat) (st final : loop_state session),
    train sess_run validate epochs fuel st = Returns final ->
    exists T : nat,
      after sess_run validate T st = Returns final
      /\ loop_test epochs final = false
      /\ forall k, k < T ->
           exists st_k,
             after sess_run validate k st = Returns st_k
             /\ loop_test epochs st_k = true.
Proof.
  induction fuel as [| fuel IH]; intros st final H; simpl in H;
    destruct (loop_test epochs st) eqn:Htest;
    try discriminate.
  - injection H as <-. exists 0.
    split; [reflexivity | split; [exact Htest |]]. intros k Hk. lia.
  - invert_bind H. rename a into st1.
    destruct (IH st1 final H) as [T [Hafter [Hstop Hran]]].
    exists (S T). split; [| split; [exact Hstop |]].
    + rewrite after_shift, Ha. exact Hafter.
    + intros [| k] Hk.
      * exists st. split; [reflexivity | exact Htest].
      * destruct (Hran k) as [st_k [Hk1 Hk2]]; [lia |].
        exists st_k. split; [| exact Hk2].
        rewrite after_shift, Ha. exact Hk1.
  - injection H as <-. exists 0.
    split; [reflexivity | split; [exact Htest |]]. intros k Hk. lia.
Qed.

(** The loop ends within [epochs] turns when the evaluation of the
    validation set does not raise. *)
Lemma train_terminates :
  (forall s, validate s = Returns tt) ->
  forall (fuel : nat) (st : loop_state session),
    (epochs - epoch st <= Z.of_nat fuel)%Z ->
    exists final, train sess_run validate epochs fuel st = Returns final.
Proof.
  intros Hval. induction fuel as [| fuel IH]; intros st Hfuel; simpl;
    destruct (loop_test epochs st) eqn:Htest;
    try (exists st; reflexivity).
  - apply loop_test_spec in Htest. lia.
  - apply loop_test_spec in Htest.
    unfold loop_body.
    destruct (sess_run (sess st)) as [s' c]. rewrite Hval. cbn [bind].
    apply IH. simpl. lia.
Qed.

(** C6.  Epoch [k + 1] is run exactly when [k < epochs] and the loss that
    epoch [k] reported (1.0 before the first epoch) exceeds 0.001; the
    loop stops in the first state with [epoch >= epochs] or with that loss
    at most 0.001; the loss tested is the very [avg_cost] of the last
    epoch.  The loop ends within [epochs] turns. *)
Theorem training_loop_stopping (sess0 : session) :
  ((forall s, validate s = Returns tt) ->
   exists final,
     train sess_run validate epochs (Z.to_nat epochs) (initial sess0)
     = Returns final)
  /\ forall (fuel : nat) (final : loop_state session),
      train sess_run validate epochs fuel (initial sess0) = Returns final ->
      exists T : nat,
        after sess_run validate T (initial sess0) = Returns final
        /\ epoch final = Z.of_nat T
        /\ (forall k st,
               k <= T ->
               after sess_run validate k (initial sess0) = Returns st ->
               (k < T
                <-> (Z.of_nat k < epochs)%Z
                    /\ (1 # 1000 < temp_train_loss st)%Q))
        /\ ((epochs <= epoch final)%Z
            \/ (temp_train_loss final <= 1 # 1000)%Q)
        /\ (forall k st st',
               after sess_run validate k (initial sess0) = Returns st ->
               after sess_run validate (S k) (initial sess0) = Returns st' ->
               temp_train_loss st' = snd (sess_run (sess st))
               /\ printed st'
                  = printed st ++ [(Z.of_nat (S k), temp_train_loss st')]).
Proof.
  split.
  - intros Hval. apply train_terminates; [exact Hval |]. simpl. lia.
  - intros fuel final H.
    destruct (train_returns fuel _ _ H) as [T [Hafter [Hstop Hran]]].
    exists T. split; [exact Hafter |].
    split; [rewrite (after_epoch T _ _ Hafter); simpl; lia |].
    split; [| split].
    + intros k st Hk Hst. split.
      * intros Hlt. destruct (Hran k Hlt) as [st_k [Hk1 Hk2]].
        rewrite Hst in Hk1. injection Hk1 as <-.
        apply loop_test_spec in Hk2.
        rewrite (after_epoch k _ _ Hst) in Hk2. simpl in Hk2. exact Hk2.
      * intros Hcond.
        destruct (Nat.eq_dec k T) as [-> | Hne]; [| lia].
        rewrite Hafter in Hst. injection Hst as <-.
        assert (Ht : loop_test epochs final = true).
        { apply loop_test_spec.
          rewrite (after_epoch T _ _ Hafter). simpl. exact Hcond. }
        congruence.
    + apply loop_test_stops. exact Hstop.
    + intros k st st' Hst Hst'. simpl in Hst'. rewrite Hst in Hst'.
      cbn [bind] in Hst'.
      destruct (loop_body_returns _ _ Hst') as [He [Hl Hp]].
      split; [exact Hl |]. rewrite Hp. do 3 f_equal.
      rewrite He, (after_epoch k _ _ Hst). simpl. lia.
Qed.

End TrainingFacts.

Lemma training_loop_stopping_witness :
  (forall s, quiet s = Returns tt)
  /\ (exists final,
         train counting_run quiet 5 (Z.to_nat 5) (initial 0) = Returns final)
  /\ train counting_run quiet 5 5 (initial 0) = Returns counting_final
  /\ exists T : nat,
      after counting_run quiet T (initial 0) = Returns counting_final
      /\ epoch counting_final = Z.of_nat T
      /\ ((5 <= epoch counting_final)%Z
          \/ (temp_train_loss counting_final <= 1 # 1000)%Q).
Proof.
  assert (H : train counting_run quiet 5 5 (initial 0)
              = Returns counting_final) by reflexivity.
  assert (Hq : forall s, quiet s = Returns tt) by reflexivity.
  destruct (training_loop_stopping nat counting_run quiet 5 0)
    as [Hends Hloop].
  split; [exact Hq | split; [exact (Hends Hq) | split; [exact H |]]].
  destruct (Hloop 5 counting_final H) as [T [Ha [He [_ [Hs _]]]]].
  exists T. split; [exact Ha | split; [exact He | exact Hs]].
Defined.

(** ** The cost and the number of edges it is given *)

Lemma zsum_add (l : list nat) (f g : nat -> Z) :
  zsum l (fun k => (f k + g k)%Z) = (zsum l f + zsum l g)%Z.
Proof.
  unfold zsum. induction l as [| a l IH]; simpl; [reflexivity | lia].
Qed.

Lemma zsum_ext (l : list nat) (f g : nat -> Z) :
  (forall k, In k l -> f k = g k) -> zsum l f = zsum l g.
Proof.
  intros H. unfold zsum. f_equal. apply map_ext_in. exact H.
Qed.

Lemma zsum_swap (l1 l2 : list nat) (f : nat -> nat -> Z) :
  zsum l1 (fun i => zsum l2 (fun j => f i j))
  = zsum l2 (fun j => zsum l1 (fun i => f i j)).
Proof.
  induction l1 as [| a l1 IH].
  - transitivity 0%Z; [reflexivity |].
    induction l2 as [| b l2 IH2]; [reflexivity |].
    unfold zsum in *. simpl in *. rewrite <- IH2. reflexivity.
  - change (zsum (a :: l1) (fun i => zsum l2 (fun j => f i j)))
      with (zsum l2 (fun j => f a j)
            + zsum l1 (fun i => zsum l2 (fun j => f i j)))%Z.
    rewrite IH, <- zsum_add. reflexivity.
Qed.

Lemma length_flat_map_Z {A B : Type} (f : A -> list B) (l : list A) :
  Z.of_nat (length (flat_map f l))
  = fold_right Z.add 0%Z (map (fun x => Z.of_nat (length (f x))) l).
Proof.
  induction l as [| a l IH]; simpl; [reflexivity |].
  rewrite length_app, Nat2Z.inj_add, IH. reflexivity.
Qed.

Lemma coords_length (m : spmatrix Z) :
  Z.of_nat (length (coords m))
  = zsum (seq 0 (order m))
         (fun i => zsum (seq 0 (order m))
                        (fun j => if (coeff m i j =? 0)%Z then 0 else 1)%Z).
Proof.
  unfold coords. rewrite length_flat_map_Z.
  apply zsum_ext. intros i _. rewrite length_flat_map_Z.
  apply zsum_ext. intros j _.
  destruct (coeff m i j =? 0)%Z; reflexivity.
Qed.

(** On a simple graph [adj.sum()] counts every edge twice. *)
Lemma matrix_sum_simple (adj : spmatrix Z) :
  simple_graph adj ->
  matrix_sum adj = (2 * Z.of_nat (length (unique_edges adj)))%Z.
Proof.
  intros [Hsym [H01 Hdiag]].
  set (u := fun i j => if i <? j then coeff adj i j else 0%Z).
  set (n := seq 0 (order adj)).
  assert (Hedges : Z.of_nat (length (unique_edges adj))
                   = zsum n (fun i => zsum n (fun j => u i j))).
  { unfold unique_edges, sparse_to_tuple. simpl fst.
    rewrite coords_length. simpl order. fold n.
    apply zsum_ext. intros i Hi. apply zsum_ext. intros j Hj.
    apply in_seq in Hi, Hj. unfold u. simpl.
    destruct (Nat.leb_spec i j) as [Hle | Hgt];
      destruct (Nat.ltb_spec i j) as [Hlt | Hge]; try lia; try reflexivity.
    - destruct (Nat.eqb_spec i j) as [-> | Hne]; [lia |].
      destruct (H01 i j) as [-> | ->]; try lia; reflexivity.
    - assert (i = j) by lia. subst j. rewrite Nat.eqb_refl, Z.sub_diag.
      reflexivity. }
  assert (Hsplit : matrix_sum adj
                   = (zsum n (fun i => zsum n (fun j => u i j))
                      + zsum n (fun i => zsum n (fun j => u j i)))%Z).
  { unfold matrix_sum. fold n. rewrite <- zsum_add.
    apply zsum_ext. intros i Hi. rewrite <- zsum_add.
    apply zsum_ext. intros j Hj. apply in_seq in Hi, Hj. unfold u.
    destruct (Nat.ltb_spec i j) as [Hij | Hij];
      destruct (Nat.ltb_spec j i) as [Hji | Hji]; try lia.
    - rewrite (Hsym j i) by lia. lia.
    - assert (i = j) by lia. subst j. rewrite Hdiag by lia. reflexivity. }
  rewrite Hsplit, Hedges.
  rewrite (zsum_swap n n (fun i j => u j i)). lia.
Qed.

(** C3, as the code has it.  The cost is
    [norm * mean(weighted_cross_entropy_with_logits(...))] over the
    flattened training label matrix with [pos_weight = (N^2 - E) / E] and
    [norm = N^2 / (2 * (N^2 - E))], where [N] is the number of nodes and [E]
    is [adj.sum()] of the matrix that was loaded, before the split: on a
    simple graph, twice the number of its undirected edges. *)
Theorem cost_of_unsplit_sum (adj : spmatrix Z) (s : split) (preds : list R) :
  let N2 := (INR (num_nodes adj) * INR (num_nodes adj))%R in
  let E := IZR (matrix_sum adj) in
  opt_cost adj s preds
  = (N2 / (2 * (N2 - E))
     * reduce_mean
         (weighted_cross_entropy_with_logits
            preds (to_dense_flat (adj_label s)) ((N2 - E) / E)))%R
  /\ (simple_graph adj ->
      matrix_sum adj = (2 * Z.of_nat (length (unique_edges adj)))%Z).
Proof.
  intros N2 E. split; [| apply matrix_sum_simple].
  unfold opt_cost, Optimizer_cost, pos_weight, norm, num_edges.
  assert (Hsq : IZR (squared (num_nodes adj)) = N2).
  { unfold squared, N2. rewrite Z.pow_2_r, mult_IZR, <- INR_IZR_INZ.
    reflexivity. }
  rewrite mult_IZR, !minus_IZR, Hsq. fold E.
  replace ((N2 - E) * 2)%R with (2 * (N2 - E))%R by ring.
  reflexivity.
Qed.

Lemma path51_simple : simple_graph path51.
Proof.
  split; [| split].
  - intros i j _ _. simpl. rewrite orb_comm. reflexivity.
  - intros i j _ _. simpl.
    destruct ((j =? i + 1) || (i =? j + 1)); [right | left]; reflexivity.
  - intros i _. simpl.
    destruct (Nat.eqb_spec i (i + 1)) as [H | _]; [lia | reflexivity].
Qed.

Lemma cost_of_unsplit_sum_witness :
  simple_graph path51
  /\ matrix_sum path51 = (2 * Z.of_nat (length (unique_edges path51)))%Z
  /\ matrix_sum path51 = 100%Z.
Proof.
  split; [exact path51_simple |].
  destruct (cost_of_unsplit_sum path51 split_path51 []) as [_ H].
  split; [exact (H path51_simple) |].
  rewrite (H path51_simple). reflexivity.
Defined.

(** C3, as stated, fails on the path [0 - 1 - ... - 50]: [adj.sum()] is
    100 while the training label matrix has 147 entries set (48 training
    edges in both directions and 51 self-loops), and the two give different
    values of [pos_weight] and of [norm]. *)
Lemma cost_edge_count_mismatch :
  mask_test_edges Strict path51 rs_path51 1 = Returns split_path51
  /\ num_nodes path51 = 51
  /\ num_edges path51 = 100%Z
  /\ label_entries split_path51 = 147%Z
  /\ pos_weight (num_nodes path51) (num_edges path51)
     <> pos_weight (num_nodes path51) (label_entries split_path51)
  /\ norm (num_nodes path51) (num_edges path51)
     <> norm (num_nodes path51) (label_entries split_path51).
Proof.
  assert (He : num_edges path51 = 100%Z) by (vm_compute; reflexivity).
  assert (Hl : label_entries split_path51 = 147%Z)
    by (vm_compute; reflexivity).
  split; [reflexivity | split; [reflexivity |]].
  split; [exact He | split; [exact Hl |]].
  rewrite He, Hl. unfold pos_weight, norm, squared, num_nodes. simpl.
  split; lra.
Qed.

(** ** The matrix that the notebook normalises

    [adj_norm = preprocess_graph(adj)] is called on [adj = adj_train].
    Whatever matrix was loaded, [adj_train] is the adjacency matrix of a
    simple graph: symmetric, with entries 0 and 1 and a zero diagonal. *)

Lemma NoDup_flat_map {A B : Type} (f : A -> list B) (l : list A) :
  NoDup l ->
  (forall x, In x l -> NoDup (f x)) ->
  (forall x y b, In x l -> In y l -> In b (f x) -> In b (f y) -> x = y) ->
  NoDup (flat_map f l).
Proof.
  induction l as [| a l IH]; intros Hl Hf Hinj; simpl; [constructor |].
  inversion Hl as [| ? ? Ha Hl']; subst.
  apply NoDup_app.
  - apply Hf. left. reflexivity.
  - apply IH; [exact Hl' | |].
    + intros x Hx. apply Hf. right. exact Hx.
    + intros x y b Hx Hy. apply Hinj; right; assumption.
  - intros b Hb Hb'. apply in_flat_map in Hb'. destruct Hb' as [y [Hy Hby]].
    assert (a = y)
      by (apply (Hinj a y b); [left; reflexivity | right; exact Hy | | ];
          assumption).
    subst y. contradiction.
Qed.

Lemma coords_NoDup (m : spmatrix Z) : NoDup (coords m).
Proof.
  assert (Hcell : forall i j b,
             In b (if (coeff m i j =? 0)%Z then [] else [(i, j)]) ->
             b = (i, j)).
  { intros i j b Hb. destruct (coeff m i j =? 0)%Z; [destruct Hb |].
    destruct Hb as [<- | []]. reflexivity. }
  unfold coords. apply NoDup_flat_map.
  - apply seq_NoDup.
  - intros i _. apply NoDup_flat_map.
    + apply seq_NoDup.
    + intros j _. destruct (coeff m i j =? 0)%Z; repeat constructor.
      intros [].
    + intros j j' b _ _ Hb Hb'.
      apply Hcell in Hb, Hb'. congruence.
  - intros i i' b _ _ Hb Hb'.
    apply in_flat_map in Hb, Hb'.
    destruct Hb as [j [_ Hb]]. destruct Hb' as [j' [_ Hb']].
    apply Hcell in Hb, Hb'. congruence.
Qed.

Lemma kept_rows_NoDup {A : Type} (keep : nat * A -> bool) :
  forall (arr : list A) (ks : list nat),
    NoDup arr -> NoDup (map snd (filter keep (combine ks arr))).
Proof.
  induction arr as [| a arr IH]; intros ks Hnd.
  - destruct ks; constructor.
  - destruct ks as [| k ks]; [constructor |].
    inversion Hnd as [| ? ? Ha Hnd']; subst. simpl.
    destruct (keep (k, a)); simpl; [| apply IH; exact Hnd'].
    constructor; [| apply IH; exact Hnd'].
    intros Hin. apply in_map_iff in Hin. destruct Hin as [[k' a'] [Heq Hin]].
    simpl in Heq. subst a'. apply filter_In in Hin. destruct Hin as [Hin _].
    apply Ha. eapply in_combine_r. exact Hin.
Qed.

Lemma delete_rows_NoDup {A : Type} (arr : list A) (obj : list nat) :
  NoDup arr -> NoDup (delete_rows arr obj).
Proof. intros H. unfold delete_rows. apply kept_rows_NoDup. exact H. Qed.

Lemma count_edge_absent (e : edge) (l : list edge) :
  ~ In e l -> count_edge e l = 0%Z.
Proof.
  induction l as [| e' l IH]; intros Hin; simpl; [reflexivity |].
  destruct (edge_eqb e e') eqn:Heq.
  - apply edge_eqb_eq in Heq. subst e'. exfalso. apply Hin. left. reflexivity.
  - rewrite IH; [reflexivity |]. intros H. apply Hin. right. exact H.
Qed.

Lemma count_edge_NoDup (e : edge) (l : list edge) :
  NoDup l -> In e l -> count_edge e l = 1%Z.
Proof.
  induction l as [| e' l IH]; intros Hnd Hin; [destruct Hin |].
  inversion Hnd as [| ? ? He' Hnd']; subst. simpl.
  destruct (edge_eqb e e') eqn:Heq.
  - apply edge_eqb_eq in Heq. subst e'.
    rewrite count_edge_absent by exact He'. reflexivity.
  - destruct Hin as [-> | Hin].
    + assert (edge_eqb e e = true) by (apply edge_eqb_eq; reflexivity).
      congruence.
    + rewrite IH by assumption. reflexivity.
Qed.

Lemma adj_train_simple (np : numpy_release) (adj : spmatrix Z)
      (rs : RandomState) (fuel : nat) (s : split) :
  mask_test_edges np adj rs fuel = Returns s ->
  order (adj_train s) = order adj /\ simple_graph (adj_train s).
Proof.
  intros H.
  assert (Hsub : forall e, In e (train_edges s) -> In e (unique_edges adj)).
  { intros e He. eapply positives_are_edges; [exact H | left; exact He]. }
  apply mask_test_edges_returns in H.
  destruct H as [rs1 [rs2 [_ [_ [Htr [_ [_ Hadj]]]]]]].
  assert (Hnd : NoDup (train_edges s)).
  { rewrite Htr. apply delete_rows_NoDup. apply coords_NoDup. }
  assert (Hlt : forall i j, In (i, j) (train_edges s) -> i < j).
  { intros i j Hin. apply Hsub, unique_edges_In in Hin. tauto. }
  assert (Hcount : forall i j,
             count_edge (i, j) (train_edges s) = 0%Z
             \/ (count_edge (i, j) (train_edges s) = 1%Z /\ i < j)).
  { intros i j. destruct (ismember (i, j) (train_edges s)) eqn:Hm.
    - apply ismember_In in Hm. right.
      split; [apply count_edge_NoDup; assumption | apply Hlt; exact Hm].
    - apply ismember_false in Hm. left. apply count_edge_absent. exact Hm. }
  rewrite Hadj. split; [reflexivity |]. split; [| split].
  - intros i j _ _. simpl. lia.
  - intros i j _ _. simpl.
    destruct (Hcount i j) as [-> | [-> Hij]];
      destruct (Hcount j i) as [-> | [-> Hji]]; try lia.
  - intros i _. simpl.
    destruct (Hcount i i) as [-> | [_ Hii]]; lia.
Qed.

(** The hypotheses under which the normalised matrix is symmetric with
    entries in [[0, 1]] hold of the matrix that is normalised. *)
Lemma adj_train_normalisable (np : numpy_release) (adj : spmatrix Z)
      (rs : RandomState) (fuel : nat) (s : split) :
  mask_test_edges np adj rs fuel = Returns s ->
  symmetric (as_float (adj_train s))
  /\ unweighted (as_float (adj_train s))
  /\ zero_diagonal (as_float (adj_train s)).
Proof.
  intros H. destruct (adj_train_simple np adj rs fuel s H)
    as [_ [Hsym [H01 Hdiag]]].
  split; [| split].
  - intros i j Hi Hj. simpl. f_equal. apply Hsym; assumption.
  - intros i j Hi Hj. simpl.
    destruct (H01 i j Hi Hj) as [-> | ->]; [left | right]; reflexivity.
  - intros i Hi. simpl. rewrite Hdiag by exact Hi. reflexivity.
Qed.

(** * Further properties of the edge splitter *)

(** ** Every edge lands in exactly one of the three positive sets *)

Lemma take_rows_map {A : Type} (d : A) (arr : list A) (idx : list nat) :
  forall rows, take_rows arr idx = Returns rows ->
               rows = map (fun k => nth k arr d) idx.
Proof.
  induction idx as [| k idx IH]; simpl; intros rows H.
  - injection H as <-. reflexivity.
  - destruct (nth_error arr k) as [row |] eqn:Hk; [| discriminate].
    invert_bind H. injection H as <-.
    rewrite (nth_error_nth _ _ d Hk). f_equal. apply IH. exact Ha.
Qed.

Lemma combine_seq_nth {A : Type} (d : A) (arr : list A) :
  forall start,
    combine (seq start (length arr)) arr
    = map (fun k => (k, nth (k - start) arr d)) (seq start (length arr)).
Proof.
  induction arr as [| a arr IH]; intros start; simpl; [reflexivity |].
  rewrite Nat.sub_diag. f_equal. rewrite IH.
  apply map_ext_in. intros k Hk. apply in_seq in Hk.
  replace (k - start) with (S (k - S start)) by lia. reflexivity.
Qed.

Lemma delete_rows_map {A : Type} (d : A) (arr : list A) (obj : list nat) :
  delete_rows arr obj
  = map (fun k => nth k arr d)
        (filter (fun k => negb (existsb (Nat.eqb k) obj))
                (seq 0 (length arr))).
Proof.
  unfold delete_rows. rewrite (combine_seq_nth d), filter_map_swap, map_map.
  simpl. apply map_ext. intros k. rewrite Nat.sub_0_r. reflexivity.
Qed.

Lemma map_nth_seq {A : Type} (d : A) (arr : list A) :
  map (fun k => nth k arr d) (seq 0 (length arr)) = arr.
Proof.
  rewrite <- (map_snd_combine_seq arr 0) at 2.
  rewrite (combine_seq_nth d), map_map. simpl.
  apply map_ext. intros k. rewrite Nat.sub_0_r. reflexivity.
Qed.

Lemma existsb_eqb_In (k : nat) (obj : list nat) :
  existsb (Nat.eqb k) obj = true <-> In k obj.
Proof.
  rewrite existsb_exists. split.
  - intros [x [Hx Hk]]. apply Nat.eqb_eq in Hk. subst. exact Hx.
  - intros H. exists k. split; [exact H | apply Nat.eqb_refl].
Qed.

(** The deleted indices followed by the kept ones are all the indices. *)
Lemma deleted_and_kept (obj : list nat) (n : nat) :
  NoDup obj -> incl obj (seq 0 n) ->
  Permutation (obj ++ filter (fun k => negb (existsb (Nat.eqb k) obj))
                             (seq 0 n))
              (seq 0 n).
Proof.
  intros Hnd Hincl. apply NoDup_Permutation.
  - apply NoDup_app; [exact Hnd | apply NoDup_filter, seq_NoDup |].
    intros k Hk Hk'. apply filter_In in Hk'. destruct Hk' as [_ Hk'].
    apply negb_true_iff in Hk'. apply existsb_eqb_In in Hk. congruence.
  - apply seq_NoDup.
  - intros k. rewrite in_app_iff, filter_In, negb_true_iff. split.
    + intros [Hk | [Hk _]]; [apply Hincl; exact Hk | exact Hk].
    + intros Hk. destruct (existsb (Nat.eqb k) obj) eqn:He.
      * left. apply existsb_eqb_In. exact He.
      * right. split; [exact Hk | reflexivity].
Qed.

(** X1.  When the split returns, [val_edges], [test_edges] and
    [train_edges] together are a rearrangement of the edges of the graph:
    every edge is in exactly one of the three sets, as often as it is an
    edge.  [np.random.shuffle] leaves a permutation of [range(E)]. *)
Theorem split_partitions_edges (np : numpy_release) (adj : spmatrix Z)
        (rs : RandomState) (fuel : nat) (s : split) :
  Permutation (shuffled rs) (seq 0 (length (unique_edges adj))) ->
  mask_test_edges np adj rs fuel = Returns s ->
  Permutation (val_edges s ++ test_edges s ++ train_edges s)
              (unique_edges adj)
  /\ NoDup (val_edges s ++ test_edges s ++ train_edges s).
Proof.
  intros Hperm H.
  apply mask_test_edges_returns in H.
  destruct H as [rs1 [rs2 [Hte [Hve [Htr _]]]]].
  set (edges := unique_edges adj) in *.
  set (E := length edges) in *.
  set (k := E / 50) in *.
  set (get := fun i => nth i edges (0, 0)).
  apply (take_rows_map (0, 0)) in Hte, Hve. fold get in Hte, Hve.
  rewrite (delete_rows_map (0, 0)) in Htr. fold get E in Htr.
  set (obj := slice k (k + k) (shuffled rs) ++ slice 0 k (shuffled rs)) in *.
  assert (Hnd : NoDup (shuffled rs)).
  { eapply Permutation_NoDup; [symmetry; exact Hperm | apply seq_NoDup]. }
  assert (Hobj : NoDup obj).
  { eapply Permutation_NoDup.
    - symmetry. apply slices_permutation.
    - apply NoDup_firstn. exact Hnd. }
  assert (Hincl : incl obj (seq 0 E)).
  { intros i Hi.
    eapply Permutation_in; [exact Hperm |].
    eapply Permutation_in in Hi; [| apply slices_permutation].
    rewrite <- (firstn_skipn (k + k) (shuffled rs)).
    apply in_or_app. left. exact Hi. }
  assert (Hall : Permutation (val_edges s ++ test_edges s ++ train_edges s)
                             edges).
  { rewrite Hve, Hte, Htr, <- !map_app.
    rewrite <- (map_nth_seq (0, 0) edges) at 2. fold get E.
    apply Permutation_map.
    rewrite app_assoc.
    eapply Permutation_trans; [| exact (deleted_and_kept obj E Hobj Hincl)].
    apply Permutation_app_tail. unfold obj. apply Permutation_app_comm. }
  split; [exact Hall |].
  eapply Permutation_NoDup; [symmetry; exact Hall |].
  apply coords_NoDup.
Qed.

Lemma split_partitions_edges_witness :
  Permutation (shuffled rs_path51) (seq 0 (length (unique_edges path51)))
  /\ mask_test_edges Strict path51 rs_path51 1 = Returns split_path51
  /\ Permutation (val_edges split_path51 ++ test_edges split_path51
                  ++ train_edges split_path51)
                 (unique_edges path51)
  /\ NoDup (val_edges split_path51 ++ test_edges split_path51
            ++ train_edges split_path51).
Proof.
  assert (Hperm : Permutation (shuffled rs_path51)
                              (seq 0 (length (unique_edges path51))))
    by (vm_compute; apply Permutation_refl).
  assert (Hret : mask_test_edges Strict path51 rs_path51 1
                 = Returns split_path51)
    by reflexivity.
  split; [exact Hperm | split; [exact Hret |]].
  exact (split_partitions_edges Strict path51 rs_path51 1 split_path51
           Hperm Hret).
Defined.

Lemma test_negatives_disjoint_witness :
  symmetricZ path51
  /\ mask_test_edges Strict path51 rs_path51 1 = Returns split_path51
  /\ In (0, 2) (test_edges_false split_path51)
  /\ In (1, 2) (test_edges split_path51)
  /\ (1, 2) <> (0, 2) /\ (1, 2) <> (2, 0).
Proof.
  assert (Hsym : symmetricZ path51).
  { intros i j _ _. simpl. rewrite orb_comm. reflexivity. }
  assert (Hret : mask_test_edges Strict path51 rs_path51 1
                 = Returns split_path51) by reflexivity.
  assert (Hneg : In (0, 2) (test_edges_false split_path51))
    by (vm_compute; left; reflexivity).
  assert (Hpos : In (1, 2) (test_edges split_path51))
    by (vm_compute; left; reflexivity).
  split; [exact Hsym | split; [exact Hret |]].
  split; [exact Hneg | split; [exact Hpos |]].
  exact (test_negatives_disjoint Strict path51 rs_path51 1 split_path51
           Hsym Hret 0 2 Hneg (1, 2) (or_intror (or_intror Hpos))).
Defined.

Lemma val_negatives_disjoint_witness :
  mask_test_edges Strict path51 rs_path51 1 = Returns split_path51
  /\ In (1, 2) (val_edges_false split_path51)
  /\ In (0, 1) (val_edges split_path51)
  /\ (0, 1) <> (1, 2) /\ (0, 1) <> (2, 1).
Proof.
  assert (Hret : mask_test_edges Strict path51 rs_path51 1
                 = Returns split_path51) by reflexivity.
  assert (Hneg : In (1, 2) (val_edges_false split_path51))
    by (vm_compute; left; reflexivity).
  assert (Hpos : In (0, 1) (val_edges split_path51))
    by (vm_compute; left; reflexivity).
  split; [exact Hret | split; [exact Hneg | split; [exact Hpos |]]].
  exact (val_negatives_disjoint Strict path51 rs_path51 1 split_path51
           Hret 1 2 Hneg (0, 1) (or_intror Hpos)).
Defined.

(** ** What the negative pairs are *)

Lemma randint_range (rs rs' : RandomState) (n size : nat) (rnd : list nat) :
  randint rs 0 n size = Returns (rnd, rs') ->
  0 < n /\ Forall (fun v => v < n) rnd /\ length rnd = size.
Proof.
  unfold randint. destruct (Nat.leb_spec n 0) as [Hle | Hlt];
    [discriminate |].
  intros H. injection H as <- <-. split; [exact Hlt | split].
  - apply Forall_forall. intros v Hv. apply in_map_iff in Hv.
    destruct Hv as [k [<- _]]. simpl. rewrite Nat.sub_0_r.
    apply Nat.mod_upper_bound. lia.
  - rewrite length_map. apply length_seq.
Qed.

Lemma nth_below (n : nat) (l : list nat) (i : nat) :
  0 < n -> Forall (fun v => v < n) l -> nth i l 0 < n.
Proof.
  intros Hn Hl. destruct (Nat.lt_ge_cases i (length l)) as [Hi | Hi].
  - rewrite Forall_forall in Hl. apply Hl. apply nth_In. exact Hi.
  - rewrite nth_overflow by exact Hi. exact Hn.
Qed.

Lemma Forall_firstn_skipn (P : nat -> Prop) (k : nat) (l : list nat) :
  Forall P l -> Forall P (firstn k l) /\ Forall P (skipn k l).
Proof.
  intros H. rewrite <- (firstn_skipn k l) in H.
  apply Forall_app in H. exact H.
Qed.

Section DrawnPairs.

Variable rejects : list edge -> nat -> nat -> bool.
Variable n : nat.

(** An invariant of the list of negatives: it holds of the list at the
    start and is kept when a pair of nodes that is not rejected is added. *)
Variable inv : list edge -> Prop.
Hypothesis inv_kept :
  forall acc i j, inv acc -> i < n -> j < n -> rejects acc i j = false ->
                  inv (acc ++ [(i, j)]).

Lemma for_loop_inv (idxs_i idxs_j : list nat) :
  0 < n -> Forall (fun v => v < n) idxs_i -> Forall (fun v => v < n) idxs_j ->
  forall (range : list nat) (acc : list edge),
    inv acc ->
    inv (fold_left (for_body rejects idxs_i idxs_j) range acc).
Proof.
  intros Hn Hi Hj.
  induction range as [| i range IH]; intros acc Hacc; simpl; [exact Hacc |].
  apply IH. unfold for_body.
  destruct (rejects acc (nth i idxs_i 0) (nth i idxs_j 0)) eqn:Hr.
  - exact Hacc.
  - apply inv_kept; [exact Hacc | | | exact Hr]; apply nth_below; assumption.
Qed.

Lemma sample_false_inv (edges_pos : list edge) :
  forall (fuel : nat) (rs rs' : RandomState) (acc res : list edge),
    inv acc ->
    sample_false rejects fuel n edges_pos rs acc = Returns (res, rs') ->
    inv res.
Proof.
  induction fuel as [| fuel IH]; intros rs rs' acc res Hacc H; simpl in H;
    destruct (length acc <? length edges_pos);
    try discriminate;
    try (injection H as <- <-; exact Hacc).
  invert_bind H. destruct a as [rnd rs1].
  destruct (randint_range _ _ _ _ _ Ha) as [Hn [Hrnd _]].
  destruct (Forall_firstn_skipn _ (length edges_pos - length acc) rnd Hrnd)
    as [Hi Hj].
  eapply IH; [| exact H]. apply for_loop_inv; assumption.
Qed.

End DrawnPairs.

(** A pair that the test loop accepts is not a self-loop and is new in both
    orientations. *)
Lemma test_rejects_fresh (edges_all acc : list edge) (i j : nat) :
  test_rejects edges_all acc i j = false ->
  i <> j /\ ~ In (i, j) acc /\ ~ In (j, i) acc.
Proof.
  unfold test_rejects. destruct (Nat.eqb_spec i j) as [| Hne]; [discriminate |].
  destruct (ismember (i, j) edges_all); [discriminate |].
  destruct acc as [| e acc]; [intros _; simpl; tauto |].
  cbn [null negb].
  destruct (ismember (j, i) (e :: acc)) eqn:H1; [discriminate |].
  destruct (ismember (i, j) (e :: acc)) eqn:H2; [discriminate |].
  intros _. apply ismember_false in H1, H2. tauto.
Qed.

Lemma val_rejects_fresh (train val acc : list edge) (i j : nat) :
  val_rejects train val acc i j = false ->
  i <> j /\ ~ In (i, j) acc /\ ~ In (j, i) acc.
Proof.
  unfold val_rejects. destruct (Nat.eqb_spec i j) as [| Hne]; [discriminate |].
  destruct (ismember (i, j) train); [discriminate |].
  destruct (ismember (j, i) train); [discriminate |].
  destruct (ismember (i, j) val); [discriminate |].
  destruct (ismember (j, i) val); [discriminate |].
  destruct acc as [| e acc]; [intros _; simpl; tauto |].
  cbn [null negb].
  destruct (ismember (j, i) (e :: acc)) eqn:H1; [discriminate |].
  destruct (ismember (i, j) (e :: acc)) eqn:H2; [discriminate |].
  intros _. apply ismember_false in H1, H2. tauto.
Qed.

(** X2.  Every negative pair that the split returns, for validation or for
    test, joins two different nodes of the graph: both indices are below
    the number of nodes and they differ. *)
Theorem negatives_are_node_pairs (np : numpy_release) (adj : spmatrix Z)
        (rs : RandomState) (fuel : nat) (s : split) :
  mask_test_edges np adj rs fuel = Returns s ->
  Forall (node_pair (order adj)) (test_edges_false s)
  /\ Forall (node_pair (order adj)) (val_edges_false s).
Proof.
  intros H. apply mask_test_edges_returns in H.
  destruct H as [rs1 [rs2 [_ [_ [_ [Htf [Hvf _]]]]]]].
  change (fst (shape adj)) with (order adj) in Htf, Hvf. split.
  - eapply (sample_false_inv (test_rejects (all_entries adj)) (order adj)
                             (Forall (node_pair (order adj))));
      [| constructor | exact Htf].
    intros acc i j Hacc Hi Hj Hr. apply test_rejects_fresh in Hr.
    apply Forall_app. split; [exact Hacc |].
    constructor; [| constructor]. unfold node_pair. simpl. tauto.
  - eapply (sample_false_inv (val_rejects (train_edges s) (val_edges s))
                             (order adj)
                             (Forall (node_pair (order adj))));
      [| constructor | exact Hvf].
    intros acc i j Hacc Hi Hj Hr. apply val_rejects_fresh in Hr.
    apply Forall_app. split; [exact Hacc |].
    constructor; [| constructor]. unfold node_pair. simpl. tauto.
Qed.

Lemma negatives_are_node_pairs_witness :
  mask_test_edges Strict path51 rs_path51 1 = Returns split_path51
  /\ Forall (node_pair (order path51)) (test_edges_false split_path51)
  /\ Forall (node_pair (order path51)) (val_edges_false split_path51).
Proof.
  assert (Hret : mask_test_edges Strict path51 rs_path51 1
                 = Returns split_path51) by reflexivity.
  split; [exact Hret |].
  exact (negatives_are_node_pairs Strict path51 rs_path51 1 split_path51
           Hret).
Defined.

Lemma distinct_pairs_snoc (acc : list edge) (i j : nat) :
  distinct_pairs acc -> i <> j -> ~ In (i, j) acc -> ~ In (j, i) acc ->
  distinct_pairs (acc ++ [(i, j)]).
Proof.
  intros [Hnd Hor] Hne Hij Hji. split.
  - apply NoDup_app; [exact Hnd | repeat constructor; intros [] |].
    intros e He [<- | []]. contradiction.
  - intros a b Hab Hba. apply in_app_iff in Hab, Hba. simpl in Hab, Hba.
    destruct Hab as [Hab | [Hab | []]]; destruct Hba as [Hba | [Hba | []]].
    + exact (Hor a b Hab Hba).
    + injection Hba as -> ->. contradiction.
    + injection Hab as -> ->. contradiction.
    + injection Hab as -> ->. injection Hba as ->. contradiction.
Qed.

(** X3.  Within the test negatives, and within the validation negatives,
    no pair is returned twice, neither as it is nor reversed. *)
Theorem negatives_are_distinct (np : numpy_release) (adj : spmatrix Z)
        (rs : RandomState) (fuel : nat) (s : split) :
  mask_test_edges np adj rs fuel = Returns s ->
  distinct_pairs (test_edges_false s) /\ distinct_pairs (val_edges_false s).
Proof.
  assert (Hnil : distinct_pairs []).
  { split; [constructor | intros i j []]. }
  intros H. apply mask_test_edges_returns in H.
  destruct H as [rs1 [rs2 [_ [_ [_ [Htf [Hvf _]]]]]]].
  split.
  - eapply (sample_false_inv (test_rejects (all_entries adj))
                             (fst (shape (remove_diagonal adj)))
                             distinct_pairs);
      [| exact Hnil | exact Htf].
    intros acc i j Hacc _ _ Hr. apply test_rejects_fresh in Hr.
    apply distinct_pairs_snoc; tauto.
  - eapply (sample_false_inv (val_rejects (train_edges s) (val_edges s))
                             (fst (shape (remove_diagonal adj)))
                             distinct_pairs);
      [| exact Hnil | exact Hvf].
    intros acc i j Hacc _ _ Hr. apply val_rejects_fresh in Hr.
    apply distinct_pairs_snoc; tauto.
Qed.

Lemma negatives_are_distinct_witness :
  mask_test_edges Strict path51 rs_path51 1 = Returns split_path51
  /\ distinct_pairs (test_edges_false split_path51)
  /\ distinct_pairs (val_edges_false split_path51).
Proof.
  assert (Hret : mask_test_edges Strict path51 rs_path51 1
                 = Returns split_path51) by reflexivity.
  split; [exact Hret |].
  exact (negatives_are_distinct Strict path51 rs_path51 1 split_path51 Hret).
Defined.

(** ** The training graph *)

Lemma train_edges_upper (np : numpy_release) (adj : spmatrix Z)
      (rs : RandomState) (fuel : nat) (s : split) :
  mask_test_edges np adj rs fuel = Returns s ->
  NoDup (train_edges s)
  /\ forall i j, In (i, j) (train_edges s) -> i < j /\ j < order adj.
Proof.
  intros H.
  assert (Hsub : forall e, In e (train_edges s) -> In e (unique_edges adj)).
  { intros e He. eapply positives_are_edges; [exact H | left; exact He]. }
  apply mask_test_edges_returns in H.
  destruct H as [rs1 [rs2 [_ [_ [Htr _]]]]].
  split.
  - rewrite Htr. apply delete_rows_NoDup. apply coords_NoDup.
  - intros i j Hin. apply Hsub in Hin.
    pose proof Hin as Hlt. apply unique_edges_In in Hlt.
    unfold unique_edges, sparse_to_tuple in Hin. simpl in Hin.
    apply coords_In in Hin. simpl in Hin. tauto.
Qed.

(** X6.  The training matrix that the split returns has the shape of the
    input and is the adjacency matrix of the training edges: its entry at
    [(i, j)] is 1 when [(i, j)] or [(j, i)] is a training edge and 0
    otherwise, whatever weights, self-loops or asymmetries the input had. *)
Theorem adj_train_entries (np : numpy_release) (adj : spmatrix Z)
        (rs : RandomState) (fuel : nat) (s : split) :
  mask_test_edges np adj rs fuel = Returns s ->
  shape (adj_train s) = shape adj
  /\ forall i j,
      coeff (adj_train s) i j
      = if ismember (i, j) (train_edges s) || ismember (j, i) (train_edges s)
        then 1%Z else 0%Z.
Proof.
  intros H.
  destruct (train_edges_upper np adj rs fuel s H) as [Hnd Hlt].
  apply mask_test_edges_returns in H.
  destruct H as [rs1 [rs2 [_ [_ [_ [_ [_ Hadj]]]]]]].
  rewrite Hadj. split; [reflexivity |].
  intros i j. simpl.
  destruct (ismember (i, j) (train_edges s)) eqn:Hij;
    destruct (ismember (j, i) (train_edges s)) eqn:Hji; simpl.
  - apply ismember_In in Hij, Hji. apply Hlt in Hij, Hji. lia.
  - apply ismember_In in Hij. apply ismember_false in Hji.
    rewrite (count_edge_NoDup _ _ Hnd Hij), (count_edge_absent _ _ Hji).
    reflexivity.
  - apply ismember_false in Hij. apply ismember_In in Hji.
    rewrite (count_edge_NoDup _ _ Hnd Hji), (count_edge_absent _ _ Hij).
    reflexivity.
  - apply ismember_false in Hij, Hji.
    rewrite (count_edge_absent _ _ Hij), (count_edge_absent _ _ Hji).
    reflexivity.
Qed.

Lemma adj_train_entries_witness :
  mask_test_edges Strict path51 rs_path51 1 = Returns split_path51
  /\ shape (adj_train split_path51) = shape path51
  /\ coeff (adj_train split_path51) 3 2
     = if ismember (3, 2) (train_edges split_path51)
          || ismember (2, 3) (train_edges split_path51)
       then 1%Z else 0%Z.
Proof.
  assert (Hret : mask_test_edges Strict path51 rs_path51 1
                 = Returns split_path51) by reflexivity.
  destruct (adj_train_entries Strict path51 rs_path51 1 split_path51 Hret)
    as [Hshape Hentry].
  split; [exact Hret | split; [exact Hshape | exact (Hentry 3 2)]].
Defined.

(** * Feeding sparse matrices *)





(** On a matrix without stored zeros [sparse_to_tuple] returns the arrays
    of its COO form. *)
Lemma sparse_to_tuple_tocoo (m : spmatrix Z) :
  sparse_to_tuple m = sparse_to_tuple_coo (tocoo m)
  /\ NoDup (combine (coo_row (tocoo m)) (coo_col (tocoo m))).
Proof.
  assert (H : combine (map fst (coords m)) (map snd (coords m)) = coords m).
  { induction (coords m) as [| [i j] l IH]; simpl; [reflexivity |].
    rewrite IH. reflexivity. }
  unfold sparse_to_tuple, sparse_to_tuple_coo, tocoo. simpl. rewrite H.
  split; [reflexivity | apply coords_NoDup].
Qed.



Lemma between_spec (start len i : nat) :
  (start <=? i) && (i <? start + len) = true <-> start <= i < start + len.
Proof. rewrite andb_true_iff, Nat.leb_le, Nat.ltb_lt. reflexivity. Qed.

Lemma diagonal_row (n i : nat) :
  forall len start,
    flat_map (fun j => if (coeff (eyeZ n) i j =? 0)%Z then []
                       else [(i, j)])
             (seq start len)
    = if (start <=? i) && (i <? start + len) then [(i, i)] else [].
Proof.
  induction len as [| len IH]; intros start.
  - destruct ((start <=? i) && (i <? start + 0)) eqn:Hb; [| reflexivity].
    apply between_spec in Hb. lia.
  - change (seq start (S len)) with (start :: seq (S start) len).
    cbn [flat_map]. rewrite IH. cbn [coeff eyeZ].
    destruct ((S start <=? i) && (i <? S start + len)) eqn:Hb1;
      destruct ((start <=? i) && (i <? start + S len)) eqn:Hb2;
      destruct (Nat.eqb_spec i start) as [Heq | Hne]; cbn [Z.eqb app];
      try reflexivity;
      try (apply between_spec in Hb1);
      try (apply between_spec in Hb2);
      try (apply not_true_iff_false in Hb1; rewrite between_spec in Hb1);
      try (apply not_true_iff_false in Hb2; rewrite between_spec in Hb2);
      try lia.
    subst start. reflexivity.
Qed.

Lemma coords_eyeZ (n : nat) :
  coords (eyeZ n) = map (fun i => (i, i)) (seq 0 n).
Proof.
  unfold coords. simpl order.
  assert (H : forall l,
             (forall i, In i l -> i < n) ->
             flat_map (fun i =>
                         flat_map (fun j => if (coeff (eyeZ n) i j =? 0)%Z
                                            then [] else [(i, j)])
                                  (seq 0 n)) l
             = map (fun i => (i, i)) l).
  { induction l as [| i l IH]; intros Hl; cbn [flat_map map];
      [reflexivity |].
    rewrite diagonal_row, IH by (intros k Hk; apply Hl; right; exact Hk).
    assert (Hi : i < n) by (apply Hl; left; reflexivity).
    destruct ((0 <=? i) && (i <? 0 + n)) eqn:Hb; [reflexivity |].
    apply not_true_iff_false in Hb. rewrite between_spec in Hb. lia. }
  apply H. intros i Hi. apply in_seq in Hi. lia.
Qed.

(** X8.  The featureless input: [sparse_to_tuple(sp.identity(N))] stores the
    [N] diagonal coordinates with value 1, so [num_features] and
    [features_nonzero] are both the number of nodes. *)
Theorem featureless_input (num_nodes : nat) :
  features num_nodes
  = (map (fun i => (i, i)) (seq 0 num_nodes), repeat 1%Z num_nodes,
     (num_nodes, num_nodes))
  /\ num_features num_nodes = num_nodes
  /\ features_nonzero num_nodes = num_nodes.
Proof.
  assert (H : features num_nodes
              = (map (fun i => (i, i)) (seq 0 num_nodes),
                 repeat 1%Z num_nodes, (num_nodes, num_nodes))).
  { unfold features, sparse_to_tuple. rewrite coords_eyeZ. simpl.
    f_equal. f_equal. rewrite map_map. simpl.
    generalize 0. induction num_nodes as [| k IH]; intros start; simpl;
      [reflexivity |].
    rewrite Nat.eqb_refl, IH. reflexivity. }
  split; [exact H |].
  unfold num_features, features_nonzero. rewrite H. simpl.
  split; [reflexivity | apply repeat_length].
Qed.

(** * Further properties of the evaluator *)

Lemma score_edges_spec (emb : tensor) (adj_orig : spmatrix Z) :
  forall edges,
    score_edges (matmul emb (transpose emb)) adj_orig edges
    = if forallb (in_bounds emb adj_orig) edges
      then Returns (map (score emb) edges,
                    map (fun e => coeff adj_orig (fst e) (snd e)) edges)
      else Raises "IndexError".
Proof.
  induction edges as [| e edges IH]; [reflexivity |].
  cbn [score_edges forallb map]. unfold item, item_sp, in_bounds at 1.
  cbn [nrows ncols matmul transpose].
  destruct ((fst e <? nrows emb) && (snd e <? nrows emb)); [| reflexivity].
  destruct ((fst e <? order adj_orig) && (snd e <? order adj_orig));
    [| reflexivity].
  cbn [bind andb]. rewrite IH.
  destruct (forallb (in_bounds emb adj_orig) edges); reflexivity.
Qed.

Lemma sigmoid_range (x : R) : (0 < sigmoid x < 1)%R.
Proof.
  unfold sigmoid. pose proof (exp_pos (- x)) as He.
  assert (Hd : (0 < 1 + exp (- x))%R) by lra.
  split.
  - apply Rdiv_lt_0_compat; lra.
  - apply (Rmult_lt_reg_r (1 + exp (- x))); [exact Hd |].
    unfold Rdiv. rewrite Rmult_assoc, Rinv_l by lra. lra.
Qed.

Lemma sum_upto_ext (n : nat) (f g : nat -> R) :
  (forall k, k < n -> f k = g k) -> sum_upto n f = sum_upto n g.
Proof.
  intros H. unfold sum_upto. f_equal. apply map_ext_in.
  intros k Hk. apply in_seq in Hk. apply H. lia.
Qed.

Lemma score_swap (emb : tensor) (e : edge) :
  score emb (swap e) = score emb e.
Proof.
  unfold score, swap, gram. simpl. f_equal.
  apply sum_upto_ext. intros k _. apply Rmult_comm.
Qed.

(** X10.  The evaluator raises [IndexError] as soon as one pair, positive
    or negative, has a node outside the embedding matrix or outside
    [adj_orig]; otherwise the scores are, in order, the sigmoids of the
    inner products of the embeddings of the two nodes of each pair,
    positives first, and the labels do not depend on [adj_orig]. *)
Theorem evaluator_scores (emb : tensor) (adj_orig : spmatrix Z)
        (edges_pos edges_neg : list edge) :
  preds_and_labels emb adj_orig edges_pos edges_neg
  = if forallb (in_bounds emb adj_orig) (edges_pos ++ edges_neg)
    then Returns (map (score emb) (edges_pos ++ edges_neg),
                  repeat 1%R (length edges_pos)
                  ++ repeat 0%R (length edges_pos))
    else Raises "IndexError".
Proof.
  unfold preds_and_labels. rewrite !score_edges_spec, forallb_app.
  destruct (forallb (in_bounds emb adj_orig) edges_pos); [| reflexivity].
  destruct (forallb (in_bounds emb adj_orig) edges_neg); [| reflexivity].
  cbn [bind andb]. rewrite length_map, map_app. reflexivity.
Qed.

(** X9.  Every score that the evaluator returns is a probability, from 0
    to 1, and the orientation of the pairs does not matter: with every
    pair reversed the evaluator builds the same scores and labels. *)
Theorem scores_are_probabilities (emb : tensor) (adj_orig : spmatrix Z)
        (edges_pos edges_neg : list edge) :
  (forall preds_all labels_all,
      preds_and_labels emb adj_orig edges_pos edges_neg
      = Returns (preds_all, labels_all) ->
      Forall (fun p => (0 <= p <= 1)%R) preds_all)
  /\ preds_and_labels emb adj_orig (map swap edges_pos) (map swap edges_neg)
     = preds_and_labels emb adj_orig edges_pos edges_neg.
Proof.
  unfold preds_and_labels. split.
  - intros preds_all labels_all H.
    rewrite !score_edges_spec in H.
    destruct (forallb (in_bounds emb adj_orig) edges_pos); [| discriminate].
    destruct (forallb (in_bounds emb adj_orig) edges_neg); [| discriminate].
    cbn [bind] in H. injection H as <- _.
    apply Forall_app. split; apply Forall_forall; intros p Hp;
      apply in_map_iff in Hp; destruct Hp as [e [<- _]];
      pose proof (sigmoid_range (gram emb (fst e) (snd e))) as Hs;
      unfold score; lra.
  - rewrite !score_edges_spec.
    assert (Hb : forall l, forallb (in_bounds emb adj_orig) (map swap l)
                           = forallb (in_bounds emb adj_orig) l).
    { induction l as [| e l IHl]; [reflexivity |].
      cbn [map forallb]. rewrite IHl. f_equal.
      unfold in_bounds, swap. simpl.
      rewrite (andb_comm (snd e <? nrows emb)),
        (andb_comm (snd e <? order adj_orig)). reflexivity. }
    assert (Hs : forall l, map (score emb) (map swap l) = map (score emb) l).
    { intros l. rewrite map_map. apply map_ext. apply score_swap. }
    rewrite !Hb, !Hs.
    destruct (forallb (in_bounds emb adj_orig) edges_pos); [| reflexivity].
    destruct (forallb (in_bounds emb adj_orig) edges_neg); [| reflexivity].
    cbn [bind]. rewrite !length_map. reflexivity.
Qed.

Lemma scores_are_probabilities_witness :
  exists preds_all : list R,
    preds_and_labels emb33 adj3 [(0, 1)] [(0, 2)]
    = Returns (preds_all, [1; 0]%R)
    /\ Forall (fun p => (0 <= p <= 1)%R) preds_all.
Proof.
  eexists.
  assert (H : preds_and_labels emb33 adj3 [(0, 1)] [(0, 2)]
              = Returns (_, [1; 0]%R)) by reflexivity.
  split; [exact H |].
  destruct (scores_are_probabilities emb33 adj3 [(0, 1)] [(0, 2)])
    as [Hrange _].
  exact (Hrange _ _ H).
Defined.

(** * Further properties of the cost *)

Lemma minus_ln_pos (x : R) : (0 < x < 1)%R -> (0 < - ln x)%R.
Proof.
  intros [H0 H1]. pose proof (ln_increasing x 1 H0 H1) as H.
  rewrite ln_1 in H. lra.
Qed.

Lemma fold_right_Rplus_nonneg (l : list R) :
  Forall (fun x => (0 <= x)%R) l -> (0 <= fold_right Rplus 0 l)%R.
Proof.
  induction 1 as [| x l Hx Hl IH]; simpl; lra.
Qed.

Lemma cross_entropy_nonneg (logits targets : list R) (w : R) :
  (0 <= w)%R -> Forall (fun z => (0 <= z <= 1)%R) targets ->
  Forall (fun x => (0 <= x)%R)
         (weighted_cross_entropy_with_logits logits targets w).
Proof.
  intros Hw Ht. unfold weighted_cross_entropy_with_logits.
  apply Forall_forall. intros x Hx. apply in_map_iff in Hx.
  destruct Hx as [[l z] [<- Hin]]. simpl.
  apply in_combine_r in Hin. rewrite Forall_forall in Ht.
  specialize (Ht z Hin).
  pose proof (sigmoid_range l) as Hs.
  pose proof (minus_ln_pos (sigmoid l) Hs) as H1.
  assert (Hs' : (0 < 1 - sigmoid l < 1)%R) by lra.
  pose proof (minus_ln_pos (1 - sigmoid l) Hs') as H2.
  assert (0 <= z * - ln (sigmoid l) * w)%R.
  { apply Rmult_le_pos; [apply Rmult_le_pos |]; lra. }
  assert (0 <= (1 - z) * - ln (1 - sigmoid l))%R
    by (apply Rmult_le_pos; lra).
  lra.
Qed.

(** X11.  When the number of edges handed to the optimizer lies strictly
    between 0 and [N^2], [pos_weight] is positive, [norm] exceeds one half,
    and the cost of any logits against labels in [[0, 1]] is not
    negative. *)
Theorem cost_nonnegative (preds labels : list R) (num_nodes : nat)
        (num_edges : Z) :
  (0 < num_edges < squared num_nodes)%Z ->
  Forall (fun z => (0 <= z <= 1)%R) labels ->
  length preds = length labels -> 0 < length labels ->
  (0 < pos_weight num_nodes num_edges)%R
  /\ (1 / 2 < norm num_nodes num_edges)%R
  /\ (0 <= Optimizer_cost preds labels num_nodes num_edges)%R.
Proof.
  intros [HE0 HE1] Hl Hlen Hpos.
  assert (He : (0 < IZR num_edges)%R) by (apply IZR_lt; exact HE0).
  assert (Hd : (0 < IZR (squared num_nodes - num_edges))%R)
    by (apply IZR_lt; lia).
  assert (Hn : (IZR (squared num_nodes)
                = IZR (squared num_nodes - num_edges) + IZR num_edges)%R).
  { rewrite <- plus_IZR. f_equal. lia. }
  assert (Hw : (0 < pos_weight num_nodes num_edges)%R).
  { unfold pos_weight. apply Rdiv_lt_0_compat; assumption. }
  assert (Hnorm : (1 / 2 < norm num_nodes num_edges)%R).
  { unfold norm. rewrite mult_IZR, Hn.
    apply (Rmult_lt_reg_r (IZR (squared num_nodes - num_edges) * 2));
      [lra |].
    unfold Rdiv at 2. rewrite Rmult_assoc, Rinv_l by lra. lra. }
  split; [exact Hw | split; [exact Hnorm |]].
  unfold Optimizer_cost. cbv zeta.
  apply Rmult_le_pos; [lra |].
  unfold reduce_mean. apply Rmult_le_pos.
  - apply fold_right_Rplus_nonneg, cross_entropy_nonneg; [lra | exact Hl].
  - left. apply Rinv_0_lt_compat.
    unfold weighted_cross_entropy_with_logits.
    rewrite length_map, length_combine, Hlen, Nat.min_id.
    apply lt_0_INR. exact Hpos.
Qed.

Lemma cost_nonnegative_witness :
  (0 < 2 < squared 3)%Z
  /\ Forall (fun z => (0 <= z <= 1)%R) [1%R; 0%R]
  /\ (0 < pos_weight 3 2)%R
  /\ (1 / 2 < norm 3 2)%R
  /\ (0 <= Optimizer_cost [0%R; 0%R] [1%R; 0%R] 3 2)%R.
Proof.
  assert (HE : (0 < 2 < squared 3)%Z) by (vm_compute; split; reflexivity).
  assert (Hl : Forall (fun z => (0 <= z <= 1)%R) [1%R; 0%R])
    by (repeat constructor; lra).
  split; [exact HE | split; [exact Hl |]].
  exact (cost_nonnegative [0%R; 0%R] [1%R; 0%R] 3 2 HE Hl eq_refl
                          (Nat.lt_0_succ 1)).
Defined.

Lemma count_edge_member (e : edge) (l : list edge) :
  NoDup l -> count_edge e l = if ismember e l then 1%Z else 0%Z.
Proof.
  intros Hnd. destruct (ismember e l) eqn:Hm.
  - apply count_edge_NoDup; [exact Hnd | apply ismember_In; exact Hm].
  - apply count_edge_absent. apply ismember_false. exact Hm.
Qed.

(** X12.  The labels of the cost are the [N^2] entries of
    [adj_train + I], row after row: the label of the pair [(i, j)] is 1
    when [i = j] or the two nodes are joined by a training edge and 0
    otherwise; they are as many as the logits that the decoder returns for
    embeddings with one row per node. *)
Theorem training_labels (np : numpy_release) (adj : spmatrix Z)
        (rs : RandomState) (fuel : nat) (s : split) :
  mask_test_edges np adj rs fuel = Returns s ->
  let N := num_nodes adj in
  let labels := to_dense_flat (adj_label s) in
  length labels = N * N
  /\ (forall i j, i < N -> j < N ->
        nth (i * N + j) labels 0%R
        = if (i =? j) || ismember (i, j) (train_edges s)
             || ismember (j, i) (train_edges s)
          then 1%R else 0%R)
  /\ (forall embeddings noise,
         nrows embeddings = N ->
         length (reconstructions embeddings noise) = length labels).
Proof.
  intros H N labels.
  destruct (train_edges_upper np adj rs fuel s H) as [Hnd Hlt].
  apply mask_test_edges_returns in H.
  destruct H as [rs1 [rs2 [_ [_ [_ [_ [_ Hadj]]]]]]].
  assert (Hord : order (adj_label s) = N)
    by (unfold adj_label; rewrite Hadj; reflexivity).
  assert (Hlen : length labels = N * N).
  { unfold labels, to_dense_flat. rewrite length_rows, Hord. reflexivity. }
  split; [exact Hlen | split].
  - intros i j Hi Hj. unfold labels, to_dense_flat. rewrite Hord.
    rewrite (nth_rows (fun i j => IZR (coeff (adj_label s) i j)))
      by assumption.
    unfold adj_label. rewrite Hadj. simpl.
    rewrite !(count_edge_member _ _ Hnd).
    destruct (Nat.eqb_spec i j) as [-> | Hne].
    + destruct (ismember (j, j) (train_edges s)) eqn:Hjj.
      * apply ismember_In, Hlt in Hjj. lia.
      * reflexivity.
    + destruct (ismember (i, j) (train_edges s)) eqn:Hij;
        destruct (ismember (j, i) (train_edges s)) eqn:Hji;
        try reflexivity.
      apply ismember_In, Hlt in Hij. apply ismember_In, Hlt in Hji. lia.
  - intros embeddings noise Hrows. rewrite Hlen.
    unfold reconstructions, decoder_call.
    rewrite length_map, flatten_length. simpl.
    rewrite dropout_none. rewrite Hrows. reflexivity.
Qed.

Lemma training_labels_witness :
  mask_test_edges Strict path51 rs_path51 1 = Returns split_path51
  /\ length (to_dense_flat (adj_label split_path51)) = 51 * 51
  /\ nth (2 * 51 + 3) (to_dense_flat (adj_label split_path51)) 0%R
     = if (2 =? 3) || ismember (2, 3) (train_edges split_path51)
          || ismember (3, 2) (train_edges split_path51)
       then 1%R else 0%R.
Proof.
  assert (Hret : mask_test_edges Strict path51 rs_path51 1
                 = Returns split_path51) by reflexivity.
  destruct (training_labels Strict path51 rs_path51 1 split_path51 Hret)
    as [Hlen [Hnth _]].
  split; [exact Hret | split; [exact Hlen |]].
  apply (Hnth 2 3); unfold num_nodes; simpl; lia.
Defined.

(** * Further properties of the training loop *)

Section TrainingLog.

Variable session : Type.
Variable sess_run : session -> session * Q.
Variable validate : session -> outcome unit.
Variable epochs : Z.

Lemma after_log (sess0 : session) :
  forall (k : nat) (st : loop_state session),
    after sess_run validate k (initial sess0) = Returns st ->
    length (printed st) = k
    /\ map fst (printed st) = map Z.of_nat (seq 1 k)
    /\ epoch st = Z.of_nat k
    /\ temp_train_loss st = last (map snd (printed st)) 1%Q.
Proof.
  induction k as [| k IH]; intros st H.
  - injection H as <-. repeat split.
  - simpl in H. invert_bind H. rename a into st0.
    destruct (IH st0 Ha) as [Hlen [Hfst [Hep Hloss]]].
    destruct (loop_body_returns session sess_run validate _ _ H)
      as [He [_ Hp]].
    rewrite Hp, He, Hep. repeat split.
    + rewrite length_app, Hlen. simpl. lia.
    + rewrite map_app, Hfst, seq_S, map_app. simpl. do 2 f_equal. lia.
    + lia.
    + rewrite map_app. simpl. rewrite last_last. reflexivity.
Qed.

(** X13.  When the loop returns, the lines it printed are numbered
    1, 2, ..., T without a gap, [epoch] ends at their number T, at most
    [epochs] epochs were run (none when [epochs] is not positive), and the
    loss kept at the end is the one of the last line (1.0 when nothing was
    printed). *)
Theorem training_log (sess0 : session) (fuel : nat)
        (final : loop_state session) :
  train sess_run validate epochs fuel (initial sess0) = Returns final ->
  map fst (printed final)
  = map Z.of_nat (seq 1 (length (printed final)))
  /\ epoch final = Z.of_nat (length (printed final))
  /\ (epoch final <= Z.max 0 epochs)%Z
  /\ temp_train_loss final = last (map snd (printed final)) 1%Q.
Proof.
  intros H.
  destruct (train_returns session sess_run validate epochs fuel _ _ H)
    as [T [Hafter [_ Hran]]].
  destruct (after_log sess0 T final Hafter) as [Hlen [Hfst [Hep Hloss]]].
  rewrite Hlen. repeat split; try assumption.
  destruct T as [| T]; [rewrite Hep; simpl; lia |].
  destruct (Hran T) as [st [Hst Htest]]; [lia |].
  apply loop_test_spec in Htest. destruct Htest as [Hlt _].
  destruct (after_log sess0 T st Hst) as [_ [_ [HepT _]]].
  rewrite Hep. lia.
Qed.

Lemma train_raises :
  forall (k fuel : nat) (st0 st : loop_state session) (e : string),
    after sess_run validate k st0 = Returns st ->
    (forall k' st', k' <= k -> after sess_run validate k' st0 = Returns st' ->
                    loop_test epochs st' = true) ->
    loop_body sess_run validate st = Raises e ->
    k < fuel ->
    train sess_run validate epochs fuel st0 = Raises e.
Proof.
  induction k as [| k IH]; intros fuel st0 st e Hafter Htests Hbody Hfuel.
  - injection Hafter as <-.
    destruct fuel as [| fuel]; [lia |]. simpl.
    rewrite (Htests 0 st0 (Nat.le_refl 0) eq_refl), Hbody. reflexivity.
  - destruct fuel as [| fuel]; [lia |]. simpl.
    rewrite (Htests 0 st0 (Nat.le_0_l _) eq_refl).
    rewrite after_shift in Hafter.
    destruct (loop_body sess_run validate st0) as [st1 | |] eqn:Hb0;
      try discriminate.
    cbn [bind] in Hafter |- *.
    apply (IH fuel st1 st e Hafter); [| exact Hbody | lia].
    intros k' st' Hk' Hst'. apply (Htests (S k') st'); [lia |].
    rewrite after_shift, Hb0. exact Hst'.
Qed.

(** X14.  An exception of the evaluation on the validation set ends the
    training: when the loop test holds up to the epoch in which
    [get_roc_score] raises, the loop raises that exception, whatever the
    number of epochs left. *)
Theorem validation_error_aborts (sess0 : session) (k fuel : nat)
        (st : loop_state session) (e : string) :
  after sess_run validate k (initial sess0) = Returns st ->
  (forall k' st', k' <= k ->
                  after sess_run validate k' (initial sess0) = Returns st' ->
                  loop_test epochs st' = true) ->
  validate (fst (sess_run (sess st))) = Raises e ->
  k < fuel ->
  train sess_run validate epochs fuel (initial sess0) = Raises e.
Proof.
  intros Hafter Htests Hval Hfuel.
  apply (train_raises k fuel (initial sess0) st e Hafter Htests);
    [| exact Hfuel].
  unfold loop_body. destruct (sess_run (sess st)) as [s' c].
  simpl in Hval. rewrite Hval. reflexivity.
Qed.

End TrainingLog.

Lemma training_log_witness :
  train counting_run quiet 5 5 (initial 0) = Returns counting_final
  /\ map fst (printed counting_final) = [1%Z; 2%Z]
  /\ epoch counting_final = 2%Z
  /\ (epoch counting_final <= Z.max 0 5)%Z
  /\ temp_train_loss counting_final
     = last (map snd (printed counting_final)) 1%Q.
Proof.
  assert (H : train counting_run quiet 5 5 (initial 0)
              = Returns counting_final) by reflexivity.
  split; [exact H |].
  exact (training_log nat counting_run quiet 5 0 5 counting_final H).
Defined.

Lemma validation_error_aborts_witness :
  after counting_run failing_validate 1 (initial 0) = Returns counting_once
  /\ failing_validate (fst (counting_run (sess counting_once)))
     = Raises "ValueError"
  /\ train counting_run failing_validate 5 5 (initial 0)
     = Raises "ValueError".
Proof.
  assert (Hafter : after counting_run failing_validate 1 (initial 0)
                   = Returns counting_once) by reflexivity.
  assert (Hval : failing_validate (fst (counting_run (sess counting_once)))
                 = Raises "ValueError") by reflexivity.
  assert (Htests : forall k' st',
             k' <= 1 ->
             after counting_run failing_validate k' (initial 0)
             = Returns st' ->
             loop_test 5 st' = true).
  { intros [| [| k']] st' Hk' Hst'; [| | lia];
      injection Hst' as <-; reflexivity. }
  split; [exact Hafter | split; [exact Hval |]].
  exact (validation_error_aborts nat counting_run failing_validate 5 0 1 5
           counting_once "ValueError" Hafter Htests Hval
           ltac:(lia)).
Defined.

(** * Sparse dropout and the forward pass *)

(** The floor of [keep_prob + u] is not zero exactly when the draw [u] is
    at least [1 - keep_prob]. *)
Lemma floor_mask (keep_prob u : R) :
  (0 < keep_prob <= 1)%R -> (0 <= u < 1)%R ->
  negb (Int_part (keep_prob + u) =? 0)%Z
  = if Rle_dec (1 - keep_prob) u then true else false.
Proof.
  intros Hk Hu.
  destruct (base_Int_part (keep_prob + u)) as [Hlo Hhi].
  destruct (Rle_dec (1 - keep_prob) u) as [Hge | Hlt].
  - apply negb_true_iff, Z.eqb_neq. intros H0. rewrite H0 in Hhi. lra.
  - apply negb_false_iff, Z.eqb_eq.
    assert (H1 : (Int_part (keep_prob + u) < 1)%Z) by (apply lt_IZR; lra).
    assert (H2 : (-1 < Int_part (keep_prob + u))%Z) by (apply lt_IZR; lra).
    lia.
Qed.

Lemma dropout_mask_threshold (keep_prob : R) (n : nat) (noise : nat -> R) :
  (0 < keep_prob <= 1)%R -> unit_draws noise ->
  map (fun r => negb (Int_part r =? 0)%Z)
      (map (fun k => (keep_prob + noise k)%R) (seq 0 n))
  = threshold_mask keep_prob n noise.
Proof.
  intros Hk Hu. unfold threshold_mask. rewrite map_map.
  apply map_ext. intros k. apply floor_mask; [exact Hk | apply Hu].
Qed.

Lemma retained_all {A : Type} (mask : list bool) :
  forall l : list A,
    Forall (fun b => b = true) mask -> length mask = length l ->
    retained mask l = l.
Proof.
  unfold retained.
  induction mask as [| b mask IH]; intros [| a l] Hall Hlen;
    simpl in *; try discriminate; [reflexivity |].
  inversion Hall as [| ? ? Hb Hall']; subst. simpl. f_equal.
  apply IH; [exact Hall' | lia].
Qed.

Lemma threshold_mask_all (n : nat) (noise : nat -> R) :
  unit_draws noise ->
  Forall (fun b => b = true) (threshold_mask (1 - 0) n noise)
  /\ length (threshold_mask (1 - 0) n noise) = n.
Proof.
  intros Hu. unfold threshold_mask. split.
  - apply Forall_forall. intros b Hb. apply in_map_iff in Hb.
    destruct Hb as [k [<- _]].
    destruct (Rle_dec (1 - (1 - 0)) (noise k)) as [_ | Hn]; [reflexivity |].
    destruct (Hu k). lra.
  - rewrite length_map. apply length_seq.
Qed.

Lemma scale_sp_one (sp : SparseTensor) : scale_sp sp (1 / (1 - 0)) = sp.
Proof.
  destruct sp as [idx vals shp]. unfold scale_sp. simpl. f_equal.
  rewrite <- (map_id vals) at 2. apply map_ext. intros v. field.
Qed.

Lemma retained_nil {A : Type} (mask : list bool) :
  retained mask (@nil A) = [].
Proof. unfold retained. destruct mask; reflexivity. Qed.

Lemma retained_cons {A : Type} (b : bool) (mask : list bool) (a : A)
      (l : list A) :
  retained (b :: mask) (a :: l)
  = if b then a :: retained mask l else retained mask l.
Proof. unfold retained. simpl. destruct b; reflexivity. Qed.

Lemma retained_firstn {A : Type} (mask : list bool) :
  forall l : list A, retained mask l = retained mask (firstn (length mask) l).
Proof.
  induction mask as [| b mask IH]; intros [| a l]; try reflexivity.
  cbn [length firstn]. rewrite !retained_cons, <- IH. reflexivity.
Qed.

Lemma retained_In {A : Type} (mask : list bool) :
  forall (l : list A) (a : A), In a (retained mask l) -> In a l.
Proof.
  induction mask as [| b mask IH]; intros [| x l] a; try (intros []).
  rewrite retained_cons. destruct b.
  - intros [-> | H]; [left; reflexivity | right; apply IH; exact H].
  - intros H. right. apply IH. exact H.
Qed.

Lemma retained_length {A B : Type} (mask : list bool) :
  forall (l : list A) (l' : list B),
    length l = length l' ->
    length (retained mask l) = length (retained mask l').
Proof.
  induction mask as [| b mask IH]; intros [| x l] [| y l'] H;
    try discriminate; try reflexivity.
  rewrite !retained_cons. injection H as H.
  destruct b; simpl; rewrite (IH l l' H); reflexivity.
Qed.

Lemma retained_length_le {A : Type} (mask : list bool) :
  forall l : list A, length (retained mask l) <= length mask.
Proof.
  induction mask as [| b mask IH]; intros [| x l]; simpl; try lia.
  rewrite retained_cons. specialize (IH l). destruct b; simpl; lia.
Qed.

Lemma skipn_nth_error {A : Type} :
  forall (k : nat) (l : list A) (a : A),
    nth_error l k = Some a -> skipn k l = a :: skipn (S k) l.
Proof.
  induction k as [| k IH]; intros [| x l] a H; try discriminate.
  - injection H as ->. reflexivity.
  - simpl in H. exact (IH l a H).
Qed.

(** Gathering at the true positions of a mask: refused when a position
    past the last row is true, the retained rows otherwise. *)
Lemma gather_positions {A : Type} (l : list A) :
  forall (mask : list bool) (start : nat),
    gather l (map fst (filter snd (combine (seq start (length mask)) mask)))
    = if existsb (fun b => b) (skipn (length l - start) mask)
      then Raises "InvalidArgumentError"
      else Returns (retained mask (skipn start l)).
Proof.
  induction mask as [| b mask IH]; intros start.
  - simpl. rewrite skipn_nil. reflexivity.
  - cbn [length seq combine filter snd].
    destruct (nth_error l start) as [a |] eqn:Hnth.
    + assert (Hlt : start < length l)
        by (apply nth_error_Some; rewrite Hnth; discriminate).
      replace (length l - start) with (S (length l - S start)) by lia.
      cbn [skipn]. rewrite (skipn_nth_error start l a Hnth), retained_cons.
      destruct b.
      * cbn [map fst gather]. rewrite Hnth, IH.
        destruct (existsb (fun b => b) (skipn (length l - S start) mask));
          reflexivity.
      * apply IH.
    + assert (Hge : length l <= start) by (apply nth_error_None; exact Hnth).
      replace (length l - start) with 0 by lia. cbn [skipn existsb].
      rewrite (skipn_all2 l Hge), retained_nil.
      destruct b.
      * cbn [map fst gather orb]. rewrite Hnth. reflexivity.
      * cbn [orb]. rewrite IH.
        replace (length l - S start) with 0 by lia.
        rewrite (@skipn_all2 _ (S start) l) by lia.
        rewrite retained_nil. reflexivity.
Qed.

Lemma gather_where {A : Type} (l : list A) (mask : list bool) :
  gather l (where_true mask)
  = if existsb (fun b => b) (skipn (length l) mask)
    then Raises "InvalidArgumentError"
    else Returns (retained mask l).
Proof.
  unfold where_true. rewrite gather_positions, Nat.sub_0_r. reflexivity.
Qed.

(** [tf.sparse_retain] on a tensor with one value per index: refused when
    the mask is true at a position past the last entry; otherwise the
    entries at the true positions, those past the end of the mask being
    left out. *)
Lemma sparse_retain_spec (sp : SparseTensor) (mask : list bool) :
  length (indices sp) = length (values sp) ->
  sparse_retain sp mask
  = if existsb (fun b => b) (skipn (length (values sp)) mask)
    then Raises "InvalidArgumentError"
    else Returns {| indices := retained mask (indices sp);
                    values := retained mask (values sp);
                    dense_shape := dense_shape sp |}.
Proof.
  intros Hwf. unfold sparse_retain. cbv zeta.
  rewrite !gather_where, Hwf.
  destruct (existsb (fun b => b) (skipn (length (values sp)) mask));
    reflexivity.
Qed.

(** At rate 0 nothing is dropped from a tensor with as many indices as
    values when the declared number of entries is right. *)
Lemma dropout_sparse_rate_0 (x : SparseTensor) (n : nat) (noise : nat -> R) :
  unit_draws noise ->
  length (indices x) = length (values x) -> n = length (values x) ->
  sparse_retain x (threshold_mask (1 - 0) n noise) = Returns x.
Proof.
  intros Hu Hwf Hn. destruct (threshold_mask_all n noise Hu) as [Hall Hlen].
  assert (Hi : retained (threshold_mask (1 - 0) n noise) (indices x)
               = indices x) by (apply retained_all; [exact Hall | lia]).
  assert (Hv : retained (threshold_mask (1 - 0) n noise) (values x)
               = values x) by (apply retained_all; [exact Hall | lia]).
  rewrite (sparse_retain_spec x _ Hwf), Hi, Hv.
  rewrite skipn_all2 by lia. destruct x; reflexivity.
Qed.

(** X15.  With [keep_prob] in (0, 1] sparse dropout looks at the first
    [num_nonzero_elems] stored entries only: it keeps those whose uniform
    draw is at least [1 - keep_prob], multiplied by [1 / keep_prob], and
    leaves out the entries after them without a word.  It is refused only
    when [num_nonzero_elems] exceeds the number of stored entries and a
    draw past the last entry is at least [1 - keep_prob]. *)
Theorem dropout_sparse_keeps (x : SparseTensor) (keep_prob : R)
        (num_nonzero_elems : nat) (noise : nat -> R) :
  (0 < keep_prob <= 1)%R -> unit_draws noise ->
  length (indices x) = length (values x) ->
  let mask := threshold_mask keep_prob num_nonzero_elems noise in
  dropout_sparse x keep_prob num_nonzero_elems noise
  = (if existsb (fun b => b) (skipn (length (values x)) mask)
     then Raises "InvalidArgumentError"
     else Returns {| indices := retained mask (indices x);
                     values := map (fun v => (v * (1 / keep_prob))%R)
                                   (retained mask (values x));
                     dense_shape := dense_shape x |})
  /\ (num_nonzero_elems <= length (values x) ->
      existsb (fun b => b) (skipn (length (values x)) mask) = false
      /\ retained mask (values x)
         = retained mask (firstn num_nonzero_elems (values x))
      /\ retained mask (indices x)
         = retained mask (firstn num_nonzero_elems (indices x))).
Proof.
  intros Hk Hu Hwf mask. split.
  - unfold dropout_sparse. cbv zeta.
    rewrite (dropout_mask_threshold keep_prob num_nonzero_elems noise Hk Hu).
    fold mask. rewrite (sparse_retain_spec x mask Hwf).
    destruct (existsb (fun b => b) (skipn (length (values x)) mask));
      reflexivity.
  - intros Hle.
    assert (Hlen : length mask = num_nonzero_elems)
      by (unfold mask, threshold_mask; rewrite length_map; apply length_seq).
    split; [| split].
    + rewrite skipn_all2 by lia. reflexivity.
    + rewrite <- Hlen. apply retained_firstn.
    + rewrite <- Hlen. apply retained_firstn.
Qed.

Lemma second_low_unit : unit_draws second_low.
Proof. intros k. unfold second_low. destruct (k =? 1); lra. Qed.

Lemma dropout_sparse_keeps_witness :
  (0 < 1 / 2 <= 1)%R /\ unit_draws second_low
  /\ length (indices (feed (features 3))) = length (values (feed (features 3)))
  /\ 2 <= length (values (feed (features 3)))
  /\ dropout_sparse (feed (features 3)) (1 / 2) 2 second_low
     = (if existsb (fun b => b)
                   (skipn (length (values (feed (features 3))))
                          (threshold_mask (1 / 2) 2 second_low))
        then Raises "InvalidArgumentError"
        else Returns
               {| indices := retained (threshold_mask (1 / 2) 2 second_low)
                                      (indices (feed (features 3)));
                  values := map (fun v => (v * (1 / (1 / 2)))%R)
                                (retained (threshold_mask (1 / 2) 2 second_low)
                                          (values (feed (features 3))));
                  dense_shape := dense_shape (feed (features 3)) |})
  /\ existsb (fun b => b)
             (skipn (length (values (feed (features 3))))
                    (threshold_mask (1 / 2) 2 second_low)) = false.
Proof.
  assert (Hk : (0 < 1 / 2 <= 1)%R) by lra.
  assert (Hwf : length (indices (feed (features 3)))
                = length (values (feed (features 3)))) by reflexivity.
  assert (Hle : 2 <= length (values (feed (features 3)))) by (simpl; lia).
  destruct (dropout_sparse_keeps (feed (features 3)) (1 / 2) 2 second_low
              Hk second_low_unit Hwf) as [Heq Hshort].
  destruct (Hshort Hle) as [Hno _].
  split; [exact Hk | split; [exact second_low_unit |]].
  split; [exact Hwf | split; [exact Hle |]].
  split; [exact Heq | exact Hno].
Defined.

(** X16.  At evaluation, where the dropout rate is 0, sparse dropout
    returns its input unchanged, whatever the draws. *)
Theorem dropout_sparse_at_evaluation (x : SparseTensor) (noise : nat -> R) :
  unit_draws noise ->
  length (indices x) = length (values x) ->
  dropout_sparse x (1 - 0) (length (values x)) noise = Returns x.
Proof.
  intros Hu Hwf. unfold dropout_sparse. cbv zeta.
  rewrite (dropout_mask_threshold (1 - 0) _ noise) by (lra || exact Hu).
  rewrite (dropout_sparse_rate_0 x _ noise Hu Hwf eq_refl).
  cbn [bind]. rewrite scale_sp_one. reflexivity.
Qed.

Lemma dropout_sparse_at_evaluation_witness :
  unit_draws (fun _ => (1 / 2)%R)
  /\ length (indices (feed (features 2))) = length (values (feed (features 2)))
  /\ dropout_sparse (feed (features 2)) (1 - 0)
                    (length (values (feed (features 2))))
                    (fun _ => (1 / 2)%R)
     = Returns (feed (features 2)).
Proof.
  assert (Hu : unit_draws (fun _ => (1 / 2)%R)) by (intros k; lra).
  assert (Hwf : length (indices (feed (features 2)))
                = length (values (feed (features 2)))) by reflexivity.
  split; [exact Hu | split; [exact Hwf |]].
  exact (dropout_sparse_at_evaluation (feed (features 2))
                                      (fun _ => (1 / 2)%R) Hu Hwf).
Defined.

Lemma combine_map_repeat {A B : Type} (f : nat -> A) (b : B) :
  forall l : list nat,
    combine (map f l) (repeat b (length l)) = map (fun i => (f i, b)) l.
Proof.
  induction l as [| i l IH]; simpl; [reflexivity | rewrite IH; reflexivity].
Qed.

Lemma fed_features (n : nat) :
  feed (features n)
  = {| indices := map (fun i => (i, i)) (seq 0 n);
       values := repeat 1%R n;
       dense_shape := (n, n) |}.
Proof.
  unfold feed, features, sparse_to_tuple. rewrite coords_eyeZ. simpl.
  f_equal. rewrite !map_map. simpl.
  generalize 0. induction n as [| k IH]; intros start; simpl;
    [reflexivity |].
  rewrite Nat.eqb_refl, IH. reflexivity.
Qed.

Lemma fed_features_well_formed (n : nat) : well_formed (feed (features n)).
Proof.
  rewrite fed_features. split; simpl.
  - rewrite length_map, repeat_length. apply length_seq.
  - apply Forall_forall. intros e He. apply in_map_iff in He.
    destruct He as [i [<- Hi]]. apply in_seq in Hi. unfold inside. simpl.
    apply andb_true_iff. split; apply Nat.ltb_lt; lia.
Qed.

(** Multiplying by the fed identity features gives back the rows of the
    weights. *)
Lemma features_matmul (n : nat) (w : tensor) (i j : nat) :
  i < n ->
  entry (sparse_dense_product (feed (features n)) w) i j = entry w i j.
Proof.
  intros Hi. rewrite fed_features. simpl.
  rewrite <- (length_seq n 0) at 2. rewrite combine_map_repeat, map_map.
  simpl.
  change (fold_right Rplus 0%R
            (map (fun k => if k =? i then (1 * entry w k j)%R else 0%R)
                 (seq 0 n)))
    with (sum_upto n (fun k => if k =? i then (1 * entry w k j)%R else 0%R)).
  rewrite (sum_upto_single n _ i Hi).
  - rewrite Nat.eqb_refl. ring.
  - intros k _ Hk. destruct (Nat.eqb_spec k i); [contradiction | reflexivity].
Qed.

(** A sparse product reads its right factor only at the rows that the
    column indices of the left factor name. *)
Lemma sparse_matmul_ext (sp : SparseTensor) (b b' : tensor) (i j : nat) :
  Forall (fun e => entry b (snd e) j = entry b' (snd e) j) (indices sp) ->
  entry (sparse_dense_product sp b) i j
  = entry (sparse_dense_product sp b') i j.
Proof.
  intros H. simpl. f_equal. apply map_ext_in. intros [c v] Hin. simpl.
  apply in_combine_l in Hin. rewrite Forall_forall in H.
  rewrite (H c Hin). reflexivity.
Qed.

Lemma dropout_ncols (x : tensor) (keep_prob : R) (noise : nat -> nat -> R) :
  ncols (dropout x keep_prob noise) = ncols x.
Proof. unfold dropout. destruct (Req_dec_T keep_prob 1); reflexivity. Qed.

(** A well-formed sparse tensor can be multiplied by every matrix with as
    many rows as it has columns. *)
Lemma well_formed_multipliable (sp : SparseTensor) (b : tensor) :
  well_formed sp -> snd (dense_shape sp) = nrows b ->
  multipliable sp b = true.
Proof.
  intros [Hlen Hin] Hs. unfold multipliable.
  rewrite Hlen, Hs, !Nat.eqb_refl. simpl.
  apply forallb_forall. rewrite Forall_forall in Hin. exact Hin.
Qed.

(** Once the sparse dropout has returned the well-formed [x] with one row
    per node, nothing else can fail: the shapes of the weights fit by
    construction. *)
Lemma forward_pass (inputs adj x : SparseTensor) (rate : R)
      (N num_features features_nonzero hidden1 hidden2 : nat)
      (w1 w2 : nat -> nat -> R)
      (noise1 : nat -> R) (noise2 noise3 : nat -> nat -> R) :
  dropout_sparse inputs (1 - rate) features_nonzero noise1 = Returns x ->
  well_formed x -> dense_shape x = (N, num_features) ->
  well_formed adj -> dense_shape adj = (N, N) ->
  let h :=
    map_tensor relu
      (sparse_dense_product
         adj (sparse_dense_product x (variable num_features hidden1 w1))) in
  let e :=
    map_tensor (fun v => v)
      (sparse_dense_product
         adj (matmul (dropout h (1 - rate) noise2)
                     (variable hidden1 hidden2 w2))) in
  GCNModel_build inputs adj rate num_features features_nonzero hidden1 hidden2
                 w1 w2 noise1 noise2 noise3
  = Returns {| model_hidden1 := h;
               model_embeddings := e;
               model_reconstructions := reconstructions e noise3 |}.
Proof.
  intros Hdrop Hx Hxs Hadj Hadjs h e.
  assert (M1 : multipliable x (variable num_features hidden1 w1) = true).
  { apply well_formed_multipliable; [exact Hx | rewrite Hxs; reflexivity]. }
  assert (M2 : multipliable
                 adj (sparse_dense_product
                        x (variable num_features hidden1 w1)) = true).
  { apply well_formed_multipliable; [exact Hadj |].
    rewrite Hadjs. simpl. rewrite Hxs. reflexivity. }
  assert (M3 : ncols (dropout h (1 - rate) noise2)
               = nrows (variable hidden1 hidden2 w2)).
  { rewrite dropout_ncols. reflexivity. }
  assert (M4 : multipliable
                 adj (matmul (dropout h (1 - rate) noise2)
                             (variable hidden1 hidden2 w2)) = true).
  { apply well_formed_multipliable; [exact Hadj |].
    rewrite Hadjs. cbn [snd matmul nrows]. rewrite dropout_nrows.
    unfold h. cbn [map_tensor sparse_dense_product nrows].
    rewrite Hadjs. reflexivity. }
  unfold GCNModel_build, GraphConvolutionSparse_call, GraphConvolution_call.
  cbn [gcs_input_dim gcs_output_dim gcs_weights gcs_dropout gcs_adj gcs_act
       gcs_features_nonzero gc_input_dim gc_output_dim gc_weights gc_dropout
       gc_adj gc_act].
  cbv zeta. rewrite Hdrop. cbn [bind].
  unfold sparse_tensor_dense_matmul at 1. rewrite M1. cbn [bind].
  unfold sparse_tensor_dense_matmul at 1. rewrite M2. cbn [bind].
  fold h. unfold tf_matmul. rewrite M3, Nat.eqb_refl. cbn [bind].
  unfold sparse_tensor_dense_matmul. rewrite M4. cbn [bind].
  reflexivity.
Qed.

Lemma num_features_nodes (n : nat) : num_features n = n.
Proof. reflexivity. Qed.

(** X17.  At evaluation (dropout rate 0) on the featureless input and a
    well-formed square [adj], the model computes the two graph
    convolutions of the weights themselves: [hidden1 = relu(adj . W1)],
    [embeddings = adj . (hidden1 . W2)], and the reconstructions are the
    inner products of the rows of the embeddings, whatever the draws of the
    three dropouts. *)
Theorem featureless_forward (n hidden1 hidden2 : nat) (adj : SparseTensor)
        (w1 w2 : nat -> nat -> R)
        (noise1 : nat -> R) (noise2 noise3 : nat -> nat -> R) :
  unit_draws noise1 ->
  well_formed adj -> dense_shape adj = (n, n) ->
  exists m,
    GCNModel_build (feed (features n)) adj 0 (num_features n)
                   (features_nonzero n) hidden1 hidden2 w1 w2
                   noise1 noise2 noise3
    = Returns m
    /\ (forall i j,
           entry (model_hidden1 m) i j
           = relu (entry (sparse_dense_product adj (variable n hidden1 w1))
                         i j))
    /\ (forall i j,
           entry (model_embeddings m) i j
           = entry (sparse_dense_product
                      adj (matmul (model_hidden1 m)
                                  (variable hidden1 hidden2 w2))) i j)
    /\ model_reconstructions m
       = flatten (matmul (model_embeddings m)
                         (transpose (model_embeddings m))).
Proof.
  intros Hu Hadj Hadjs.
  assert (Hnz : features_nonzero n = length (values (feed (features n)))).
  { unfold features_nonzero, feed. simpl. rewrite !length_map. reflexivity. }
  destruct (fed_features_well_formed n) as [Hwf Hin].
  assert (Hdrop : dropout_sparse (feed (features n)) (1 - 0)
                                 (features_nonzero n) noise1
                  = Returns (feed (features n))).
  { unfold dropout_sparse. cbv zeta.
    rewrite (dropout_mask_threshold (1 - 0) _ noise1) by (lra || exact Hu).
    rewrite (dropout_sparse_rate_0 _ _ noise1 Hu Hwf Hnz).
    cbn [bind]. rewrite scale_sp_one. reflexivity. }
  assert (Hshape : dense_shape (feed (features n)) = (n, num_features n))
    by (rewrite fed_features; reflexivity).
  eexists. split.
  - exact (forward_pass (feed (features n)) adj (feed (features n)) 0 n
             (num_features n) (features_nonzero n) hidden1 hidden2 w1 w2
             noise1 noise2 noise3 Hdrop (conj Hwf Hin) Hshape Hadj Hadjs).
  - cbn [model_hidden1 model_embeddings model_reconstructions].
    split; [| split].
    + intros i j. cbn [map_tensor entry]. f_equal.
      apply sparse_matmul_ext. apply Forall_forall. intros e He.
      destruct Hadj as [_ Hins]. rewrite Forall_forall in Hins.
      specialize (Hins e He). rewrite Hadjs in Hins. unfold inside in Hins.
      apply andb_true_iff in Hins. destruct Hins as [_ Hk].
      apply Nat.ltb_lt in Hk. simpl in Hk.
      rewrite num_features_nodes. apply features_matmul. exact Hk.
    + intros i j. rewrite dropout_none. reflexivity.
    + unfold reconstructions, decoder_call. simpl decoder_dropout.
      rewrite dropout_none. simpl decoder_act. apply map_id.
Qed.

Lemma fed_adj3_well_formed : well_formed (feed (sparse_to_tuple adj3)).
Proof.
  split; [reflexivity |]. simpl. repeat constructor.
Qed.

Lemma featureless_forward_witness :
  unit_draws (fun _ => (1 / 2)%R)
  /\ well_formed (feed (sparse_to_tuple adj3))
  /\ dense_shape (feed (sparse_to_tuple adj3)) = (3, 3)
  /\ exists m,
      GCNModel_build (feed (features 3)) (feed (sparse_to_tuple adj3)) 0
                     (num_features 3) (features_nonzero 3) 2 1
                     (entry emb33) (entry emb33)
                     (fun _ => (1 / 2)%R) half_noise half_noise
      = Returns m
      /\ (forall i j,
             entry (model_hidden1 m) i j
             = relu (entry (sparse_dense_product
                              (feed (sparse_to_tuple adj3))
                              (variable 3 2 (entry emb33))) i j)).
Proof.
  assert (Hu : unit_draws (fun _ => (1 / 2)%R)) by (intros k; lra).
  assert (Hs : dense_shape (feed (sparse_to_tuple adj3)) = (3, 3))
    by reflexivity.
  split; [exact Hu | split; [exact fed_adj3_well_formed |]].
  split; [exact Hs |].
  destruct (featureless_forward 3 2 1 (feed (sparse_to_tuple adj3))
              (entry emb33) (entry emb33)
              (fun _ => (1 / 2)%R) half_noise half_noise
              Hu fed_adj3_well_formed Hs)
    as [m [Hm [Hh _]]].
  exists m. split; [exact Hm | exact Hh].
Defined.

(** What the sparse dropout returns is well formed and has the shape of
    its input. *)
Lemma dropout_sparse_well_formed (x y : SparseTensor) (keep_prob : R)
      (n : nat) (noise : nat -> R) :
  (0 < keep_prob <= 1)%R -> unit_draws noise -> well_formed x ->
  dropout_sparse x keep_prob n noise = Returns y ->
  well_formed y /\ dense_shape y = dense_shape x.
Proof.
  intros Hk Hu [Hlen Hin] H. unfold dropout_sparse in H. cbv zeta in H.
  rewrite (dropout_mask_threshold keep_prob n noise Hk Hu) in H.
  rewrite (sparse_retain_spec x _ Hlen) in H.
  destruct (existsb (fun b => b)
                    (skipn (length (values x))
                           (threshold_mask keep_prob n noise)));
    [discriminate |].
  cbn [bind] in H. injection H as <-. unfold well_formed, scale_sp. simpl.
  split; [split |].
  - rewrite length_map. apply retained_length. exact Hlen.
  - apply Forall_forall. intros e He. apply retained_In in He.
    rewrite Forall_forall in Hin. apply Hin. exact He.
  - reflexivity.
Qed.

(** X18.  On well-formed placeholders, [adj] square with one row per row
    of the features, the forward pass goes through whenever
    [features_nonzero] does not exceed the number of fed feature values
    (a smaller number is not noticed): the hidden layer is [N] by
    [hidden1] without negative entries, the embeddings are [N] by
    [hidden2] and there is one reconstruction per ordered pair of nodes.
    With a larger [features_nonzero] the pass is refused at rate 0. *)
Theorem model_shapes (inputs adj : SparseTensor) (rate : R)
        (N num_features features_nonzero hidden1 hidden2 : nat)
        (w1 w2 : nat -> nat -> R)
        (noise1 : nat -> R) (noise2 noise3 : nat -> nat -> R) :
  unit_draws noise1 -> (0 <= rate < 1)%R ->
  well_formed inputs -> dense_shape inputs = (N, num_features) ->
  well_formed adj -> dense_shape adj = (N, N) ->
  let built :=
    GCNModel_build inputs adj rate num_features features_nonzero
                   hidden1 hidden2 w1 w2 noise1 noise2 noise3 in
  (features_nonzero <= length (values inputs) ->
   exists m,
     built = Returns m
     /\ nrows (model_hidden1 m) = N /\ ncols (model_hidden1 m) = hidden1
     /\ (forall i j, (0 <= entry (model_hidden1 m) i j)%R)
     /\ nrows (model_embeddings m) = N
     /\ ncols (model_embeddings m) = hidden2
     /\ length (model_reconstructions m) = N * N)
  /\ (length (values inputs) < features_nonzero -> rate = 0%R ->
      built = Raises "InvalidArgumentError").
Proof.
  intros Hu Hrate Hin Hins Hadj Hadjs built.
  assert (Hk : (0 < 1 - rate <= 1)%R) by lra.
  pose proof Hin as [Hlen _].
  assert (Hmask : length (threshold_mask (1 - rate) features_nonzero noise1)
                  = features_nonzero)
    by (unfold threshold_mask; rewrite length_map; apply length_seq).
  split.
  - intros Hle.
    assert (Hdrop : exists x,
               dropout_sparse inputs (1 - rate) features_nonzero noise1
               = Returns x).
    { unfold dropout_sparse. cbv zeta.
      rewrite (dropout_mask_threshold _ features_nonzero noise1 Hk Hu).
      rewrite (sparse_retain_spec inputs _ Hlen).
      rewrite skipn_all2 by lia. cbn [existsb bind]. eexists. reflexivity. }
    destruct Hdrop as [x Hx].
    destruct (dropout_sparse_well_formed inputs x (1 - rate) features_nonzero
                noise1 Hk Hu Hin Hx) as [Hxwf Hxs].
    rewrite Hins in Hxs.
    eexists. split.
    + exact (forward_pass inputs adj x rate N num_features features_nonzero
               hidden1 hidden2 w1 w2 noise1 noise2 noise3
               Hx Hxwf Hxs Hadj Hadjs).
    + cbn [model_hidden1 model_embeddings model_reconstructions
           map_tensor sparse_dense_product nrows ncols matmul variable].
      rewrite Hadjs. cbn [fst].
      split; [reflexivity | split; [reflexivity | split]].
      * intros i j. cbn [entry]. unfold relu. apply Rmax_r.
      * split; [reflexivity | split; [reflexivity |]].
        unfold reconstructions, decoder_call.
        rewrite length_map, flatten_length. simpl.
        rewrite dropout_nrows. simpl. rewrite Hadjs. reflexivity.
  - intros Hgt ->. unfold built, GCNModel_build, GraphConvolutionSparse_call.
    cbn [gcs_dropout gcs_features_nonzero]. cbv zeta.
    unfold dropout_sparse. cbv zeta.
    rewrite (dropout_mask_threshold _ features_nonzero noise1 Hk Hu).
    rewrite (sparse_retain_spec inputs _ Hlen).
    destruct (threshold_mask_all features_nonzero noise1 Hu) as [Hall _].
    assert (Hex : existsb (fun b => b)
                          (skipn (length (values inputs))
                                 (threshold_mask (1 - 0) features_nonzero
                                                 noise1)) = true).
    { apply existsb_exists.
      destruct (skipn (length (values inputs))
                      (threshold_mask (1 - 0) features_nonzero noise1))
        as [| b rest] eqn:Hs.
      - exfalso. apply (f_equal (@length bool)) in Hs.
        rewrite length_skipn, Hmask in Hs. simpl in Hs. lia.
      - exists b. split; [left; reflexivity |].
        rewrite Forall_forall in Hall. apply Hall.
        rewrite <- (firstn_skipn (length (values inputs))
                                 (threshold_mask (1 - 0) features_nonzero
                                                 noise1)).
        apply in_or_app. right. rewrite Hs. left. reflexivity. }
    rewrite Hex. reflexivity.
Qed.

Lemma model_shapes_witness :
  unit_draws (fun _ => (1 / 2)%R) /\ (0 <= 0 < 1)%R
  /\ 2 <= length (values (feed (features 3)))
  /\ length (values (feed (features 3))) < 4
  /\ (exists m,
         GCNModel_build (feed (features 3)) (feed (sparse_to_tuple adj3)) 0
                        3 2 2 1 (entry emb33) (entry emb33)
                        (fun _ => (1 / 2)%R) half_noise half_noise
         = Returns m
         /\ nrows (model_embeddings m) = 3 /\ ncols (model_embeddings m) = 1)
  /\ GCNModel_build (feed (features 3)) (feed (sparse_to_tuple adj3)) 0
                    3 4 2 1 (entry emb33) (entry emb33)
                    (fun _ => (1 / 2)%R) half_noise half_noise
     = Raises "InvalidArgumentError".
Proof.
  assert (Hu : unit_draws (fun _ => (1 / 2)%R)) by (intros k; lra).
  assert (Hr : (0 <= 0 < 1)%R) by lra.
  assert (Hs : dense_shape (feed (features 3)) = (3, 3)) by reflexivity.
  assert (Ha : dense_shape (feed (sparse_to_tuple adj3)) = (3, 3))
    by reflexivity.
  assert (Hle : 2 <= length (values (feed (features 3)))) by (simpl; lia).
  assert (Hgt : length (values (feed (features 3))) < 4) by (simpl; lia).
  split; [exact Hu | split; [exact Hr |]].
  split; [exact Hle | split; [exact Hgt |]].
  destruct (model_shapes (feed (features 3)) (feed (sparse_to_tuple adj3)) 0
              3 3 2 2 1 (entry emb33) (entry emb33)
              (fun _ => (1 / 2)%R) half_noise half_noise
              Hu Hr (fed_features_well_formed 3) Hs fed_adj3_well_formed Ha)
    as [Hbuilt _].
  destruct (model_shapes (feed (features 3)) (feed (sparse_to_tuple adj3)) 0
              3 3 4 2 1 (entry emb33) (entry emb33)
              (fun _ => (1 / 2)%R) half_noise half_noise
              Hu Hr (fed_features_well_formed 3) Hs fed_adj3_well_formed Ha)
    as [_ Hraise].
  split; [| exact (Hraise Hgt eq_refl)].
  destruct (Hbuilt Hle) as [m [Hm [_ [_ [_ [Hrow [Hcol _]]]]]]].
  exists m. split; [exact Hm | split; [exact Hrow | exact Hcol]].
Defined.

(** * Further properties of the normalisation and of the splitter *)

(** X19.  On a matrix without negative entries, the entry [(i, j)] of the
    result of [preprocess_graph] is the entry [(j, i)] of [adj + I] divided
    by the square roots of the degrees of [i] and [j] after the
    self-loops: the normalised transpose.  It vanishes exactly where that
    entry of [adj + I] vanishes, and the diagonal is positive. *)
Theorem normalized_entries (adj : spmatrix R) (i j : nat) :
  nonnegative adj -> i < order adj -> j < order adj ->
  let degree := row_sums (self_looped adj) in
  coeff (preprocess_graph adj) i j
  = (coeff (self_looped adj) j i / (sqrt (degree i) * sqrt (degree j)))%R
  /\ (coeff (preprocess_graph adj) i j = 0%R
      <-> coeff (self_looped adj) j i = 0%R)
  /\ (0 < coeff (preprocess_graph adj) i i)%R.
Proof.
  intros Hpos Hi Hj degree.
  pose proof (row_sum_ge_1 adj i Hpos Hi) as Hdi.
  pose proof (row_sum_ge_1 adj j Hpos Hj) as Hdj.
  fold degree in Hdi, Hdj.
  destruct (power_minus_half_sqrt (degree i)) as [Hsi Hpi]; [lra |].
  destruct (power_minus_half_sqrt (degree j)) as [Hsj Hpj]; [lra |].
  pose proof (power_minus_half_pos (degree i)) as Hqi.
  pose proof (power_minus_half_pos (degree j)) as Hqj.
  split; [| split].
  - rewrite preprocess_graph_coeff by assumption. fold degree.
    rewrite Hpi, Hpj. field. split; assumption.
  - rewrite preprocess_graph_coeff by assumption. fold degree. split.
    + intros H0.
      apply Rmult_integral in H0. destruct H0 as [H0 | H0]; [| lra].
      apply Rmult_integral in H0. destruct H0 as [H0 | H0]; [exact H0 | lra].
    + intros ->. ring.
  - rewrite preprocess_graph_coeff by assumption. fold degree.
    assert (Hd : (1 <= coeff (self_looped adj) i i)%R).
    { simpl. rewrite Nat.eqb_refl. specialize (Hpos i i Hi Hi). lra. }
    apply Rmult_lt_0_compat; [apply Rmult_lt_0_compat |]; lra.
Qed.

Lemma normalized_entries_witness :
  nonnegative pair_and_single
  /\ 0 < order pair_and_single /\ 1 < order pair_and_single
  /\ coeff (preprocess_graph pair_and_single) 0 1
     = (coeff (self_looped pair_and_single) 1 0
        / (sqrt (row_sums (self_looped pair_and_single) 0)
           * sqrt (row_sums (self_looped pair_and_single) 1)))%R.
Proof.
  assert (Hpos : nonnegative pair_and_single).
  { intros k j _ _. simpl. destruct (k + j =? 1); lra. }
  assert (H0 : 0 < order pair_and_single) by (simpl; lia).
  assert (H1 : 1 < order pair_and_single) by (simpl; lia).
  split; [exact Hpos | split; [exact H0 | split; [exact H1 |]]].
  destruct (normalized_entries pair_and_single 0 1 Hpos H0 H1) as [H _].
  exact H.
Defined.

Lemma take_rows_total {A : Type} (arr : list A) (idx : list nat) :
  Forall (fun k => k < length arr) idx ->
  exists rows, take_rows arr idx = Returns rows.
Proof.
  induction 1 as [| k idx Hk Hidx [rows IH]]; simpl.
  - eexists. reflexivity.
  - destruct (nth_error arr k) as [row |] eqn:Hn.
    + rewrite IH. eexists. reflexivity.
    + apply nth_error_None in Hn. lia.
Qed.

Lemma sample_false_never_raises (rejects : list edge -> nat -> nat -> bool)
      (n : nat) (edges_pos : list edge) :
  0 < n ->
  forall (fuel : nat) (rs : RandomState) (acc : list edge) (e : string),
    sample_false rejects fuel n edges_pos rs acc <> Raises e.
Proof.
  intros Hn. induction fuel as [| fuel IH]; intros rs acc e; simpl;
    destruct (length acc <? length edges_pos); try discriminate.
  unfold randint. destruct (Nat.leb_spec n 0) as [Hle | _]; [lia |].
  cbn [bind]. apply IH.
Qed.

(** X20.  On a graph with at least 50 edges the splitter raises no
    exception: it returns, or it is still sampling negative pairs when the
    fuel runs out.  [np.random.shuffle] leaves a permutation of
    [range(E)]. *)
Theorem large_graph_never_raises (np : numpy_release) (adj : spmatrix Z)
        (rs : RandomState) (fuel : nat) (e : string) :
  Permutation (shuffled rs) (seq 0 (length (unique_edges adj))) ->
  50 <= length (unique_edges adj) ->
  mask_test_edges np adj rs fuel <> Raises e.
Proof.
  intros Hperm Hbig.
  set (edges := unique_edges adj) in *.
  set (E := length edges) in *.
  set (k := E / 50).
  assert (Hk : 0 < k).
  { unfold k. apply Nat.div_str_pos. lia. }
  assert (Hdiv : k + k <= E).
  { unfold k. pose proof (Nat.div_mod_eq E 50). lia. }
  assert (Hlen : length (shuffled rs) = E).
  { rewrite (Permutation_length Hperm). apply length_seq. }
  destruct (slices_length k (shuffled rs)) as [Hlv Hlt]; [lia |].
  assert (Hin : forall i, In i (firstn (k + k) (shuffled rs)) -> i < E).
  { intros i Hi.
    assert (Hi' : In i (shuffled rs)).
    { rewrite <- (firstn_skipn (k + k) (shuffled rs)).
      apply in_or_app. left. exact Hi. }
    eapply Permutation_in in Hi'; [| exact Hperm].
    apply in_seq in Hi'. lia. }
  assert (Hobj : forall i, In i (slice k (k + k) (shuffled rs)
                                 ++ slice 0 k (shuffled rs)) -> i < E).
  { intros i Hi. apply Hin.
    eapply Permutation_in; [apply slices_permutation | exact Hi]. }
  assert (Htest : Forall (fun i => i < E) (slice k (k + k) (shuffled rs))).
  { apply Forall_forall. intros i Hi. apply Hobj, in_or_app. left. exact Hi. }
  assert (Hval : Forall (fun i => i < E) (slice 0 k (shuffled rs))).
  { apply Forall_forall. intros i Hi. apply Hobj, in_or_app. right. exact Hi. }
  destruct (take_rows_total edges _ Htest) as [te Hte].
  destruct (take_rows_total edges _ Hval) as [ve Hve].
  assert (Hn : 0 < order adj).
  { destruct edges as [| [a b] edges'] eqn:Hed; [simpl in E; lia |].
    assert (Hab : In (a, b) (unique_edges adj))
      by (fold edges; rewrite Hed; left; reflexivity).
    unfold unique_edges, sparse_to_tuple in Hab. simpl in Hab.
    apply coords_In in Hab. simpl in Hab. lia. }
  unfold mask_test_edges. cbv zeta.
  change (fst (fst (sparse_to_tuple (triu (remove_diagonal adj)))))
    with edges.
  fold E k. rewrite Hte, Hve. cbn [bind].
  assert (Hdel : exists tr,
             np_delete np edges
                       (hstack (slice k (k + k) (shuffled rs))
                               (slice 0 k (shuffled rs)))
             = Returns tr).
  { unfold np_delete, hstack. cbn [fst snd].
    destruct np; [eexists; reflexivity |].
    destruct (slice k (k + k) (shuffled rs)) as [| t ts] eqn:Hs1;
      [simpl in Hlt; lia |].
    destruct (slice 0 k (shuffled rs)) as [| v vs] eqn:Hs2;
      [simpl in Hlv; lia |].
    cbn [null orb].
    assert (Hall : forallb (fun i => i <? length edges)
                           ((t :: ts) ++ v :: vs) = true).
    { apply forallb_forall. intros i Hi. apply Nat.ltb_lt. apply Hobj.
      exact Hi. }
    rewrite Hall. eexists. reflexivity. }
  destruct Hdel as [tr Htr]. rewrite Htr. cbn [bind].
  destruct (sample_false (test_rejects (fst (fst (sparse_to_tuple
                                                    (remove_diagonal adj)))))
                         fuel (fst (shape (remove_diagonal adj))) te rs [])
    as [[tf rs1] | e1 |] eqn:Htf; cbn [bind]; try discriminate.
  - destruct (sample_false (val_rejects tr ve) fuel
                           (fst (shape (remove_diagonal adj))) ve rs1 [])
      as [[vf rs2] | e2 |] eqn:Hvf; cbn [bind]; try discriminate.
    exfalso. exact (sample_false_never_raises _ _ _ Hn _ _ _ _ Hvf).
  - exfalso. exact (sample_false_never_raises _ _ _ Hn _ _ _ _ Htf).
Qed.

Lemma large_graph_never_raises_witness :
  Permutation (shuffled rs_path51) (seq 0 (length (unique_edges path51)))
  /\ 50 <= length (unique_edges path51)
  /\ mask_test_edges Strict path51 rs_path51 0 <> Raises "IndexError"
  /\ mask_test_edges Strict path51 rs_path51 0 = OutOfFuel.
Proof.
  assert (Hperm : Permutation (shuffled rs_path51)
                              (seq 0 (length (unique_edges path51))))
    by (vm_compute; apply Permutation_refl).
  assert (Hbig : 50 <= length (unique_edges path51))
    by (vm_compute; apply Nat.le_refl).
  split; [exact Hperm | split; [exact Hbig |]].
  split; [| reflexivity].
  exact (large_graph_never_raises Strict path51 rs_path51 0 "IndexError"
           Hperm Hbig).
Defined.
